(** * UML diagram generator: the operation-based patch engine

    A shallow embedding of the patch engine of the repository:
    - [nodes/context_extractor.py]: the structural (JSON) patcher,
      [parse_block_value], [apply_operations], [_apply_operation];
    - [nodes/code_generator.py]: the text (PlantUML) patcher,
      [_parse_location_pattern], [_find_line_index], [_apply_operation],
      [apply_operations];
    - [utils/decorators.py]: [retry_on_failure];
    - [utils/db_utils.py] and [driver.py]: the version ledger,
      [get_latest_diagram], [add_diagram], [update_after_run] and the
      versioning block of [run_driver].

    Further properties cover the code around these places: the error and
    padding paths of the structural patcher and its location format, the
    delete branch and the batches of the text patcher, [validate_output] of
    the code generator, the bounds of the retry loop, the queries on
    [diagrams.json] with [_infer_version], and the message store of
    [utils/db_utils.py] with the message ids of [api/main.py].

    Python [str] is modelled by [string] (code points below 256), Python
    [dict] by [gmap string _] (equality of dicts ignores insertion order, and
    so does equality of [gmap]s), Python [list] by [list], exceptions by an
    explicit result type. *)

From Stdlib Require Import Ascii String ZArith Lia.
From stdpp Require Import gmap strings list fin_maps pretty.

Set Warnings "-register-all".
Open Scope string_scope.
Open Scope list_scope.

(** ** Exceptions and results *)

(** The classes of the exceptions the modelled code can raise. *)
Inductive exn_kind : Type :=
  | TypeError
  | KeyError
  | AttributeError
  | IndexError
  | ValueError.

Inductive result (A : Type) : Type :=
  | Ok (a : A)
  | Raise (e : exn_kind).
Arguments Ok {A} a.
Arguments Raise {A} e.

Definition rbind {A B : Type} (r : result A) (k : A -> result B) : result B :=
  match r with
  | Ok a => k a
  | Raise e => Raise e
  end.

Notation "x <-- r ;; k" := (rbind r (fun x => k))
  (at level 100, r at next level, right associativity).

Definition is_ok {A : Type} (r : result A) : bool :=
  match r with Ok _ => true | Raise _ => false end.

(** ** Python strings *)

Module Py.

(** [str.isspace] on the code points below 256. *)
Definition is_space (c : ascii) : bool :=
  let n := nat_of_ascii c in
  (((9 <=? n) && (n <=? 13)) || ((28 <=? n) && (n <=? 32))
   || (n =? 133) || (n =? 160))%nat.

Fixpoint lstrip (s : string) : string :=
  match s with
  | "" => ""
  | String c s' => if is_space c then lstrip s' else s
  end.

Fixpoint rstrip (s : string) : string :=
  match s with
  | "" => ""
  | String c s' =>
      match rstrip s' with
      | "" => if is_space c then "" else String c ""
      | r => String c r
      end
  end.

(** [s.strip()] *)
Definition strip (s : string) : string := rstrip (lstrip s).

(** [s.startswith(p)] *)
Definition startswith (s p : string) : bool := String.prefix p s.

(** [s.endswith(p)] *)
Fixpoint endswith (s p : string) : bool :=
  String.eqb s p
  || match s with
     | "" => false
     | String _ s' => endswith s' p
     end.

(** [p in s] on strings, which is also what
    [re.search(re.escape(p), s)] decides: [p] occurs literally in [s]. *)
Fixpoint contains (p s : string) : bool :=
  String.prefix p s
  || match s with
     | "" => false
     | String _ s' => contains p s'
     end.

(** [s.split(sep)] for a one-character separator; [re.split] on an escaped
    single character gives the same list. *)
Fixpoint split (sep : ascii) (s : string) : list string :=
  match s with
  | "" => [""]
  | String c s' =>
      if Ascii.eqb c sep then "" :: split sep s'
      else match split sep s' with
           | h :: t => String c h :: t
           | [] => [String c ""]
           end
  end.

(** [sep.join(ls)] *)
Definition join (sep : string) (ls : list string) : string :=
  String.concat sep ls.

(** [l.insert(i, x)]: an index past the end appends. *)
Definition list_insert {A : Type} (i : nat) (x : A) (l : list A) : list A :=
  take i l ++ x :: drop i l.

(** The decimal digits that [\d] accepts among the code points below 256. *)
Definition is_digit (c : ascii) : bool :=
  let n := nat_of_ascii c in ((48 <=? n) && (n <=? 57))%nat.

Definition digit_value (c : ascii) : nat := (nat_of_ascii c - 48)%nat.

(** [int(ds)] for a string of decimal digits. *)
Fixpoint int_of_digits_from (acc : nat) (ds : string) : nat :=
  match ds with
  | "" => acc
  | String c ds' => int_of_digits_from (10 * acc + digit_value c)%nat ds'
  end.

Definition int_of_digits (ds : string) : nat := int_of_digits_from 0 ds.

(** The longest prefix of [s] made of characters satisfying [p], and the
    rest: what a greedy [p+] or [p*] consumes. *)
Fixpoint span (p : ascii -> bool) (s : string) : string * string :=
  match s with
  | "" => ("", "")
  | String c s' =>
      if p c then let '(a, b) := span p s' in (String c a, b)
      else ("", s)
  end.

(** [all(p(c) for c in s)] *)
Fixpoint all_chars (p : ascii -> bool) (s : string) : bool :=
  match s with
  | "" => true
  | String c s' => p c && all_chars p s'
  end.

End Py.

Definition newline : ascii := "010"%char.
Definition nl : string := String newline "".

(** ** JSON values *)

(** The values [json.loads] produces and the patcher edits. Numbers are the
    integers; the patcher never looks inside a number. *)
Inductive json : Type :=
  | JNull
  | JBool (b : bool)
  | JNum (z : Z)
  | JStr (s : string)
  | JList (l : list json)
  | JDict (m : gmap string json).

Module PyObj.

(** [isinstance(v, dict)] *)
Definition is_dict (v : json) : bool :=
  match v with JDict _ => true | _ => false end.

(** [len(v)] *)
Definition len (v : json) : result nat :=
  match v with
  | JList l => Ok (length l)
  | JDict m => Ok (size m)
  | JStr s => Ok (String.length s)
  | _ => Raise TypeError
  end.

(** [key == v] for a string [key] *)
Definition eq_str (key : string) (v : json) : bool :=
  match v with JStr s => String.eqb key s | _ => false end.

(** [key in cur] for a string [key]: membership of the key in a dict, of
    the string among the elements of a list, substring test in a string;
    other values are not iterable. *)
Definition contains (key : string) (cur : json) : result bool :=
  match cur with
  | JDict m => Ok (bool_decide (is_Some (m !! key)))
  | JList l => Ok (existsb (eq_str key) l)
  | JStr s => Ok (Py.contains key s)
  | _ => Raise TypeError
  end.

(** [cur[key]] for a string [key] *)
Definition getitem (cur : json) (key : string) : result json :=
  match cur with
  | JDict m =>
      match m !! key with
      | Some v => Ok v
      | None => Raise KeyError
      end
  | _ => Raise TypeError
  end.

(** [cur[key] = v] for a string [key] *)
Definition setitem (cur : json) (key : string) (v : json) : result json :=
  match cur with
  | JDict m => Ok (JDict (<[key := v]> m))
  | _ => Raise TypeError
  end.

(** [del cur[key]] for a string [key] *)
Definition delitem (cur : json) (key : string) : result json :=
  match cur with
  | JDict m =>
      match m !! key with
      | Some _ => Ok (JDict (delete key m))
      | None => Raise KeyError
      end
  | _ => Raise TypeError
  end.

(** [bool(v)] *)
Definition truthy (v : json) : bool :=
  match v with
  | JNull => false
  | JBool b => b
  | JNum z => negb (z =? 0)%Z
  | JStr s => negb (String.eqb s "")
  | JList l => negb (Nat.eqb (length l) 0)
  | JDict m => negb (Nat.eqb (size m) 0)
  end.

End PyObj.

(** ** The structural patcher, [nodes/context_extractor.py] *)

Module ContextExtractor.

(** class [Operation]; [block] is declared [Union[Dict, List, str]]. *)
Record Operation : Type := {
  operation : string;
  location : string;
  block : json;
  reasoning : string
}.

(** The [index] of a path step: ["end"] or [int(index_str)]. *)
Inductive index : Type :=
  | IdxEnd
  | IdxNum (n : nat).

(** A path step [(key, index)]; [None] is Python's [None]. *)
Definition part : Type := string * option index.

Definition not_open_bracket (c : ascii) : bool :=
  negb (Ascii.eqb c "["%char).

(** The optional group [(?:\[(\d+|end)\])?] tried at [rest]: the index it
    captures, [None] when the group does not take part in the match. *)
Definition match_index (rest : string) : option index :=
  match rest with
  | String "["%char r =>
      let '(ds, r') := Py.span Py.is_digit r in
      if negb (String.eqb ds "") && Py.startswith r' "]"
      then Some (IdxNum (Py.int_of_digits ds))
      else if Py.startswith r "end]" then Some IdxEnd
      else None
  | _ => None
  end.

(** [re.match(r'([^\[]+)(?:\[(\d+|end)\])?', token)] and the body of
    [if match:]; [None] when there is no match, in which case the loop
    appends nothing. *)
Definition parse_token (token : string) : option part :=
  let '(key, rest) := Py.span not_open_bracket token in
  if String.eqb key "" then None
  else Some (key, match_index rest).

(** The first loop of [_apply_operation]: [parts]. *)
Definition parse_location (location : string) : list part :=
  omap parse_token (Py.split "."%char location).

(** The container a missing key is created as. *)
Definition fresh_container (idx : option index) : json :=
  match idx with
  | Some _ => JList []
  | None => JDict ∅
  end.

(** [if key not in current: current[key] = v] *)
Definition ensure_key (cur : json) (key : string) (v : json) : result json :=
  present <-- PyObj.contains key cur ;;
  if present : bool then Ok cur else PyObj.setitem cur key v.

(** The block under [if operation == "add"] / [elif operation == "delete"],
    run on the container [current] that the navigation reached; the result
    is that container after the mutation. *)
Definition apply_at_target (operation : string) (last_key : string)
    (last_index : option index) (value : json) (current : json)
    : result json :=
  if String.eqb operation "add" then
    match last_index with
    | Some idx =>
        cur1 <-- ensure_key current last_key (JList []) ;;
        tgt <-- PyObj.getitem cur1 last_key ;;
        match idx with
        | IdxEnd =>
            match tgt with
            | JList l => PyObj.setitem cur1 last_key (JList (l ++ [value]))
            | _ => Raise AttributeError
            end
        | IdxNum n =>
            len <-- PyObj.len tgt ;;
            if (n <=? len)%nat then
              match tgt with
              | JList l =>
                  PyObj.setitem cur1 last_key (JList (Py.list_insert n value l))
              | _ => Raise AttributeError
              end
            else Ok cur1
        end
    | None => PyObj.setitem current last_key value
    end
  else if String.eqb operation "delete" then
    match last_index with
    | Some idx =>
        present <-- PyObj.contains last_key current ;;
        if present : bool then
          tgt <-- PyObj.getitem current last_key ;;
          match tgt with
          | JList l =>
              match idx with
              | IdxNum n =>
                  if (n <? length l)%nat
                  then PyObj.setitem current last_key (JList (delete n l))
                  else Ok current
              | IdxEnd => Ok current
              end
          | _ => Ok current
          end
        else Ok current
    | None =>
        present <-- PyObj.contains last_key current ;;
        if present : bool then PyObj.delitem current last_key else Ok current
    end
  else Ok current.

(** The loop [for i, (key, index) in enumerate(parts[:-1])] followed by
    [target] at the container it reaches. The Python code mutates the tree
    in place through the reference [current]; here every step returns the
    container it was given, updated, and the caller writes it back. A
    one-character string read out of a string cannot be mutated, so nothing
    is written back for it. *)
Fixpoint navigate (parts : list part) (target : json -> result json)
    (current : json) : result json :=
  match parts with
  | [] => target current
  | (key, idx) :: rest =>
      cur1 <-- ensure_key current key (fresh_container idx) ;;
      match idx with
      | Some IdxEnd => navigate rest target cur1
      | Some (IdxNum n) =>
          container <-- PyObj.getitem cur1 key ;;
          len <-- PyObj.len container ;;
          match container with
          | JList l =>
              let l' :=
                if (n <? len)%nat then l
                else l ++ replicate (S n - len) (JDict ∅) in
              match l' !! n with
              | Some child =>
                  child' <-- navigate rest target child ;;
                  PyObj.setitem cur1 key (JList (<[n := child']> l'))
              | None => Raise IndexError
              end
          | JStr s =>
              if (n <? len)%nat then
                match String.get n s with
                | Some c =>
                    _ <-- navigate rest target (JStr (String c "")) ;;
                    Ok cur1
                | None => Raise IndexError
                end
              else Raise AttributeError
          | _ => if (n <? len)%nat then Raise KeyError else Raise AttributeError
          end
      | None =>
          child <-- PyObj.getitem cur1 key ;;
          child' <-- navigate rest target child ;;
          PyObj.setitem cur1 key child'
      end
  end.

(** [_apply_operation(context, operation, location, value)];
    [parts[-1]] raises [IndexError] on an empty [parts]. *)
Definition _apply_operation (context : json) (operation : string)
    (location : string) (value : json) : result json :=
  match reverse (parse_location location) with
  | [] => Raise IndexError
  | (last_key, last_index) :: rev_init =>
      navigate (reverse rev_init)
        (apply_at_target operation last_key last_index value) context
  end.

Section WithJsonLoads.

(** [json.loads] of the Python standard library: [None] stands for
    [json.JSONDecodeError]. *)
Variable json_loads : string -> option json.

(** The test [parse_block_value] makes on [stripped]. *)
Definition looks_like_json (stripped : string) : bool :=
  (Py.startswith stripped "{" && Py.endswith stripped "}")
  || (Py.startswith stripped "[" && Py.endswith stripped "]").

(** [parse_block_value(block)] *)
Definition parse_block_value (block : json) : json :=
  match block with
  | JStr s =>
      if looks_like_json (Py.strip s) then
        match json_loads s with
        | Some parsed => parsed
        | None => block
        end
      else block
  | _ => block
  end.

(** The loop of [apply_operations], from the value of [context]. *)
Fixpoint apply_operations_from (context : json) (operations : list Operation)
    : result json :=
  match operations with
  | [] => Ok context
  | op :: rest =>
      let parsed_block := parse_block_value (block op) in
      if String.eqb (location op) "root" then
        if PyObj.is_dict parsed_block
        then apply_operations_from parsed_block rest
        else Raise ValueError
      else
        context' <-- _apply_operation context (operation op) (location op)
                       parsed_block ;;
        apply_operations_from context' rest
  end.

(** [previous_context.copy() if previous_context else {}]: only dicts and
    lists have [copy]. *)
Definition initial_context (previous_context : option json) : result json :=
  match previous_context with
  | Some c =>
      if PyObj.truthy c then
        match c with
        | JDict _ | JList _ => Ok c
        | _ => Raise AttributeError
        end
      else Ok (JDict ∅)
  | None => Ok (JDict ∅)
  end.

(** [apply_operations(previous_context, operations)] *)
Definition apply_operations (previous_context : option json)
    (operations : list Operation) : result json :=
  context <-- initial_context previous_context ;;
  apply_operations_from context operations.

End WithJsonLoads.

End ContextExtractor.

(** ** The text patcher, [nodes/code_generator.py] *)

Module CodeGenerator.

(** class [PlantUMLLocation] *)
Record PlantUMLLocation : Type := {
  after_line : string;
  before_line : string
}.

(** [Union[str, PlantUMLLocation]] *)
Inductive location_t : Type :=
  | LocStr (s : string)
  | LocObj (l : PlantUMLLocation).

(** class [PlantUMLOperation] *)
Record PlantUMLOperation : Type := {
  operation : string;
  location : location_t;
  block : string;
  reasoning : string
}.

(** The tail [\)\[(\d+)\]] of the anchor regex tried at [rest]: the
    occurrence [int(match.group(2))] when it matches there. *)
Definition match_occurrence (rest : string) : option nat :=
  match rest with
  | String ")"%char (String "["%char r) =>
      let '(ds, r') := Py.span Py.is_digit r in
      if negb (String.eqb ds "") && Py.startswith r' "]"
      then Some (Py.int_of_digits ds)
      else None
  | _ => None
  end.

(** The lazy group [(.+?)] once it holds [text]: try the tail at [rest],
    and otherwise take one more character, which [.] refuses when it is a
    line break. *)
Fixpoint match_text (text rest : string) : option (string * nat) :=
  match match_occurrence rest with
  | Some occurrence => Some (text, occurrence)
  | None =>
      match rest with
      | "" => None
      | String c rest' =>
          if Ascii.eqb c newline then None
          else match_text (text +:+ String c "") rest'
      end
  end.

(** [re.match(r'\((.+?)\)\[(\d+)\]', pattern)]: groups 1 and 2. *)
Definition match_anchor (pattern : string) : option (string * nat) :=
  match pattern with
  | String "("%char (String c rest) =>
      if Ascii.eqb c newline then None else match_text (String c "") rest
  | _ => None
  end.

(** [_parse_location_pattern(pattern)] *)
Definition _parse_location_pattern (pattern : string) : string * nat :=
  match match_anchor pattern with
  | Some (text, occurrence) => (text, occurrence)
  | None => (pattern, 1%nat)
  end.

(** The test a line undergoes in [_find_line_index]. *)
Definition line_matches (pattern line : string) : bool :=
  if String.eqb pattern "EMPTY_LINE"
  then String.eqb (Py.strip line) ""
  else Py.contains pattern line.

(** The [for i, line in enumerate(lines)] loops of [_find_line_index], from
    line number [i] with [count] matches seen so far. *)
Fixpoint find_from (pattern : string) (occurrence : nat) (lines : list string)
    (i count : nat) : Z :=
  match lines with
  | [] => (-1)%Z
  | line :: rest =>
      if line_matches pattern line then
        if Nat.eqb (S count) occurrence then Z.of_nat i
        else find_from pattern occurrence rest (S i) (S count)
      else find_from pattern occurrence rest (S i) count
  end.

(** [_find_line_index(lines, pattern, occurrence)]; [-1] when not found. *)
Definition _find_line_index (lines : list string) (pattern : string)
    (occurrence : nat) : Z :=
  find_from pattern occurrence lines 0 0.

(** The search loop of the delete branch: the first [i] in
    [range(len(code_lines) - len(block_lines) + 1)] with
    [code_lines[i:i+len(block_lines)] == block_lines]. *)
Definition find_block (code_lines block_lines : list string) : option nat :=
  List.find
    (fun i => bool_decide
                (take (length block_lines) (drop i code_lines) = block_lines))
    (seq 0 (length code_lines + 1 - length block_lines)).

(** [_apply_operation(code, operation, location, block)] *)
Definition _apply_operation (code : string) (operation : string)
    (location : PlantUMLLocation) (block : string) : string :=
  if String.eqb operation "add" then
    let '(after_pattern, after_occurrence) :=
      _parse_location_pattern (after_line location) in
    let '(before_pattern, before_occurrence) :=
      _parse_location_pattern (before_line location) in
    let lines := Py.split newline code in
    let after_idx := _find_line_index lines after_pattern after_occurrence in
    let before_idx := _find_line_index lines before_pattern before_occurrence in
    if (after_idx =? -1)%Z then code +:+ nl +:+ block
    else
      let before_idx :=
        if (before_idx =? -1)%Z then Z.of_nat (length lines) else before_idx in
      let insertion_idx := (after_idx + 1)%Z in
      Py.join nl (Py.list_insert (Z.to_nat insertion_idx) block lines)
  else if String.eqb operation "delete" then
    let block_lines := Py.split newline block in
    let code_lines := Py.split newline code in
    match find_block code_lines block_lines with
    | Some i =>
        Py.join nl (take i code_lines ++ drop (i + length block_lines) code_lines)
    | None => code
    end
  else code.

(** The loop of [apply_operations], from the value of [code]. A string
    location other than ["root"] raises [ValueError]; the branch for a
    location that is still a [dict] cannot be reached from a validated
    [PlantUMLOperation], whose location is a string or a [PlantUMLLocation]. *)
Fixpoint apply_operations_from (code : string)
    (operations : list PlantUMLOperation) : result string :=
  match operations with
  | [] => Ok code
  | op :: rest =>
      match location op with
      | LocStr s =>
          if String.eqb s "root" then apply_operations_from (block op) rest
          else Raise ValueError
      | LocObj l =>
          apply_operations_from
            (_apply_operation code (operation op) l (block op)) rest
      end
  end.

(** [apply_operations(previous_code, operations)];
    [code = previous_code if previous_code else ""]. *)
Definition apply_operations (previous_code : option string)
    (operations : list PlantUMLOperation) : result string :=
  apply_operations_from (default "" previous_code) operations.

End CodeGenerator.

(** ** The retry decorator, [utils/decorators.py] *)

Module Decorators.

(** What the wrapper prints, one event per [print]. *)
Inductive event (X : Type) : Type :=
  | EvAttempt (attempt max_retries : Z)
  | EvValidationPassed (attempt : Z)
  | EvValidatorNotFound
  | EvCompleted (attempt : Z)
  | EvAttemptFailed (attempt : Z) (e : X)
  | EvRetrying
  | EvExhausted (max_retries : Z).
Arguments EvAttempt {X}.
Arguments EvValidationPassed {X}.
Arguments EvValidatorNotFound {X}.
Arguments EvCompleted {X}.
Arguments EvAttemptFailed {X}.
Arguments EvRetrying {X}.
Arguments EvExhausted {X}.

(** What [except Exception as e] catches in the wrapper: an exception [E]
    of the method or of the validator, or the wrapper's own
    [ValueError(f"Validation failed: {error_msg}")]. *)
Inductive raised (E : Type) : Type :=
  | FromCall (e : E)
  | ValidationFailed (error_msg : string).
Arguments FromCall {E} e.
Arguments ValidationFailed {E} error_msg.

(** The three cases of [if validation_method:] / [hasattr]; a validator
    acts on the world [W], returns [(is_valid, error_msg)] or raises. *)
Inductive validation (W R E : Type) : Type :=
  | NoValidation
  | ValidatorNotFound
  | Validator (validator : R -> W -> W * (E + bool * string)).
Arguments NoValidation {W R E}.
Arguments ValidatorNotFound {W R E}.
Arguments Validator {W R E} validator.

(** What the wrapper printed, in order. *)
Definition log (E : Type) : Type := list (event (raised E)).

(** The exception caught last, or the validation reason recorded last,
    once the loop went through [l], given what it was before. *)
Definition last_or {A : Type} (before : option A) (l : list A) : option A :=
  match last l with
  | Some x => Some x
  | None => before
  end.

Section Retry.

(** [W]: the state of the world the decorated method and the validator
    act on; [R]: the value the method returns; [E]: the exceptions they
    raise. *)
Context {W R E : Type}.

(** [str(e)] *)
Variable exn_str : E -> string.

Definition raised_str (e : raised E) : string :=
  match e with
  | FromCall e => exn_str e
  | ValidationFailed error_msg => "Validation failed: " +:+ error_msg
  end.

Variable name : string.
Variable max_retries : Z.
Variable validation_method : validation W R E.
Variable func : W -> W * (E + R).

(** The body of [try:] for one [attempt]: the method, then the validator.
    [inl] is the exception that reaches [except]. *)
Definition try_body (attempt : Z) (w : W) : W * log E * (raised E + R) :=
  match func w with
  | (w1, inl e) => (w1, [], inl (FromCall e))
  | (w1, inr result_state) =>
      match validation_method with
      | Validator validator =>
          match validator result_state w1 with
          | (w2, inl e) => (w2, [], inl (FromCall e))
          | (w2, inr (is_valid, error_msg)) =>
              if is_valid : bool
              then (w2, [EvValidationPassed attempt], inr result_state)
              else (w2, [], inl (ValidationFailed error_msg))
          end
      | ValidatorNotFound => (w1, [EvValidatorNotFound], inr result_state)
      | NoValidation => (w1, [EvCompleted attempt], inr result_state)
      end
  end.

(** [str(last_error)]; [last_error] starts as [None]. *)
Definition last_error_str (last_error : option (raised E)) : string :=
  match last_error with
  | Some e => raised_str e
  | None => "None"
  end.

(** The message of the final [RuntimeError]. *)
Definition exhausted_message (last_error : option (raised E))
    (last_validation_error : option string) : string :=
  let error_details := "Last error: " +:+ last_error_str last_error in
  let error_details :=
    match last_validation_error with
    | Some msg =>
        if String.eqb msg "" then error_details
        else error_details +:+ " | Validation error: " +:+ msg
    | None => error_details
    end in
  "[" +:+ name +:+ "] Failed after " +:+ pretty max_retries
      +:+ " attempts. " +:+ error_details.

(** [last_validation_error = error_msg] runs exactly when the wrapper
    raises its own [ValueError]. *)
Definition record_validation (e : raised E) (last_validation_error : option string)
    : option string :=
  match e with
  | ValidationFailed error_msg => Some error_msg
  | FromCall _ => last_validation_error
  end.

(** The loop [for attempt in range(1, max_retries + 1)] over the attempts
    that remain, and the [raise RuntimeError] after it. The result is the
    world, what was printed, and the message of the [RuntimeError] or the
    returned value. *)
Fixpoint attempts (remaining : list Z) (last_error : option (raised E))
    (last_validation_error : option string) (w : W) (out : log E)
    : W * log E * (string + R) :=
  match remaining with
  | [] => (w, out, inl (exhausted_message last_error last_validation_error))
  | attempt :: rest =>
      match try_body attempt w with
      | (w', printed, inr result_state) =>
          (w', out ++ EvAttempt attempt max_retries :: printed,
           inr result_state)
      | (w', printed, inl e) =>
          attempts rest (Some e) (record_validation e last_validation_error) w'
            (out ++ EvAttempt attempt max_retries :: printed
                 ++ [EvAttemptFailed attempt e;
                     if (attempt <? max_retries)%Z then EvRetrying
                     else EvExhausted max_retries])
      end
  end.

(** [wrapper(self, state)] of [retry_on_failure(max_retries,
    validation_method)(func)]. *)
Definition wrapper (w : W) : W * log E * (string + R) :=
  attempts (seqZ 1 max_retries) None None w [].

(** Successive attempts that all end in [except]: the world they leave
    and the exceptions caught, in order; [None] as soon as one of them
    returns a value. *)
Fixpoint run_failing (remaining : list Z) (w : W)
    : option (W * list (raised E)) :=
  match remaining with
  | [] => Some (w, [])
  | attempt :: rest =>
      match try_body attempt w with
      | (w', _, inl e) =>
          match run_failing rest w' with
          | Some (w'', errs) => Some (w'', e :: errs)
          | None => None
          end
      | (_, _, inr _) => None
      end
  end.

(** The reasons of the validation failures among the exceptions caught. *)
End Retry.

(** [retry_on_failure(max_retries, validation_method)(func)]: the decorated
    method is the wrapper; [name] is [self.name] and [exn_str] is [str]. *)
Definition retry_on_failure {W R E : Type} (exn_str : E -> string)
    (name : string) (max_retries : Z) (validation_method : validation W R E)
    (func : W -> W * (E + R)) : W -> W * log E * (string + R) :=
  wrapper exn_str name max_retries validation_method func.

(** The reasons of the validation failures among the exceptions caught. *)
Definition validation_reasons {E : Type} (errs : list (raised E)) : list string :=
  omap (fun e => match e with
                 | ValidationFailed error_msg => Some error_msg
                 | FromCall _ => None
                 end) errs.

Definition is_attempt_event {X : Type} (ev : event X) : bool :=
  match ev with
  | EvAttempt _ _ => true
  | _ => false
  end.

(** How many times the wrapper printed that it starts an attempt. *)
Definition attempts_started {X : Type} (out : list (event X)) : nat :=
  length (List.filter is_attempt_event out).

End Decorators.

(** ** The version ledger, [utils/db_utils.py] and [driver.py] *)

Module Ledger.

(** enum [DiagramType] of [utils/dataclasses.py] *)
Inductive DiagramType : Type :=
  | CLASS | SEQUENCE | COMPONENT | ACTIVITY | STATE
  | USECASE | DEPLOYMENT | PACKAGE | OBJECT | TIMING.

#[global] Instance DiagramType_eq_dec : EqDecision DiagramType.
Proof. solve_decision. Defined.

(** [diagram_type.value] *)
Definition value (t : DiagramType) : string :=
  match t with
  | CLASS => "class"
  | SEQUENCE => "sequence"
  | COMPONENT => "component"
  | ACTIVITY => "activity"
  | STATE => "state"
  | USECASE => "usecase"
  | DEPLOYMENT => "deployment"
  | PACKAGE => "package"
  | OBJECT => "object"
  | TIMING => "timing"
  end.

(** A record of [diagrams.json], with the fields the versioning reads and
    writes and the three file paths; [created_timestamp], [user_feedback]
    and [feedback_rating] play no part in it and are left out. *)
Record diagram_record : Type := {
  diagram_id : string;
  parent_diagram_id : option string;
  version : nat;
  user_id : string;
  thread_id : string;
  message_id : string;
  diagram_type : string;
  context_file_path : option string;
  plantuml_code_file_path : option string;
  diagram_png_file_path : option string
}.

(** The content of [diagrams.json]: what [_load_diagrams] returns and
    [_save_diagrams] replaces. *)
Definition db : Type := list diagram_record.

(** The filter of [get_latest_diagram] and [get_diagram_versions]. *)
Definition matches (user thread dtype : string) (d : diagram_record) : bool :=
  String.eqb (user_id d) user && String.eqb (thread_id d) thread
  && String.eqb (diagram_type d) dtype.

(** [matching_diagrams]: the chain of a key, in the order of the file. *)
Definition matching_diagrams (diagrams : db) (user thread dtype : string)
    : list diagram_record :=
  List.filter (matches user thread dtype) diagrams.

(** [l.sort(key=lambda x: x["version"], reverse=True)]: a stable sort,
    records of equal version keep their order. *)
Fixpoint insert_desc (x : diagram_record) (sorted : list diagram_record)
    : list diagram_record :=
  match sorted with
  | [] => [x]
  | y :: sorted' =>
      if (version x <? version y)%nat then y :: insert_desc x sorted'
      else x :: sorted
  end.

Definition sort_by_version_desc (l : list diagram_record) : list diagram_record :=
  foldr insert_desc [] l.

(** [get_latest_diagram(user_id, thread_id, diagram_type)] on the content
    of the file. *)
Definition get_latest_diagram (diagrams : db) (user thread dtype : string)
    : option diagram_record :=
  head (sort_by_version_desc (matching_diagrams diagrams user thread dtype)).

(** [_generate_diagram_id] of [driver.py] *)
Definition _generate_diagram_id (user thread message dtype : string) : string :=
  user +:+ "_" +:+ thread +:+ "_" +:+ message +:+ "_" +:+ dtype.

(** The paths a [DiagramState] holds when the nodes and the renderer are
    done with a diagram type. *)
Record DiagramState : Type := {
  st_context_file_path : option string;
  st_plantuml_code_file_path : option string;
  st_diagram_png_file_path : option string
}.

(** The blocks [# VERSIONING] and [# PREPARE DB RECORD] of [run_driver] for
    one diagram type: the record appended to [diagram_records]. The file is
    read, not written, at this point. *)
Definition prepare_record (diagrams : db) (user thread message : string)
    (dtype : DiagramType) (st : DiagramState) : diagram_record :=
  let latest_diagram := get_latest_diagram diagrams user thread (value dtype) in
  let '(new_version, parent) :=
    match latest_diagram with
    | Some latest => ((version latest + 1)%nat, Some (diagram_id latest))
    | None => (1%nat, None)
    end in
  {| diagram_id := _generate_diagram_id user thread message (value dtype);
     parent_diagram_id := parent;
     version := new_version;
     user_id := user;
     thread_id := thread;
     message_id := message;
     diagram_type := value dtype;
     context_file_path := st_context_file_path st;
     plantuml_code_file_path := st_plantuml_code_file_path st;
     diagram_png_file_path := st_diagram_png_file_path st |}.

(** [add_diagram] called on the fields of a record: load, append, save. *)
Definition add_diagram (diagrams : db) (r : diagram_record) : db :=
  diagrams ++ [r].

(** The diagram part of [update_after_run(message_id, diagram_records)]. *)
Definition update_after_run (diagrams : db) (diagram_records : list diagram_record)
    : db :=
  foldl add_diagram diagrams diagram_records.

(** The arguments of one call of [run_driver], with the state the nodes
    leave for each diagram type. *)
Record run : Type := {
  run_user_id : string;
  run_thread_id : string;
  run_message_id : string;
  run_diagram_types : list DiagramType;
  run_state : DiagramType -> DiagramState
}.

(** [if not diagram_types: diagram_types = [DiagramType.CLASS]] *)
Definition effective_types (r : run) : list DiagramType :=
  match run_diagram_types r with
  | [] => [CLASS]
  | ts => ts
  end.

(** What a completed [run_driver] does to [diagrams.json]: every diagram
    type of the run is versioned against the file as it was when the run
    began, and the records are written at the end. *)
Definition run_driver (diagrams : db) (r : run) : db :=
  let diagram_records :=
    map (fun dtype =>
           prepare_record diagrams (run_user_id r) (run_thread_id r)
             (run_message_id r) dtype (run_state r dtype))
        (effective_types r) in
  update_after_run diagrams diagram_records.

(** Successive runs. *)
Definition run_all (diagrams : db) (runs : list run) : db :=
  foldl run_driver diagrams runs.

(** The diagrams of a key are well chained: in the order of the file their
    versions are 1, 2, ..., the first has no parent and every other one has
    the one before it as parent. *)
Definition well_chained (chain : list diagram_record) : Prop :=
  forall (i : nat) (rec : diagram_record),
    chain !! i = Some rec ->
    version rec = S i
    /\ parent_diagram_id rec
       = match i with
         | O => None
         | S j => diagram_id <$> chain !! j
         end.

(** A run commits under the key [(user, thread, dtype)]. *)
Definition commits_under (user thread dtype : string) (r : run) : bool :=
  String.eqb (run_user_id r) user && String.eqb (run_thread_id r) thread
  && existsb (fun t => String.eqb (value t) dtype) (effective_types r).

(** A run that commits under the key names the diagram type of the key
    once: it commits one artifact under the key. *)
Definition commits_once (user thread dtype : string) (r : run) : Prop :=
  commits_under user thread dtype r = true ->
  length (List.filter (fun t => String.eqb (value t) dtype) (effective_types r))
  = 1%nat.

End Ledger.


(** ** Vocabulary of the statements *)

Module Spec.

(** [s] occurs literally in [line]. *)
Definition occurs_in (s line : string) : Prop :=
  exists pre post, line = pre +:+ s +:+ post.

(** A stripped payload that starts and ends with matching braces or with
    matching square brackets. *)
Definition json_shaped (t : string) : Prop :=
  (exists mid, t = "{" +:+ mid +:+ "}") \/ (exists mid, t = "[" +:+ mid +:+ "]").

Definition not_dot (c : ascii) : bool := negb (Ascii.eqb c "."%char).

(** What may follow the key of a path token: [[N]] with [N] a non-empty run
    of decimal digits, or [[end]], and then anything. *)
Definition index_suffix (rest : string) : Prop :=
  (exists ds tail, rest = "[" +:+ ds +:+ "]" +:+ tail
                   /\ ds <> "" /\ Py.all_chars Py.is_digit ds = true)
  \/ (exists tail, rest = "[end]" +:+ tail).

Definition not_newline (c : ascii) : bool := negb (Ascii.eqb c newline).

(** An anchor that begins with [(text)[n]]: [text] is not empty and has no
    line break, [n] is a non-empty run of decimal digits. *)
Definition anchor_prefix (s text ds : string) : Prop :=
  exists tail, s = "(" +:+ text +:+ ")[" +:+ ds +:+ "]" +:+ tail
               /\ text <> "" /\ Py.all_chars not_newline text = true
               /\ ds <> "" /\ Py.all_chars Py.is_digit ds = true.

(** The number of lines an anchor pattern matches. *)
Definition count_matches (pattern : string) (lines : list string) : nat :=
  length (List.filter (CodeGenerator.line_matches pattern) lines).

(** [block_lines] occurs in [code_lines] as a contiguous run of lines. *)
Definition block_occurs (block_lines code_lines : list string) : Prop :=
  exists pre post, code_lines = pre ++ block_lines ++ post.

(** The container the navigation steps [parts] lead to in [d] when every
    step finds what it names: a key step a key that is there, a [key[N]]
    step a list at the key that has an element [N]. [None] when a step
    would create or pad a container, or is a [key[end]] step. *)
Fixpoint resolve (parts : list ContextExtractor.part) (d : json) : option json :=
  match parts with
  | [] => Some d
  | (key, None) :: rest =>
      match d with
      | JDict m => child ← m !! key; resolve rest child
      | _ => None
      end
  | (key, Some (ContextExtractor.IdxNum n)) :: rest =>
      match d with
      | JDict m =>
          match m !! key with
          | Some (JList l) => child ← l !! n; resolve rest child
          | _ => None
          end
      | _ => None
      end
  | (key, Some ContextExtractor.IdxEnd) :: rest => None
  end.

(** *** Sample data *)

(** The document [{"a": [{"b": [1]}]}]. *)
Definition nested_doc : json :=
  JDict {["a" := JList [JDict {["b" := JList [JNum 1]]}]]}.

(** Scenario A of the specification: the payload [{"a": [1]}]. *)
Definition scenario_a : json := JDict {["a" := JList [JNum 1]]}.

(** An add located at [root]. *)
Definition root_op (payload : json) : ContextExtractor.Operation :=
  {| ContextExtractor.operation := "add";
     ContextExtractor.location := "root";
     ContextExtractor.block := payload;
     ContextExtractor.reasoning := "" |}.

(** Scenario C of the specification: the four lines of a class diagram. *)
Definition scenario_c : string :=
  "@startuml" +:+ nl +:+ "class A {" +:+ nl +:+ "}" +:+ nl +:+ "@enduml".

(** A stand-in for [json.loads] that knows two documents. *)
Definition toy_loads (s : string) : option json :=
  if String.eqb s " {} " then Some (JDict ∅)
  else if String.eqb s "[]" then Some (JList [])
  else None.

(** Three runs of the driver: two for the conversation [t] of user [u],
    with one for another user in between. *)
Definition no_paths (t : Ledger.DiagramType) : Ledger.DiagramState :=
  {| Ledger.st_context_file_path := None;
     Ledger.st_plantuml_code_file_path := None;
     Ledger.st_diagram_png_file_path := None |}.

Definition sample_runs : list Ledger.run :=
  [ {| Ledger.run_user_id := "u"; Ledger.run_thread_id := "t";
       Ledger.run_message_id := "m1"; Ledger.run_diagram_types := [];
       Ledger.run_state := no_paths |};
    {| Ledger.run_user_id := "v"; Ledger.run_thread_id := "t";
       Ledger.run_message_id := "m2";
       Ledger.run_diagram_types := [Ledger.CLASS];
       Ledger.run_state := no_paths |};
    {| Ledger.run_user_id := "u"; Ledger.run_thread_id := "t";
       Ledger.run_message_id := "m3";
       Ledger.run_diagram_types := [Ledger.SEQUENCE; Ledger.CLASS];
       Ledger.run_state := no_paths |} ].

(** A text operation located at the root or at a pair of anchors. *)
Definition well_located (op : CodeGenerator.PlantUMLOperation) : Prop :=
  match CodeGenerator.location op with
  | CodeGenerator.LocStr s => s = "root"
  | CodeGenerator.LocObj _ => True
  end.

End Spec.

(** ** Vocabulary of the further properties *)

Module PathSpec.

(** No navigation step of [parts] is a [key[end]] step. *)
Definition no_end_steps (parts : list ContextExtractor.part) : bool :=
  forallb (fun p : ContextExtractor.part =>
             match p.2 with
             | Some ContextExtractor.IdxEnd => false
             | _ => true
             end) parts.

(** A token no step comes from: empty, or starting with a bracket. *)
Definition keyless (token : string) : Prop :=
  token = "" \/ Py.startswith token "[" = true.

(** The list an add with an index works on: the one the key holds, or the
    empty one the add creates when the key is not there. *)
Definition list_at (tm : gmap string json) (key : string) (l : list json) : Prop :=
  match tm !! key with
  | Some c => c = JList l
  | None => l = []
  end.

End PathSpec.

(** ** The written form of a path *)

Module PathSyntax.

(** A step as the location format writes it: [key], [key[N]] with [N] in
    decimal, [key[end]]. *)
Definition show_part (p : ContextExtractor.part) : string :=
  match p with
  | (key, None) => key
  | (key, Some ContextExtractor.IdxEnd) => key +:+ "[end]"
  | (key, Some (ContextExtractor.IdxNum n)) => key +:+ "[" +:+ pretty n +:+ "]"
  end.

(** A path as the location format writes it: its steps joined by dots. *)
Definition show_path (parts : list ContextExtractor.part) : string :=
  Py.join "." (map show_part parts).

(** A key that can be written in a location: not empty, without bracket
    and without dot. *)
Definition plain_key (key : string) : bool :=
  negb (String.eqb key "")
  && Py.all_chars (fun c => ContextExtractor.not_open_bracket c && Spec.not_dot c) key.

End PathSyntax.

(** ** Vocabulary for the text patcher *)

Module TextSpec.

(** [code_lines[i:i+len(block_lines)] == block_lines]: the lines of the
    block are the run of lines of the code that starts at line [i]. *)
Definition block_at (block_lines code_lines : list string) (i : nat) : Prop :=
  take (length block_lines) (drop i code_lines) = block_lines.

(** A text operation located at a string that is not ["root"]. *)
Definition ill_located (op : CodeGenerator.PlantUMLOperation) : bool :=
  match CodeGenerator.location op with
  | CodeGenerator.LocStr s => negb (String.eqb s "root")
  | CodeGenerator.LocObj _ => false
  end.

End TextSpec.

(** ** [list.sort(key=...)] *)

Module PySort.

Section Sort.

(** [ltb] is [<] on the keys. *)
Context {A K : Type}.
Variable ltb : K -> K -> bool.
Variable key : A -> K.

(** [x] goes before the first element whose key is not below its own. *)
Fixpoint insert (x : A) (sorted : list A) : list A :=
  match sorted with
  | [] => [x]
  | y :: sorted' =>
      if ltb (key y) (key x) then y :: insert x sorted'
      else x :: sorted
  end.

(** [l.sort(key=key)]: ascending and stable, elements of equal key keep
    their order. *)
Definition sort (l : list A) : list A := foldr insert [] l.

(** Every element has a key that is not above the keys of those after
    it. *)
Fixpoint sorted (l : list A) : Prop :=
  match l with
  | [] => True
  | x :: l' => Forall (fun y => ltb (key y) (key x) = false) l' /\ sorted l'
  end.

(** No element comes before one of smaller key. *)
Definition ascending (l : list A) : Prop :=
  forall (i j : nat) (x y : A),
    (i < j)%nat -> l !! i = Some x -> l !! j = Some y ->
    ltb (key y) (key x) = false.

End Sort.

End PySort.

(** ** Reading [diagrams.json], [utils/db_utils.py] *)

Module LedgerQueries.
Import Ledger.

(** [get_diagram_versions(user_id, thread_id, diagram_type)] on the content
    of the file. *)
Definition get_diagram_versions (diagrams : db) (user thread dtype : string)
    : list diagram_record :=
  PySort.sort Nat.ltb version (matching_diagrams diagrams user thread dtype).

(** [_infer_version(state)] of [ContextExtractor], for the current diagram
    type. *)
Definition _infer_version (diagrams : db) (user thread : string)
    (current_diagram_type : DiagramType) : nat :=
  match get_latest_diagram diagrams user thread (value current_diagram_type) with
  | None => 1
  | Some latest => version latest + 1
  end.

(** The records of [l] of version [v], in the order of [l]. *)
Definition of_version (v : nat) (l : list diagram_record) : list diagram_record :=
  List.filter (fun d => Nat.eqb (version d) v) l.

(** A run names the diagram type [t] more than once. *)
Definition names_twice (r : run) (t : DiagramType) : Prop :=
  (2 <= length (List.filter (fun t' => bool_decide (t' = t)) (effective_types r)))%nat.

(** A run that asks for the class diagram twice. *)
Definition twice_run : run :=
  {| run_user_id := "u"; run_thread_id := "t"; run_message_id := "m1";
     run_diagram_types := [CLASS; CLASS];
     run_state := Spec.no_paths |}.

End LedgerQueries.

(** ** [messages.json], [utils/db_utils.py], and the ids of [api/main.py] *)

Module Messages.

(** A record of [messages.json]. *)
Record message_record : Type := {
  user_id : string;
  thread_id : string;
  message_id : string;
  parent_message_id : option string;
  prompt : string;
  user_files_directory_path : option string;
  diagram_ids : list string;
  created_timestamp : string;
  completed_timestamp : option string
}.

(** The content of [messages.json]: what [_load_messages] returns and
    [_save_messages] replaces. *)
Definition db : Type := list message_record.

(** [add_message(...)]: load, append, save; [now] is
    [datetime.now().isoformat()]. The new content and the record
    returned. *)
Definition add_message (messages : db) (user thread message prompt_ : string)
    (parent : option string) (files : option string)
    (ids : option (list string)) (now : string) : db * message_record :=
  let message_record :=
    {| user_id := user;
       thread_id := thread;
       message_id := message;
       parent_message_id := parent;
       prompt := prompt_;
       user_files_directory_path := files;
       diagram_ids := default [] ids;
       created_timestamp := now;
       completed_timestamp := None |} in
  (messages ++ [message_record], message_record).

(** [get_message(message_id)] *)
Definition get_message (messages : db) (id : string) : option message_record :=
  List.find (fun m => String.eqb (message_id m) id) messages.

(** The two assignments of [update_message] on the message found. *)
Definition updated (ids : option (list string)) (completed : option string)
    (m : message_record) : message_record :=
  {| user_id := user_id m;
     thread_id := thread_id m;
     message_id := message_id m;
     parent_message_id := parent_message_id m;
     prompt := prompt m;
     user_files_directory_path := user_files_directory_path m;
     diagram_ids := default (diagram_ids m) ids;
     created_timestamp := created_timestamp m;
     completed_timestamp :=
       match completed with
       | Some ts => Some ts
       | None => completed_timestamp m
       end |}.

(** [update_message(message_id, diagram_ids, completed_timestamp)]: the
    new content and the boolean returned. The file is written only when a
    message is found. *)
Fixpoint update_message (messages : db) (id : string)
    (ids : option (list string)) (completed : option string) : db * bool :=
  match messages with
  | [] => ([], false)
  | m :: rest =>
      if String.eqb (message_id m) id then (updated ids completed m :: rest, true)
      else
        let '(rest', found) := update_message rest id ids completed in
        (m :: rest', found)
  end.

(** [get_thread_messages(thread_id)] *)
Definition get_thread_messages (messages : db) (thread : string)
    : list message_record :=
  PySort.sort String.ltb created_timestamp
    (List.filter (fun msg => String.eqb (thread_id msg) thread) messages).

(** [thread_exists(thread_id)] *)
Definition thread_exists (messages : db) (thread : string) : bool :=
  existsb (fun m => String.eqb (thread_id m) thread) messages.

(** [get_user_threads(user_id)]: the sorted list of a set. *)
Definition get_user_threads (messages : db) (user : string) : list string :=
  PySort.sort String.ltb (fun t => t)
    (remove_dups
       (map thread_id
          (List.filter (fun m => String.eqb (user_id m) user) messages))).

(** ["0" * n] *)
Fixpoint zeros (n : nat) : string :=
  match n with
  | O => ""
  | S n' => String "0"%char (zeros n')
  end.

(** [s.zfill(width)] for a string without sign. *)
Definition zfill (width : nat) (s : string) : string :=
  zeros (width - String.length s) +:+ s.

(** [_generate_message_id(thread_id)] of [api/main.py] *)
Definition _generate_message_id (messages : db) (thread : string) : string :=
  let msgs := get_thread_messages messages thread in
  let next_id := (length msgs + 1)%nat in
  "msg_" +:+ zfill 3 (pretty next_id).

Definition USER_ID : string := "user_001".

(** Steps 1 and 2 of [run_driver]: the parent is the last message of the
    thread, and the message is added. *)
Definition driver_begin (messages : db) (user thread message prompt_ : string)
    (files : option string) (now : string) : db :=
  let thread_messages := get_thread_messages messages thread in
  let parent := message_id <$> last thread_messages in
  (add_message messages user thread message prompt_ parent files None now).1.

(** The message part of [update_after_run(message_id, diagram_records)]. *)
Definition update_after_run (messages : db) (message : string)
    (diagram_records : list Ledger.diagram_record) (now : string) : db :=
  (update_message messages message
     (Some (map Ledger.diagram_id diagram_records)) (Some now)).1.

(** What a request to [/run-stream] does to [messages.json] when the
    driver runs to its end: the message id is generated, the driver adds the
    message at time [started] and completes it at time [completed] with the
    ids of the records it wrote. *)
Definition run_pipeline_stream (messages : db) (thread prompt_ : string)
    (files : option string) (diagram_records : list Ledger.diagram_record)
    (started completed : string) : db :=
  let message := _generate_message_id messages thread in
  let messages1 :=
    driver_begin messages USER_ID thread message prompt_ files started in
  update_after_run messages1 message diagram_records completed.

(** The messages of a thread, in the order of the file. *)
Definition of_thread (thread : string) (messages : db) : list message_record :=
  List.filter (fun msg => String.eqb (thread_id msg) thread) messages.

(** *** Sample data *)

(** The message of a first request, on the thread [thread_001], once the
    driver has completed it. *)
Definition first_message : message_record :=
  {| user_id := USER_ID;
     thread_id := "thread_001";
     message_id := "msg_001";
     parent_message_id := None;
     prompt := "draw";
     user_files_directory_path := None;
     diagram_ids := [];
     created_timestamp := "2024-01-01T10:00:00";
     completed_timestamp := Some "2024-01-01T10:01:00" |}.

(** A second message of the same thread, and one of another user on
    another thread. *)
Definition second_message : message_record :=
  {| user_id := USER_ID;
     thread_id := "thread_001";
     message_id := "msg_002";
     parent_message_id := Some "msg_001";
     prompt := "add a class";
     user_files_directory_path := None;
     diagram_ids := [];
     created_timestamp := "2024-01-01T10:05:00";
     completed_timestamp := None |}.

Definition other_message : message_record :=
  {| user_id := "user_002";
     thread_id := "thread_002";
     message_id := "msg_001";
     parent_message_id := None;
     prompt := "draw";
     user_files_directory_path := None;
     diagram_ids := [];
     created_timestamp := "2024-01-01T10:03:00";
     completed_timestamp := None |}.

End Messages.

(** ** Validation of the generated code, [nodes/code_generator.py] *)

Module CodeValidation.

(** [s.find(p)]: the index of the first occurrence, [-1] when there is
    none. *)
Fixpoint find (p s : string) : Z :=
  if String.prefix p s then 0%Z
  else match s with
       | "" => (-1)%Z
       | String _ s' =>
           let r := find p s' in
           if (r =? -1)%Z then (-1)%Z else (r + 1)%Z
       end.

(** [s[i:j]] for indices that are not negative. *)
Definition slice (s : string) (i j : Z) : string :=
  String.substring (Z.to_nat i) (Z.to_nat (j - i)) s.

(** The checks of [validate_output] on the code loaded from the file. *)
Definition validate_code (code : string) : bool * string :=
  if String.eqb code "" then (false, "PlantUML code is empty")
  else
    let code := Py.strip code in
    if negb (Py.contains "@startuml" code) then (false, "Missing @startuml tag")
    else if negb (Py.contains "@enduml" code) then (false, "Missing @enduml tag")
    else
      let start_pos := find "@startuml" code in
      let end_pos := find "@enduml" code in
      if (start_pos >=? end_pos)%Z
      then (false, "@startuml must come before @enduml")
      else
        let content := Py.strip (slice code (start_pos + 9) end_pos) in
        if String.eqb content ""
        then (false, "Empty diagram content between tags")
        else (true, "").

(** [validate_output(state)] of [CodeGenerator], on the diagram state of
    the current diagram type and the files that exist, with their
    content. *)
Definition validate_output (files : gmap string string)
    (diagram_state : option Ledger.DiagramState) : bool * string :=
  match diagram_state with
  | None => (false, "No diagram state found")
  | Some ds =>
      match Ledger.st_plantuml_code_file_path ds with
      | None => (false, "No PlantUML code file path found")
      | Some code_file_path =>
          if String.eqb code_file_path ""
          then (false, "No PlantUML code file path found")
          else
            match files !! code_file_path with
            | None =>
                (false, "Code file does not exist: " +:+ code_file_path)
            | Some code => validate_code code
            end
      end
  end.

(** [pre] is what comes before the first occurrence of [p] in [s]. *)
Definition first_at (p s pre : string) : Prop :=
  (exists post, s = pre +:+ p +:+ post)
  /\ forall pre' post',
       s = pre' +:+ p +:+ post' -> (String.length pre <= String.length pre')%nat.

End CodeValidation.

(** * Properties *)

(** ** Strings *)

Module PyFacts.

Lemma app_empty (s : string) : "" +:+ s = s.
Proof. reflexivity. Qed.

Lemma app_String (c : ascii) (a b : string) :
  String c a +:+ b = String c (a +:+ b).
Proof. reflexivity. Qed.

(** Pushing an append of literals through the characters it starts with. *)
Create Rewrite HintDb pystr.
#[export] Hint Rewrite app_empty app_String : pystr.

Lemma app_empty_r (s : string) : s +:+ "" = s.
Proof. induction s as [|c s IH]; [reflexivity|]. by rewrite app_String, IH. Qed.

Lemma app_assoc (a b c : string) : (a +:+ b) +:+ c = a +:+ b +:+ c.
Proof.
  induction a as [|x a IH]; [reflexivity|]. by rewrite !app_String, IH.
Qed.

Lemma eqb_true (a b : string) : String.eqb a b = true <-> a = b.
Proof. apply String.eqb_eq. Qed.

Lemma prefix_empty (s : string) : String.prefix "" s = true.
Proof. by destruct s. Qed.

Lemma prefix_String (c d : ascii) (p s : string) :
  String.prefix (String c p) (String d s)
  = if ascii_dec c d then String.prefix p s else false.
Proof. reflexivity. Qed.

(** [String.prefix p s] says that [s] begins with [p]. *)
Lemma prefix_true (p s : string) :
  String.prefix p s = true <-> exists post, s = p +:+ post.
Proof.
  revert s. induction p as [|c p IH]; intros s.
  - rewrite prefix_empty. split; [intros _; by exists s | done].
  - destruct s as [|d s].
    + split; [done | by intros [post H]].
    + rewrite prefix_String. destruct (ascii_dec c d) as [->|Hne].
      * rewrite IH. split; intros [post H]; exists post.
        -- by rewrite app_String, <- H.
        -- rewrite app_String in H. by injection H.
      * split; [done|]. intros [post H]. rewrite app_String in H.
        injection H as H1 _. congruence.
Qed.

(** [Py.contains p s] says that [p] occurs in [s]. *)
Lemma contains_true (p s : string) :
  Py.contains p s = true <-> exists pre post, s = pre +:+ p +:+ post.
Proof.
  induction s as [|c s IH].
  - change (Py.contains p "") with (String.prefix p "" || false).
    rewrite orb_true_iff, prefix_true. split.
    + intros [[post H]|H]; [|done]. by exists "", post.
    + intros (pre & post & H). left. destruct pre as [|x pre]; [|done].
      by exists post.
  - change (Py.contains p (String c s))
      with (String.prefix p (String c s) || Py.contains p s).
    rewrite orb_true_iff, prefix_true, IH. split.
    + intros [[post H]|(pre & post & H)].
      * by exists "", post.
      * exists (String c pre), post. by rewrite app_String, <- H.
    + intros (pre & post & H). destruct pre as [|x pre].
      * left. by exists post.
      * right. rewrite app_String in H. injection H as _ H.
        by exists pre, post.
Qed.

(** [Py.endswith s p] says that [s] ends with [p]. *)
Lemma endswith_true (s p : string) :
  Py.endswith s p = true <-> exists pre, s = pre +:+ p.
Proof.
  induction s as [|c s IH].
  - change (Py.endswith "" p) with (String.eqb "" p || false).
    rewrite orb_true_iff, eqb_true. split.
    + intros [<-|H]; [by exists "" | done].
    + intros [pre H]. left. destruct pre as [|x pre]; [done|].
      rewrite app_String in H. done.
  - change (Py.endswith (String c s) p)
      with (String.eqb (String c s) p || Py.endswith s p).
    rewrite orb_true_iff, eqb_true, IH. split.
    + intros [<-|[pre ->]]; [by exists ""|]. by exists (String c pre).
    + intros [pre H]. destruct pre as [|x pre].
      * left. done.
      * right. rewrite app_String in H. injection H as _ H. by exists pre.
Qed.

(** A string that starts with [a] and ends with a different character [b]
    is [a], something, [b]. *)
Lemma bracketed (a b : ascii) (t : string) :
  a <> b ->
  Py.startswith t (String a "") && Py.endswith t (String b "") = true
  <-> exists mid, t = String a "" +:+ mid +:+ String b "".
Proof.
  intros Hab. unfold Py.startswith.
  rewrite andb_true_iff, prefix_true, endswith_true. split.
  - intros [[post H1] [pre H2]]. rewrite app_String, app_empty in H1.
    subst t. destruct pre as [|x pre].
    + rewrite app_empty in H2. injection H2 as H2 _. congruence.
    + rewrite app_String in H2. injection H2 as -> ->. by exists pre.
  - intros [mid ->]. split; [by exists (mid +:+ String b "")|].
    exists (String a mid). by rewrite !app_String, app_empty.
Qed.

(** What [Py.span] returns: the two parts give back the string, the first
    satisfies the test throughout, the second does not begin with a
    character that passes it. *)
Lemma span_app (p : ascii -> bool) (s : string) :
  s = (Py.span p s).1 +:+ (Py.span p s).2.
Proof.
  induction s as [|c s IH]; simpl; [done|].
  destruct (p c); [|done]. destruct (Py.span p s) as [a b]; simpl in *.
  by rewrite app_String, <- IH.
Qed.

Lemma span_fst_all (p : ascii -> bool) (s : string) :
  Py.all_chars p (Py.span p s).1 = true.
Proof.
  induction s as [|c s IH]; simpl; [done|].
  destruct (p c) eqn:Hc; [|done]. destruct (Py.span p s) as [a b]; simpl in *.
  by rewrite Hc, IH.
Qed.

(** The greedy scan is determined by any split of the string into a part
    that passes the test and a rest that does not begin with a passing
    character. *)
Lemma span_unique (p : ascii -> bool) (a b : string) :
  Py.all_chars p a = true ->
  match b with "" => True | String c _ => p c = false end ->
  Py.span p (a +:+ b) = (a, b).
Proof.
  intros Ha Hb. induction a as [|c a IH].
  - rewrite app_empty. destruct b as [|c b]; simpl; [done|]. by rewrite Hb.
  - simpl in Ha. apply andb_true_iff in Ha as [Hc Ha].
    rewrite app_String. simpl. by rewrite Hc, IH.
Qed.

(** A string stripped to nothing consists of white space only. *)
Lemma lstrip_empty (s : string) :
  Py.lstrip s = "" <-> Py.all_chars Py.is_space s = true.
Proof.
  induction s as [|c s IH]; simpl; [done|].
  destruct (Py.is_space c); simpl; [done|]. split; done.
Qed.

Lemma rstrip_empty (s : string) :
  Py.rstrip s = "" <-> Py.all_chars Py.is_space s = true.
Proof.
  induction s as [|c s IH]; simpl; [done|].
  destruct (Py.rstrip s) eqn:Hr.
  - destruct (Py.is_space c); simpl; [tauto|]. split; done.
  - split; [done|]. intros [_ H]%andb_true_iff. apply IH in H. done.
Qed.

Lemma lstrip_all_space (s : string) :
  Py.all_chars Py.is_space s = true ->
  Py.all_chars Py.is_space (Py.lstrip s) = true.
Proof.
  induction s as [|c s IH]; simpl; [done|].
  intros [Hc Hs]%andb_true_iff. rewrite Hc. auto.
Qed.

Lemma lstrip_not_space (s : string) :
  match Py.lstrip s with
  | "" => True
  | String c _ => Py.is_space c = false
  end.
Proof.
  induction s as [|c s IH]; simpl; [done|].
  destruct (Py.is_space c) eqn:Hc; [done|]. by rewrite Hc.
Qed.

Lemma strip_empty (s : string) :
  Py.strip s = "" <-> Py.all_chars Py.is_space s = true.
Proof.
  unfold Py.strip. rewrite rstrip_empty. split.
  - intros H. apply lstrip_empty.
    pose proof (lstrip_not_space s) as Hn.
    destruct (Py.lstrip s) as [|c r]; [done|]. simpl in H.
    by rewrite Hn in H.
  - apply lstrip_all_space.
Qed.

End PyFacts.

(** ** Payload normalization and path parsing *)

Module ContextExtractorFacts.
Import ContextExtractor PyFacts.

Lemma looks_like_json_true (t : string) :
  looks_like_json t = true <-> Spec.json_shaped t.
Proof.
  unfold looks_like_json, Spec.json_shaped.
  rewrite orb_true_iff, !bracketed by done. done.
Qed.

(** C9. [parse_block_value] replaces a string payload whose stripped content
    starts and ends with matching braces or matching square brackets by the
    value [json.loads] parses it to, keeps it as the plain string when the
    parse fails, and returns every other payload unchanged. *)
Theorem parse_block_value_normalizes
    (json_loads : string -> option json) (block : json) :
  (forall s parsed,
      block = JStr s -> Spec.json_shaped (Py.strip s) ->
      json_loads s = Some parsed ->
      parse_block_value json_loads block = parsed)
  /\ (forall s,
      block = JStr s -> Spec.json_shaped (Py.strip s) ->
      json_loads s = None ->
      parse_block_value json_loads block = JStr s)
  /\ ((forall s, block = JStr s -> ~ Spec.json_shaped (Py.strip s)) ->
      parse_block_value json_loads block = block).
Proof.
  split; [|split].
  - intros s parsed -> Hs Hl. apply looks_like_json_true in Hs.
    simpl. by rewrite Hs, Hl.
  - intros s -> Hs Hl. apply looks_like_json_true in Hs.
    simpl. by rewrite Hs, Hl.
  - intros H. destruct block as [| | |s| |]; try done.
    simpl. destruct (looks_like_json (Py.strip s)) eqn:Hs; [|done].
    apply looks_like_json_true in Hs. by destruct (H s).
Qed.

Lemma parse_block_value_normalizes_witness :
  parse_block_value Spec.toy_loads (JStr " {} ") = JDict ∅
  /\ parse_block_value Spec.toy_loads (JStr "{oops}") = JStr "{oops}".
Proof.
  split.
  - apply (proj1 (parse_block_value_normalizes Spec.toy_loads (JStr " {} "))
             " {} " (JDict ∅)); [reflexivity | | reflexivity].
    left. by exists "".
  - apply (proj1 (proj2 (parse_block_value_normalizes Spec.toy_loads
                           (JStr "{oops}"))) "{oops}");
      [reflexivity | | reflexivity].
    left. by exists "oops".
Defined.

Example parse_block_value_mismatched :
  parse_block_value Spec.toy_loads (JStr "{]") = JStr "{]".
Proof. reflexivity. Qed.

(** *** Tokens *)

Lemma match_index_not_suffix (rest : string) :
  ~ Spec.index_suffix rest -> match_index rest = None.
Proof.
  intros Hbad. destruct rest as [|c r]; [done|].
  unfold match_index.
  destruct (Ascii.eqb_spec c "["%char) as [->|Hc].
  2:{ destruct c as [[] [] [] [] [] [] [] []]; try done. }
  pose proof (span_app Py.is_digit r) as Happ.
  pose proof (span_fst_all Py.is_digit r) as Hall.
  destruct (Py.span Py.is_digit r) as [ds r']; simpl in *.
  destruct (negb (String.eqb ds "") && Py.startswith r' "]") eqn:Hnum.
  - exfalso. apply Hbad. left.
    apply andb_true_iff in Hnum as [Hds Hr'].
    apply prefix_true in Hr' as [tail ->].
    exists ds, tail. split; [by rewrite Happ|]. split; [|done].
    intros ->. done.
  - destruct (Py.startswith r "end]") eqn:Hend; [|done].
    exfalso. apply Hbad. right.
    apply prefix_true in Hend as [tail ->]. by exists tail.
Qed.

Lemma parse_token_key_then (key suffix : string) :
  key <> "" -> Py.all_chars not_open_bracket key = true ->
  Py.startswith suffix "[" = true \/ suffix = "" ->
  parse_token (key +:+ suffix) = Some (key, match_index suffix).
Proof.
  intros Hkey Hall Hsuf. unfold parse_token.
  rewrite span_unique; [| done |].
  - destruct (String.eqb_spec key ""); done.
  - destruct Hsuf as [Hsuf| ->]; [|done].
    apply prefix_true in Hsuf as [post ->]. done.
Qed.

Lemma split_no_sep (sep : ascii) (s : string) :
  Py.all_chars (fun c => negb (Ascii.eqb c sep)) s = true ->
  Py.split sep s = [s].
Proof.
  induction s as [|c s IH]; simpl; [done|].
  intros [Hc Hs]%andb_true_iff. apply negb_true_iff in Hc.
  by rewrite Hc, IH.
Qed.

Lemma match_index_number (ds tail : string) :
  ds <> "" -> Py.all_chars Py.is_digit ds = true ->
  match_index ("[" +:+ ds +:+ "]" +:+ tail) = Some (IdxNum (Py.int_of_digits ds)).
Proof.
  intros Hds Hall. autorewrite with pystr. unfold match_index.
  rewrite (span_unique Py.is_digit ds (String "]" tail) Hall eq_refl).
  unfold Py.startswith. rewrite prefix_String, prefix_empty.
  destruct (String.eqb_spec ds ""); done.
Qed.

Lemma match_index_end (tail : string) :
  match_index ("[end]" +:+ tail) = Some IdxEnd.
Proof.
  autorewrite with pystr. unfold match_index, Py.startswith.
  change (Py.span Py.is_digit (String "e" (String "n" (String "d" (String "]" tail)))))
    with ("", String "e" (String "n" (String "d" (String "]" tail)))).
  rewrite !prefix_String, !prefix_empty. done.
Qed.

(** A location that is one token, a key and a bracket suffix, is one
    step. *)
Lemma one_token_location (context : json) (operation key suffix : string)
    (value : json) :
  key <> "" ->
  Py.all_chars not_open_bracket key = true ->
  Py.startswith suffix "[" = true ->
  Py.all_chars Spec.not_dot (key +:+ suffix) = true ->
  parse_token (key +:+ suffix) = Some (key, match_index suffix)
  /\ parse_location (key +:+ suffix) = [(key, match_index suffix)]
  /\ _apply_operation context operation (key +:+ suffix) value
     = apply_at_target operation key (match_index suffix) value context.
Proof.
  intros Hkey Hall Hsuf Hdot.
  assert (parse_token (key +:+ suffix) = Some (key, match_index suffix)) as Htok
    by (rewrite parse_token_key_then by auto; done).
  assert (parse_location (key +:+ suffix) = [(key, match_index suffix)]) as Hloc.
  { unfold parse_location. rewrite split_no_sep by done. simpl. by rewrite Htok. }
  split; [done|]. split; [done|].
  unfold _apply_operation. by rewrite Hloc.
Qed.

(** C2, as the code has it. A token made of a key and a bracket suffix is
    never rejected. When the suffix does not begin with [[N]] or [[end]]
    (an index that is neither numeric nor [end], a bracket that is not
    closed, empty brackets) the token parses to the step of the key alone,
    and the operation is applied at that key. When the suffix begins with
    [[N]] or with [[end]], what follows the closing bracket is ignored,
    balanced or not: the token parses to [key[N]] or [key[end]]. *)
Theorem malformed_suffix_is_dropped
    (context : json) (operation key suffix : string) (value : json) :
  key <> "" ->
  Py.all_chars not_open_bracket key = true ->
  Py.startswith suffix "[" = true ->
  Py.all_chars Spec.not_dot (key +:+ suffix) = true ->
  (~ Spec.index_suffix suffix ->
   parse_token (key +:+ suffix) = Some (key, None)
   /\ parse_location (key +:+ suffix) = [(key, None)]
   /\ _apply_operation context operation (key +:+ suffix) value
      = apply_at_target operation key None value context
   /\ (forall m, context = JDict m ->
        _apply_operation context "add" (key +:+ suffix) value
        = Ok (JDict (<[key := value]> m))))
  /\ (forall ds tail,
        suffix = "[" +:+ ds +:+ "]" +:+ tail ->
        ds <> "" -> Py.all_chars Py.is_digit ds = true ->
        parse_token (key +:+ suffix)
        = Some (key, Some (IdxNum (Py.int_of_digits ds)))
        /\ parse_location (key +:+ suffix)
           = [(key, Some (IdxNum (Py.int_of_digits ds)))]
        /\ _apply_operation context operation (key +:+ suffix) value
           = apply_at_target operation key
               (Some (IdxNum (Py.int_of_digits ds))) value context)
  /\ (forall tail,
        suffix = "[end]" +:+ tail ->
        parse_token (key +:+ suffix) = Some (key, Some IdxEnd)
        /\ parse_location (key +:+ suffix) = [(key, Some IdxEnd)]
        /\ _apply_operation context operation (key +:+ suffix) value
           = apply_at_target operation key (Some IdxEnd) value context).
Proof.
  intros Hkey Hall Hsuf Hdot.
  pose proof (one_token_location context operation key suffix value
                Hkey Hall Hsuf Hdot) as (Htok & Hloc & Hop).
  split; [|split].
  - intros Hbad. rewrite (match_index_not_suffix _ Hbad) in Htok, Hloc, Hop.
    split; [done|]. split; [done|]. split; [done|].
    intros m ->.
    pose proof (one_token_location (JDict m) "add" key suffix value
                  Hkey Hall Hsuf Hdot) as (_ & _ & Hadd).
    by rewrite (match_index_not_suffix _ Hbad) in Hadd.
  - intros ds tail Hs Hds Hdigits.
    pose proof (match_index_number ds tail Hds Hdigits) as Hidx.
    rewrite <- Hs in Hidx. by rewrite Hidx in Htok, Hloc, Hop.
  - intros tail Hs.
    pose proof (match_index_end tail) as Hidx.
    rewrite <- Hs in Hidx. by rewrite Hidx in Htok, Hloc, Hop.
Qed.

Lemma malformed_suffix_is_dropped_witness :
  (parse_token "a[x]" = Some ("a", None)
   /\ parse_location "a[x]" = [("a", None)]
   /\ _apply_operation (JDict ∅) "add" "a[x]" (JStr "v")
      = apply_at_target "add" "a" None (JStr "v") (JDict ∅)
   /\ (forall m, JDict ∅ = JDict m ->
        _apply_operation (JDict ∅) "add" "a[x]" (JStr "v")
        = Ok (JDict (<["a" := JStr "v"]> m))))
  /\ (parse_token "a[1][" = Some ("a", Some (IdxNum (Py.int_of_digits "1")))
      /\ parse_location "a[1][" = [("a", Some (IdxNum (Py.int_of_digits "1")))]
      /\ _apply_operation (JDict ∅) "add" "a[1][" (JStr "v")
         = apply_at_target "add" "a" (Some (IdxNum (Py.int_of_digits "1")))
             (JStr "v") (JDict ∅)).
Proof.
  split.
  - apply (malformed_suffix_is_dropped (JDict ∅) "add" "a" "[x]" (JStr "v"));
      [done | reflexivity | reflexivity | reflexivity |].
    intros [(ds & tail & H & Hds & Hall)|(tail & H)].
    + destruct ds as [|c ds]; [done|].
      rewrite !app_String, app_empty in H.
      injection H as <- _. done.
    + done.
  - apply (proj1 (proj2 (malformed_suffix_is_dropped (JDict ∅) "add" "a" "[1]["
                           (JStr "v") ltac:(done) eq_refl eq_refl eq_refl))
             "1" "[");
      [reflexivity | done | reflexivity].
Defined.

(** C2 as stated fails: a location with a non-numeric index and one with an
    unbalanced bracket are applied, the apply is not aborted. *)
Lemma malformed_location_not_rejected :
  _apply_operation (JDict ∅) "add" "a[x]" (JStr "v")
    = Ok (JDict {["a" := JStr "v"]})
  /\ _apply_operation (JDict ∅) "add" "a[1" (JStr "v")
    = Ok (JDict {["a" := JStr "v"]})
  /\ apply_operations (fun _ => None) None
       [ {| operation := "add"; location := "a[x]"; block := JStr "v";
            reasoning := "" |} ]
    = Ok (JDict {["a" := JStr "v"]}).
Proof. repeat split; vm_compute; reflexivity. Qed.

End ContextExtractorFacts.

(** ** Line anchors *)

Module AnchorFacts.
Import CodeGenerator PyFacts.

(** The tail [\)\[(\d+)\]] matches at [rest] exactly when [rest] begins
    with [)[], a non-empty run of digits and []]. *)
Lemma match_occurrence_Some (rest : string) (n : nat) :
  match_occurrence rest = Some n ->
  exists ds tail, rest = ")[" +:+ ds +:+ "]" +:+ tail
                  /\ ds <> "" /\ Py.all_chars Py.is_digit ds = true
                  /\ n = Py.int_of_digits ds.
Proof.
  unfold match_occurrence.
  destruct rest as [|c1 [|c2 r]]; try done.
  { by destruct c1 as [[] [] [] [] [] [] [] []]. }
  destruct (Ascii.eqb_spec c1 ")"%char) as [->|H1].
  2:{ by destruct c1 as [[] [] [] [] [] [] [] []]. }
  destruct (Ascii.eqb_spec c2 "["%char) as [->|H2].
  2:{ by destruct c2 as [[] [] [] [] [] [] [] []]. }
  pose proof (span_app Py.is_digit r) as Happ.
  pose proof (span_fst_all Py.is_digit r) as Hall.
  destruct (Py.span Py.is_digit r) as [ds r']; simpl in *.
  destruct (negb (String.eqb ds "") && Py.startswith r' "]") eqn:Hnum; [|done].
  intros [= <-]. apply andb_true_iff in Hnum as [Hds Hr'].
  apply prefix_true in Hr' as [tail ->].
  exists ds, tail. split; [by rewrite Happ|]. split; [|done].
  intros ->. done.
Qed.

Lemma match_occurrence_complete (ds tail : string) :
  ds <> "" -> Py.all_chars Py.is_digit ds = true ->
  match_occurrence (")[" +:+ ds +:+ "]" +:+ tail) = Some (Py.int_of_digits ds).
Proof.
  intros Hds Hall. autorewrite with pystr. unfold match_occurrence.
  rewrite (span_unique Py.is_digit ds (String "]" tail) Hall eq_refl).
  unfold Py.startswith. rewrite prefix_String, prefix_empty.
  destruct (String.eqb_spec ds ""); done.
Qed.

(** One step of the lazy group on a non-empty rest. *)
Lemma match_text_String (text : string) (c : ascii) (rest : string) :
  match_text text (String c rest)
  = match match_occurrence (String c rest) with
    | Some occurrence => Some (text, occurrence)
    | None => if Ascii.eqb c newline then None
              else match_text (text +:+ String c "") rest
    end.
Proof. reflexivity. Qed.

Lemma match_text_Some (rest text t : string) (n : nat) :
  match_text text rest = Some (t, n) ->
  exists more ds tail,
    t = text +:+ more
    /\ rest = more +:+ ")[" +:+ ds +:+ "]" +:+ tail
    /\ Py.all_chars Spec.not_newline more = true
    /\ ds <> "" /\ Py.all_chars Py.is_digit ds = true
    /\ n = Py.int_of_digits ds.
Proof.
  revert text. induction rest as [|c rest IH]; intros text.
  - simpl. done.
  - rewrite match_text_String.
    destruct (match_occurrence (String c rest)) as [k|] eqn:Hocc.
    + intros [= <- <-]. apply match_occurrence_Some in Hocc
        as (ds & tail & Hrest & Hds & Hall & ->).
      exists "", ds, tail. by rewrite app_empty_r.
    + destruct (Ascii.eqb c newline) eqn:Hc; [done|].
      intros (more & ds & tail & -> & -> & Hmore & Hds & Hall & ->)%IH.
      exists (String c more), ds, tail.
      rewrite app_assoc. repeat split; try done.
      simpl. unfold Spec.not_newline at 1. by rewrite Hc.
Qed.

Lemma match_text_complete (more text ds tail : string) :
  Py.all_chars Spec.not_newline more = true ->
  ds <> "" -> Py.all_chars Py.is_digit ds = true ->
  is_Some (match_text text (more +:+ ")[" +:+ ds +:+ "]" +:+ tail)).
Proof.
  intros Hmore Hds Hall. revert text.
  induction more as [|c more IH]; intros text.
  - rewrite app_empty.
    pose proof (match_occurrence_complete ds tail Hds Hall) as Hocc.
    autorewrite with pystr in *.
    by rewrite match_text_String, Hocc.
  - simpl in Hmore. apply andb_true_iff in Hmore as [Hc Hmore].
    rewrite app_String.
    rewrite match_text_String.
    destruct (match_occurrence _); [done|].
    unfold Spec.not_newline in Hc. apply negb_true_iff in Hc.
    rewrite Hc. by apply IH.
Qed.

(** The anchor regex matches exactly the strings that begin with
    [(text)[n]], and its groups are such a [text] and [n]. *)
Lemma match_anchor_Some (s t : string) (n : nat) :
  match_anchor s = Some (t, n) ->
  exists ds, Spec.anchor_prefix s t ds /\ n = Py.int_of_digits ds.
Proof.
  unfold match_anchor. destruct s as [|c0 [|c s]]; try done.
  { by destruct c0 as [[] [] [] [] [] [] [] []]. }
  destruct (Ascii.eqb_spec c0 "("%char) as [->|H0].
  2:{ by destruct c0 as [[] [] [] [] [] [] [] []]. }
  destruct (Ascii.eqb c newline) eqn:Hc; [done|].
  intros (more & ds & tail & -> & -> & Hmore & Hds & Hall & ->)%match_text_Some.
  exists ds. split; [|done]. exists tail.
  autorewrite with pystr.
  repeat split; try done.
  simpl. unfold Spec.not_newline at 1. by rewrite Hc.
Qed.

Lemma match_anchor_complete (s text ds : string) :
  Spec.anchor_prefix s text ds -> is_Some (match_anchor s).
Proof.
  intros (tail & -> & Htext & Hnl & Hds & Hall).
  destruct text as [|c text]; [done|].
  simpl in Hnl. apply andb_true_iff in Hnl as [Hc Hnl].
  unfold Spec.not_newline in Hc. apply negb_true_iff in Hc.
  autorewrite with pystr. unfold match_anchor. rewrite Hc.
  pose proof (match_text_complete text (String c "") ds tail Hnl Hds Hall) as H.
  by autorewrite with pystr in H.
Qed.

Lemma anchor_length_app (a b : string) :
  String.length (a +:+ b) = (String.length a + String.length b)%nat.
Proof.
  induction a as [|c a IH]; [done|]. rewrite app_String. simpl. by rewrite IH.
Qed.

(** The lazy group stops at the first place where the tail matches: what
    it holds is no longer than any text after which the tail matches. *)
Lemma match_text_shortest (rest : string) :
  forall (text t : string) (n : nat),
    match_text text rest = Some (t, n) ->
    forall more ds tail,
      rest = more +:+ ")[" +:+ ds +:+ "]" +:+ tail ->
      ds <> "" -> Py.all_chars Py.is_digit ds = true ->
      (String.length t <= String.length text + String.length more)%nat.
Proof.
  induction rest as [|c rest IH]; intros text t n; [done|].
  rewrite match_text_String.
  destruct (match_occurrence (String c rest)) as [k|] eqn:Hocc.
  - intros [= <- <-] more ds tail _ _ _. lia.
  - destruct (Ascii.eqb c newline); [done|].
    intros Hm more ds tail Hrest Hds Hall.
    destruct more as [|c' more].
    + rewrite app_empty in Hrest.
      rewrite Hrest, (match_occurrence_complete ds tail Hds Hall) in Hocc. done.
    + rewrite app_String in Hrest. injection Hrest as _ Hrest.
      pose proof (IH _ _ _ Hm more ds tail Hrest Hds Hall) as Hle.
      rewrite anchor_length_app in Hle. simpl in *. lia.
Qed.

Lemma match_anchor_shortest (s t : string) (n : nat) :
  match_anchor s = Some (t, n) ->
  forall text ds, Spec.anchor_prefix s text ds ->
                  (String.length t <= String.length text)%nat.
Proof.
  intros Hm text ds (tail & Hs & Htext & _ & Hds & Hall).
  destruct text as [|c text]; [done|]. clear Htext.
  subst s. autorewrite with pystr in Hm. unfold match_anchor in Hm.
  destruct (Ascii.eqb c newline); [done|].
  pose proof (match_text_shortest _ _ _ _ Hm text ds tail) as Hle.
  autorewrite with pystr in Hle. simpl in *. apply Hle; done.
Qed.

(** Two texts of one length after which the tail matches are the same
    text, followed by the same digits. *)
Lemma anchor_prefix_same_length (s text text' ds ds' : string) :
  Spec.anchor_prefix s text ds -> Spec.anchor_prefix s text' ds' ->
  String.length text = String.length text' ->
  text = text' /\ ds = ds'.
Proof.
  intros (tail & -> & _ & _ & _ & Hall) (tail' & Heq & _ & _ & _ & Hall') Hlen.
  autorewrite with pystr in Heq. injection Heq as Heq.
  assert (forall a b x y : string,
             a +:+ x = b +:+ y -> String.length a = String.length b ->
             a = b /\ x = y) as Hsame.
  { induction a as [|c a IH]; intros [|d b] x y H Hl; try done.
    rewrite !app_String in H. injection H as -> H. simpl in Hl.
    destruct (IH b x y H) as [-> ->]; [lia|done]. }
  destruct (Hsame _ _ _ _ Heq Hlen) as [<- Hrest]. split; [done|].
  autorewrite with pystr in Hrest. injection Hrest as Hrest.
  pose proof (span_unique Py.is_digit ds (String "]" tail) Hall eq_refl) as H1.
  pose proof (span_unique Py.is_digit ds' (String "]" tail') Hall' eq_refl) as H2.
  rewrite Hrest in H1. congruence.
Qed.

(** C10, as the code has it. [_parse_location_pattern] never rejects an
    anchor. An anchor that does not begin with [(text)[n]], for a non-empty
    [text] without line break and a non-empty run of decimal digits [n]
    (zero included), is returned whole as the pattern, with occurrence 1.
    An anchor that does begin that way yields the shortest such [text] and
    the value of the [n] that follows it, whatever comes after the closing
    bracket: the group is lazy. *)
Theorem parse_location_pattern_falls_back (pattern : string) :
  ((forall text ds, ~ Spec.anchor_prefix pattern text ds) ->
   _parse_location_pattern pattern = (pattern, 1%nat))
  /\ (forall text ds,
        Spec.anchor_prefix pattern text ds ->
        (forall text' ds', Spec.anchor_prefix pattern text' ds' ->
                           (String.length text <= String.length text')%nat) ->
        _parse_location_pattern pattern = (text, Py.int_of_digits ds))
  /\ (forall text ds,
        Spec.anchor_prefix pattern text ds ->
        exists text0 ds0,
          Spec.anchor_prefix pattern text0 ds0
          /\ (forall text' ds', Spec.anchor_prefix pattern text' ds' ->
                                (String.length text0 <= String.length text')%nat)
          /\ _parse_location_pattern pattern = (text0, Py.int_of_digits ds0)).
Proof.
  unfold _parse_location_pattern. split; [|split].
  - intros Hno. destruct (match_anchor pattern) as [[t n]|] eqn:Hm; [|done].
    apply match_anchor_Some in Hm as (ds & Hpre & _). by destruct (Hno t ds).
  - intros text ds Hpre Hmin.
    destruct (match_anchor_complete _ _ _ Hpre) as [[t n] Hm]. rewrite Hm.
    pose proof (match_anchor_shortest _ _ _ Hm text ds Hpre) as Hle.
    apply match_anchor_Some in Hm as (ds' & Hpre' & ->).
    pose proof (Hmin t ds' Hpre') as Hge.
    destruct (anchor_prefix_same_length _ _ _ _ _ Hpre Hpre') as [-> ->];
      [lia|done].
  - intros text ds [[t n] Hm]%match_anchor_complete. rewrite Hm.
    pose proof (match_anchor_shortest _ _ _ Hm) as Hmin.
    apply match_anchor_Some in Hm as (ds' & Hpre & ->). by exists t, ds'.
Qed.

Lemma parse_location_pattern_falls_back_witness :
  _parse_location_pattern "EMPTY_LINE" = ("EMPTY_LINE", 1%nat)
  /\ _parse_location_pattern "(a)[1])[2]" = ("a", Py.int_of_digits "1").
Proof.
  split.
  - apply (proj1 (parse_location_pattern_falls_back "EMPTY_LINE")).
    by intros text ds (tail & H & _).
  - apply (proj1 (proj2 (parse_location_pattern_falls_back "(a)[1])[2]"))).
    + exists ")[2]". done.
    + intros text' ds' (tail & _ & Htext & _). destruct text'; [done|].
      simpl. lia.
Defined.

(** C10 as stated fails: [(a)[0]] is not of the form [(text)[n]] with a
    positive [n], and yet it is not taken whole with occurrence 1; nor is
    an anchor with text after the closing bracket. *)
Lemma zero_occurrence_is_parsed :
  _parse_location_pattern "(a)[0]" = ("a", 0%nat)
  /\ _parse_location_pattern "(a)[0]" <> ("(a)[0]", 1%nat)
  /\ _parse_location_pattern "(a)[2] and more" = ("a", 2%nat).
Proof. repeat split; done. Qed.

End AnchorFacts.

(** ** Locating lines and patching text *)

Module TextPatcherFacts.
Import CodeGenerator PyFacts.

Lemma count_matches_cons (pattern line : string) (lines : list string) :
  Spec.count_matches pattern (line :: lines)
  = ((if line_matches pattern line then 1 else 0)
     + Spec.count_matches pattern lines)%nat.
Proof.
  unfold Spec.count_matches. simpl. by destruct (line_matches pattern line).
Qed.

Lemma find_from_cons (pattern : string) (occurrence : nat) (line : string)
    (rest : list string) (i count : nat) :
  find_from pattern occurrence (line :: rest) i count
  = if line_matches pattern line then
      if Nat.eqb (S count) occurrence then Z.of_nat i
      else find_from pattern occurrence rest (S i) (S count)
    else find_from pattern occurrence rest (S i) count.
Proof. reflexivity. Qed.

(** The loop invariant of [_find_line_index]: entered at line [i] with
    [count] matches already seen, the loop stops at the match that brings
    the count to [occurrence], and falls through when there are too few. *)
Lemma find_from_spec (pattern : string) (occurrence : nat) (lines : list string) :
  forall i count : nat,
    (count < occurrence)%nat ->
    ((occurrence <= count + Spec.count_matches pattern lines)%nat ->
     exists (j : nat) (line : string),
       find_from pattern occurrence lines i count = Z.of_nat (i + j)
       /\ lines !! j = Some line
       /\ line_matches pattern line = true
       /\ (count + Spec.count_matches pattern (take j lines) + 1)%nat = occurrence)
    /\ ((count + Spec.count_matches pattern lines < occurrence)%nat ->
        find_from pattern occurrence lines i count = (-1)%Z).
Proof.
  induction lines as [|line rest IH]; intros i count Hlt.
  - unfold Spec.count_matches. simpl. split; [lia | done].
  - rewrite count_matches_cons, find_from_cons.
    destruct (line_matches pattern line) eqn:Hm.
    + destruct (Nat.eqb_spec (S count) occurrence) as [Heq|Hne].
      * split; [|lia]. intros _. exists 0%nat, line.
        unfold Spec.count_matches. simpl.
        split_and!; [f_equal; lia | done | done | lia].
      * destruct (IH (S i) (S count)) as [IH1 IH2]; [lia|].
        split.
        -- intros Hle. destruct IH1 as (j & l & Hf & Hl & Hml & Hc); [lia|].
           exists (S j), l. rewrite Hf. simpl.
           rewrite count_matches_cons, Hm.
           split_and!; [f_equal; lia | done | done | lia].
        -- intros Hfew. apply IH2. lia.
    + destruct (IH (S i) count Hlt) as [IH1 IH2]. split.
      * intros Hle. destruct IH1 as (j & l & Hf & Hl & Hml & Hc); [lia|].
        exists (S j), l. rewrite Hf. simpl.
        rewrite count_matches_cons, Hm.
        split_and!; [f_equal; lia | done | done | lia].
      * intros Hfew. apply IH2. lia.
Qed.

(** A line matches the pattern when the pattern occurs in it; under the
    sentinel [EMPTY_LINE], when it holds white space only. *)
Lemma line_matches_true (pattern line : string) :
  line_matches pattern line = true
  <-> if decide (pattern = "EMPTY_LINE")
      then Py.all_chars Py.is_space line = true
      else Spec.occurs_in pattern line.
Proof.
  unfold line_matches.
  destruct (String.eqb_spec pattern "EMPTY_LINE") as [->|Hne].
  - rewrite decide_True by done. by rewrite eqb_true, strip_empty.
  - rewrite decide_False by done. apply contains_true.
Qed.

(** C6. For an occurrence [n >= 1], [_find_line_index] returns the
    0-indexed position of the [n]-th matching line when the lines have at
    least [n] matches, and [-1] when they have fewer; a line matches when
    it contains the pattern literally or, for the pattern [EMPTY_LINE],
    when its stripped content is empty. *)
Theorem find_line_index_nth_match
    (lines : list string) (pattern : string) (n : nat) :
  (1 <= n)%nat ->
  ((n <= Spec.count_matches pattern lines)%nat ->
   exists (i : nat) (line : string),
     _find_line_index lines pattern n = Z.of_nat i
     /\ lines !! i = Some line
     /\ line_matches pattern line = true
     /\ Spec.count_matches pattern (take i lines) = (n - 1)%nat)
  /\ ((Spec.count_matches pattern lines < n)%nat ->
      _find_line_index lines pattern n = (-1)%Z)
  /\ (forall line,
        line_matches pattern line = true
        <-> if decide (pattern = "EMPTY_LINE")
            then Py.strip line = ""
            else Spec.occurs_in pattern line).
Proof.
  intros Hn. unfold _find_line_index.
  destruct (find_from_spec pattern n lines 0 0) as [H1 H2]; [lia|].
  split; [|split].
  - intros Hle. destruct H1 as (j & line & Hf & Hl & Hm & Hc); [lia|].
    exists j, line. repeat split; try done. lia.
  - intros Hfew. apply H2. lia.
  - intros line. rewrite line_matches_true.
    destruct (decide (pattern = "EMPTY_LINE")); [|done].
    by rewrite strip_empty.
Qed.

Lemma find_line_index_nth_match_witness :
  ((2 <= Spec.count_matches "a" ["a"; "b"; "ba"; "a"])%nat ->
   exists (i : nat) (line : string),
     _find_line_index ["a"; "b"; "ba"; "a"] "a" 2 = Z.of_nat i
     /\ ["a"; "b"; "ba"; "a"] !! i = Some line
     /\ line_matches "a" line = true
     /\ Spec.count_matches "a" (take i ["a"; "b"; "ba"; "a"]) = (2 - 1)%nat)
  /\ ((Spec.count_matches "a" ["a"; "b"; "ba"; "a"] < 2)%nat ->
      _find_line_index ["a"; "b"; "ba"; "a"] "a" 2 = (-1)%Z)
  /\ (forall line,
        line_matches "a" line = true
        <-> if decide ("a" = "EMPTY_LINE")
            then Py.strip line = ""
            else Spec.occurs_in "a" line).
Proof.
  apply (find_line_index_nth_match ["a"; "b"; "ba"; "a"] "a" 2). lia.
Defined.

Example find_line_index_second : _find_line_index ["a"; "b"; "ba"; "a"] "a" 2 = 2%Z.
Proof. reflexivity. Qed.

Example find_line_index_blank :
  _find_line_index ["x"; "  "; "y"; ""] "EMPTY_LINE" 2 = 3%Z.
Proof. reflexivity. Qed.

Example find_line_index_too_few : _find_line_index ["a"; "b"] "a" 2 = (-1)%Z.
Proof. reflexivity. Qed.

(** The position the loop returns is a line number. *)
Lemma find_from_range (pattern : string) (occurrence : nat) (lines : list string) :
  forall (i count k : nat),
    find_from pattern occurrence lines i count = Z.of_nat k ->
    (i <= k < i + length lines)%nat.
Proof.
  induction lines as [|line rest IH]; intros i count k.
  - simpl. lia.
  - rewrite find_from_cons. simpl length.
    destruct (line_matches pattern line).
    + destruct (S count =? occurrence)%nat.
      * lia.
      * intros H%IH. lia.
    + intros H%IH. lia.
Qed.

Lemma find_from_no_match (pattern : string) (occurrence : nat) (lines : list string) :
  (forall line, line ∈ lines -> line_matches pattern line = false) ->
  forall i count, find_from pattern occurrence lines i count = (-1)%Z.
Proof.
  induction lines as [|line rest IH]; intros Hno i count; simpl; [done|].
  rewrite (Hno line) by apply list_elem_of_here.
  apply IH. intros l Hl. apply Hno. by apply list_elem_of_further.
Qed.

(** The lines of [a], a line break and [b] are the lines of [a] and then
    the lines of [b]. *)
Lemma split_app_newline (a b : string) :
  Py.split newline (a +:+ nl +:+ b) = Py.split newline a ++ Py.split newline b.
Proof.
  induction a as [|c a IH].
  - reflexivity.
  - rewrite app_String. simpl. rewrite IH.
    destruct (Ascii.eqb c newline); [done|].
    destruct (Py.split newline a) as [|h t] eqn:Hs; [|done].
    destruct a; simpl in Hs; [done|].
    destruct (Ascii.eqb a newline); [done|].
    by destruct (Py.split newline a0).
Qed.

Lemma find_all_false {A : Type} (f : A -> bool) (l : list A) :
  (forall x, f x = false) -> List.find f l = None.
Proof. intros Hf. induction l as [|x l IH]; simpl; [done|]. by rewrite Hf. Qed.

Lemma find_block_None (code_lines block_lines : list string) :
  ~ Spec.block_occurs block_lines code_lines ->
  find_block code_lines block_lines = None.
Proof.
  intros Hno. unfold find_block.
  apply find_all_false. intros i.
  apply bool_decide_eq_false. intros Heq. apply Hno.
  exists (take i code_lines), (drop (length block_lines) (drop i code_lines)).
  rewrite <- Heq at 1. by rewrite !take_drop.
Qed.

Lemma apply_operations_from_ok (operations : list PlantUMLOperation) :
  Forall Spec.well_located operations ->
  forall code, is_ok (apply_operations_from code operations) = true.
Proof.
  induction 1 as [|op rest Hop _ IH]; intros code; simpl; [done|].
  unfold Spec.well_located in Hop. destruct (location op) as [s|l].
  - subst s. simpl. apply IH.
  - apply IH.
Qed.

(** C3. The text patcher absorbs misses. An add whose after anchor is not
    found (in particular when no line matches its pattern) returns the
    document followed by a line break and the payload, so the lines of the
    payload come last; a delete whose block does not occur as a contiguous
    run of lines returns the document itself; and a batch of operations
    located at the root or at a pair of anchors never raises. *)
Theorem text_patcher_absorbs_misses
    (code block : string) (location : PlantUMLLocation) :
  let lines := Py.split newline code in
  let after := _parse_location_pattern (after_line location) in
  (_find_line_index lines after.1 after.2 = (-1)%Z ->
   _apply_operation code "add" location block = code +:+ nl +:+ block)
  /\ ((forall line, line ∈ lines -> line_matches after.1 line = false) ->
      _apply_operation code "add" location block = code +:+ nl +:+ block)
  /\ Py.split newline (code +:+ nl +:+ block) = lines ++ Py.split newline block
  /\ (~ Spec.block_occurs (Py.split newline block) lines ->
      _apply_operation code "delete" location block = code)
  /\ (forall previous_code operations,
         Forall Spec.well_located operations ->
         is_ok (apply_operations previous_code operations) = true).
Proof.
  intros lines after.
  assert (_find_line_index lines after.1 after.2 = (-1)%Z ->
          _apply_operation code "add" location block = code +:+ nl +:+ block)
    as Hmiss.
  { intros Hf. unfold _apply_operation. simpl.
    subst after lines.
    destruct (_parse_location_pattern (after_line location)) as [ap ao].
    destruct (_parse_location_pattern (before_line location)) as [bp bo].
    simpl in Hf. by rewrite Hf. }
  split; [done|]. split; [|split; [|split]].
  - intros Hno. apply Hmiss. by apply find_from_no_match.
  - apply split_app_newline.
  - intros Hno. unfold _apply_operation. simpl.
    by rewrite find_block_None.
  - intros previous_code operations Hops. by apply apply_operations_from_ok.
Qed.

Lemma text_patcher_absorbs_misses_witness :
  _apply_operation ("@startuml" +:+ nl +:+ "@enduml") "add"
    {| after_line := "(class B {)[1]"; before_line := "(@enduml)[1]" |} "note"
  = "@startuml" +:+ nl +:+ "@enduml" +:+ nl +:+ "note"
  /\ _apply_operation ("@startuml" +:+ nl +:+ "@enduml") "delete"
       {| after_line := ""; before_line := "" |} "class A"
     = "@startuml" +:+ nl +:+ "@enduml".
Proof.
  split.
  - destruct (text_patcher_absorbs_misses ("@startuml" +:+ nl +:+ "@enduml")
                "note"
                {| after_line := "(class B {)[1]"; before_line := "(@enduml)[1]" |})
      as (Hadd & _).
    apply Hadd. reflexivity.
  - destruct (text_patcher_absorbs_misses ("@startuml" +:+ nl +:+ "@enduml")
                "class A" {| after_line := ""; before_line := "" |})
      as (_ & _ & _ & Hdel & _).
    apply Hdel. intros (pre & post & H). vm_compute in H.
    destruct pre as [|x [|y pre]]; simplify_eq/=.
    by destruct pre.
Defined.

(** C8. When the after anchor locates line [i], a text add puts the payload
    right after that line, as element [i + 1] of the lines that are joined,
    and the before anchor has no influence on the result. *)
Theorem text_add_inserts_after_anchor
    (code after before block : string) (i : nat) :
  let lines := Py.split newline code in
  let parsed := _parse_location_pattern after in
  _find_line_index lines parsed.1 parsed.2 = Z.of_nat i ->
  let lines' := take (S i) lines ++ block :: drop (S i) lines in
  _apply_operation code "add"
    {| after_line := after; before_line := before |} block
  = Py.join nl lines'
  /\ take (S i) lines' = take (S i) lines
  /\ is_Some (lines !! i)
  /\ lines' !! S i = Some block
  /\ drop (S (S i)) lines' = drop (S i) lines
  /\ (forall before',
        _apply_operation code "add"
          {| after_line := after; before_line := before' |} block
        = _apply_operation code "add"
            {| after_line := after; before_line := before |} block).
Proof.
  intros lines parsed Hf lines'.
  assert (forall b, _apply_operation code "add"
                      {| after_line := after; before_line := b |} block
                    = Py.join nl lines') as Hany.
  { intros b. unfold _apply_operation. simpl.
    subst parsed lines' lines.
    destruct (_parse_location_pattern after) as [ap ao].
    destruct (_parse_location_pattern b) as [bp bo].
    simpl in Hf. rewrite Hf.
    replace (Z.of_nat i =? -1)%Z with false by (symmetry; apply Z.eqb_neq; lia).
    replace (Z.to_nat (Z.of_nat i + 1)) with (S i) by lia.
    reflexivity. }
  apply find_from_range in Hf. simpl in Hf.
  assert (length (take (S i) lines) = S i) as Hlen.
  { rewrite length_take. lia. }
  split; [apply Hany|]. split; [|split; [|split; [|split]]].
  - subst lines'. rewrite take_app_le by lia. rewrite take_take. f_equal. lia.
  - apply lookup_lt_is_Some. lia.
  - subst lines'. rewrite lookup_app_r by lia. by rewrite Hlen, Nat.sub_diag.
  - subst lines'. rewrite drop_app_ge by lia. rewrite Hlen.
    by replace (S (S i) - S i)%nat with 1%nat by lia.
  - intros before'. by rewrite !Hany.
Qed.

Lemma text_add_inserts_after_anchor_witness :
  _apply_operation Spec.scenario_c "add"
    {| after_line := "(class A {)[1]"; before_line := "(@enduml)[1]" |} "  +field"
  = "@startuml" +:+ nl +:+ "class A {" +:+ nl +:+ "  +field" +:+ nl +:+ "}"
      +:+ nl +:+ "@enduml".
Proof.
  destruct (text_add_inserts_after_anchor Spec.scenario_c "(class A {)[1]"
              "(@enduml)[1]" "  +field" 1) as [H _]; [reflexivity|].
  exact H.
Defined.

End TextPatcherFacts.

(** ** The structural patcher *)

Module StructuralPatcherFacts.
Import ContextExtractor.

Lemma contains_dict (key : string) (m : gmap string json) (v : json) :
  m !! key = Some v -> PyObj.contains key (JDict m) = Ok true.
Proof. intros H. simpl. by rewrite bool_decide_eq_true_2. Qed.

Lemma ensure_key_present (key : string) (m : gmap string json) (v fresh : json) :
  m !! key = Some v -> ensure_key (JDict m) key fresh = Ok (JDict m).
Proof. intros H. unfold ensure_key. by rewrite (contains_dict _ _ _ H). Qed.

(** Navigation along steps that all find what they name, with a target
    operation [f] that a second target operation [g] undoes: running [g]
    along the same steps restores the document. *)
Lemma navigate_round_trip (parts : list part) (f g : json -> result json) :
  forall d t t1 : json,
    Spec.resolve parts d = Some t -> f t = Ok t1 -> g t1 = Ok t ->
    exists d1, navigate parts f d = Ok d1 /\ navigate parts g d1 = Ok d
               /\ (t1 = t -> d1 = d).
Proof.
  induction parts as [|[key [[|n]|]] rest IH]; intros d t t1 Hres Hf Hg.
  - simpl in Hres. injection Hres as ->. exists t1. by rewrite <- Hf, <- Hg.
  - done.
  - simpl in Hres. destruct d as [| | | | |m]; try done.
    destruct (m !! key) as [[| | | |l|]|] eqn:Hkey; try done.
    destruct (l !! n) as [c|] eqn:Hn; [|done]. simpl in Hres.
    destruct (IH c t t1 Hres Hf Hg) as (c1 & Hnav1 & Hnav2 & Hsame).
    pose proof (lookup_lt_Some _ _ _ Hn) as Hlt.
    exists (JDict (<[key := JList (<[n := c1]> l)]> m)).
    split_and!.
    + simpl. rewrite (ensure_key_present _ _ _ _ Hkey). simpl.
      rewrite Hkey. simpl.
      replace (n <? length l)%nat with true by (symmetry; apply Nat.ltb_lt; lia).
      simpl. rewrite Hn, Hnav1. done.
    + simpl. erewrite ensure_key_present by apply lookup_insert_eq. simpl.
      rewrite lookup_insert_eq. simpl. rewrite length_insert.
      replace (n <? length l)%nat with true by (symmetry; apply Nat.ltb_lt; lia).
      simpl. rewrite list_lookup_insert_eq by done. rewrite Hnav2. simpl.
      rewrite list_insert_insert_eq, insert_insert_eq.
      rewrite (list_insert_id _ _ _ Hn).
      by rewrite (insert_id _ _ _ Hkey).
    + intros Ht. rewrite (Hsame Ht), (list_insert_id _ _ _ Hn).
      by rewrite (insert_id _ _ _ Hkey).
  - simpl in Hres. destruct d as [| | | | |m]; try done.
    destruct (m !! key) as [c|] eqn:Hkey; [|done]. simpl in Hres.
    destruct (IH c t t1 Hres Hf Hg) as (c1 & Hnav1 & Hnav2 & Hsame).
    exists (JDict (<[key := c1]> m)).
    split_and!.
    + simpl. rewrite (ensure_key_present _ _ _ _ Hkey). simpl.
      rewrite Hkey. simpl. by rewrite Hnav1.
    + simpl. erewrite ensure_key_present by apply lookup_insert_eq. simpl.
      rewrite lookup_insert_eq. simpl. rewrite Hnav2. simpl.
      by rewrite insert_insert_eq, (insert_id _ _ _ Hkey).
    + intros Ht. by rewrite (Hsame Ht), (insert_id _ _ _ Hkey).
Qed.

(** Insert at an index within the list, then delete at that index. *)
Lemma target_insert_delete (key : string) (n : nat) (l : list json)
    (tm : gmap string json) (value value' : json) :
  tm !! key = Some (JList l) -> (n <= length l)%nat ->
  exists t1,
    apply_at_target "add" key (Some (IdxNum n)) value (JDict tm) = Ok t1
    /\ apply_at_target "delete" key (Some (IdxNum n)) value' t1 = Ok (JDict tm).
Proof.
  intros Hkey Hn.
  exists (JDict (<[key := JList (Py.list_insert n value l)]> tm)). split.
  - unfold apply_at_target. simpl.
    rewrite (ensure_key_present _ _ _ _ Hkey). simpl. rewrite Hkey. simpl.
    by replace (n <=? length l)%nat with true by (symmetry; apply Nat.leb_le; lia).
  - unfold apply_at_target. simpl.
    rewrite bool_decide_eq_true_2 by (rewrite lookup_insert_eq; eauto).
    simpl. rewrite lookup_insert_eq. simpl.
    unfold Py.list_insert.
    replace (n <? length (take n l ++ value :: drop n l))%nat with true.
    2:{ symmetry. apply Nat.ltb_lt. rewrite length_app, length_take. simpl. lia. }
    rewrite insert_insert_eq.
    assert (delete n (take n l ++ value :: drop n l) = l) as ->.
    { rewrite <- (take_drop n l) at 3.
      rewrite <- (delete_middle (take n l) (drop n l) value) at 1.
      f_equal. rewrite length_take. lia. }
    by rewrite (insert_id _ _ _ Hkey).
Qed.

(** Insert past the end of the list: neither operation changes anything. *)
Lemma target_out_of_range (key : string) (n : nat) (l : list json)
    (tm : gmap string json) (value value' : json) :
  tm !! key = Some (JList l) -> (length l < n)%nat ->
  apply_at_target "add" key (Some (IdxNum n)) value (JDict tm) = Ok (JDict tm)
  /\ apply_at_target "delete" key (Some (IdxNum n)) value' (JDict tm)
     = Ok (JDict tm).
Proof.
  intros Hkey Hn. split.
  - unfold apply_at_target. simpl.
    rewrite (ensure_key_present _ _ _ _ Hkey). simpl. rewrite Hkey. simpl.
    by replace (n <=? length l)%nat with false by (symmetry; apply Nat.leb_gt; lia).
  - unfold apply_at_target. simpl.
    rewrite bool_decide_eq_true_2 by eauto. simpl. rewrite Hkey. simpl.
    by replace (n <? length l)%nat with false by (symmetry; apply Nat.ltb_ge; lia).
Qed.

(** Set a key that is not there, then delete it. *)
Lemma target_set_delete (key : string) (tm : gmap string json)
    (value value' : json) :
  tm !! key = None ->
  exists t1,
    apply_at_target "add" key None value (JDict tm) = Ok t1
    /\ apply_at_target "delete" key None value' t1 = Ok (JDict tm).
Proof.
  intros Hkey. exists (JDict (<[key := value]> tm)). split; [done|].
  unfold apply_at_target. simpl.
  rewrite bool_decide_eq_true_2 by (rewrite lookup_insert_eq; eauto).
  simpl. rewrite lookup_insert_eq.
  by rewrite delete_insert_eq, (delete_id _ _ Hkey).
Qed.

(** C1, as the code has it. When the navigation steps of the location find
    existing containers (no container is created or padded) and end at a
    mapping, an add followed by a delete at the same location gives back
    the document in two cases: the last step is [key[N]], the key holds a
    list and [N] is at most its length; or the last step is a plain [key]
    that the mapping does not have. And when [N] is past the end of the
    list the key holds, the add changes nothing and so does the delete. *)
Theorem add_then_delete_round_trip
    (d : json) (location : string) (init : list part) (key : string)
    (idx : option index) (tm : gmap string json) (value value' : json) :
  parse_location location = init ++ [(key, idx)] ->
  Spec.resolve init d = Some (JDict tm) ->
  match idx with
  | None => tm !! key = None
  | Some (IdxNum n) => exists l, tm !! key = Some (JList l)
  | Some IdxEnd => False
  end ->
  exists d1,
    _apply_operation d "add" location value = Ok d1
    /\ _apply_operation d1 "delete" location value' = Ok d
    /\ (forall n l, idx = Some (IdxNum n) -> tm !! key = Some (JList l) ->
                    (length l < n)%nat -> d1 = d).
Proof.
  intros Hloc Hres Hidx. unfold _apply_operation.
  rewrite Hloc, reverse_snoc, reverse_involutive.
  destruct idx as [[|n]|]; [done| |].
  - destruct Hidx as [l Hkey].
    destruct (decide (n <= length l)%nat) as [Hle|Hgt].
    + destruct (target_insert_delete key n l tm value value' Hkey Hle)
        as (t1 & Hadd & Hdel).
      destruct (navigate_round_trip init _ _ d _ t1 Hres Hadd Hdel)
        as (d1 & H1 & H2 & _).
      exists d1. split_and!; [done..|].
      intros n' l' [= <-] Hkey' Hlt. rewrite Hkey in Hkey'.
      injection Hkey' as <-. lia.
    + destruct (target_out_of_range key n l tm value value' Hkey) as [Hadd Hdel];
        [lia|].
      destruct (navigate_round_trip init _ _ d _ _ Hres Hadd Hdel)
        as (d1 & H1 & H2 & Hsame).
      exists d1. split_and!; [done..|]. intros. by apply Hsame.
  - destruct (target_set_delete key tm value value' Hidx) as (t1 & Hadd & Hdel).
    destruct (navigate_round_trip init _ _ d _ t1 Hres Hadd Hdel)
      as (d1 & H1 & H2 & _).
    exists d1. split_and!; done.
Qed.

Lemma add_then_delete_round_trip_witness :
  exists d1,
    _apply_operation Spec.nested_doc "add" "a[0].b[1]" (JStr "v") = Ok d1
    /\ _apply_operation d1 "delete" "a[0].b[1]" JNull = Ok Spec.nested_doc
    /\ (forall n l, Some (IdxNum 1) = Some (IdxNum n) ->
                    ({["b" := JList [JNum 1]]} : gmap string json) !! "b"
                    = Some (JList l) ->
                    (length l < n)%nat -> d1 = Spec.nested_doc).
Proof.
  apply (add_then_delete_round_trip Spec.nested_doc "a[0].b[1]"
           [("a", Some (IdxNum 0))] "b" (Some (IdxNum 1))
           {["b" := JList [JNum 1]]} (JStr "v") JNull).
  - vm_compute. reflexivity.
  - vm_compute. reflexivity.
  - exists [JNum 1]. vm_compute. reflexivity.
Defined.

(** C1 as stated fails. An add that overwrites a key is followed by a
    delete that removes the key; an add at [[end]] is followed by a delete
    that does nothing; an add that creates the containers on its way is
    followed by a delete that leaves them; and an add out of range at a key
    that is not there still creates an empty list. *)
Lemma add_then_delete_is_not_identity :
  (_apply_operation (JDict {["a" := JStr "x"]}) "add" "a" (JStr "y")
     = Ok (JDict {["a" := JStr "y"]})
   /\ _apply_operation (JDict {["a" := JStr "y"]}) "delete" "a" (JStr "y")
     = Ok (JDict ∅)
   /\ JDict ∅ <> JDict {["a" := JStr "x"]})
  /\ (_apply_operation (JDict {["a" := JList []]}) "add" "a[end]" (JStr "y")
       = Ok (JDict {["a" := JList [JStr "y"]]})
     /\ _apply_operation (JDict {["a" := JList [JStr "y"]]}) "delete" "a[end]"
          (JStr "y")
       = Ok (JDict {["a" := JList [JStr "y"]]})
     /\ JDict {["a" := JList [JStr "y"]]} <> JDict {["a" := JList []]})
  /\ (_apply_operation (JDict ∅) "add" "a.b" (JStr "y")
       = Ok (JDict {["a" := JDict {["b" := JStr "y"]}]})
     /\ _apply_operation (JDict {["a" := JDict {["b" := JStr "y"]}]}) "delete"
          "a.b" (JStr "y")
       = Ok (JDict {["a" := JDict ∅]})
     /\ JDict {["a" := JDict ∅]} <> JDict ∅)
  /\ (_apply_operation (JDict ∅) "add" "a[5]" (JStr "y")
       = Ok (JDict {["a" := JList []]})
     /\ JDict {["a" := JList []]} <> JDict ∅).
Proof.
  repeat split; try (vm_compute; reflexivity); intros H;
    apply (f_equal (fun j => match j with JDict m => m !! "a" | _ => None end))
      in H;
    vm_compute in H; congruence.
Qed.

(** *** Root operations *)

Section Root.
Variable json_loads : string -> option json.

Lemma apply_operations_from_app (context : json) (a b : list Operation) :
  apply_operations_from json_loads context (a ++ b)
  = (c <-- apply_operations_from json_loads context a ;;
     apply_operations_from json_loads c b).
Proof.
  revert context. induction a as [|op a IH]; intros context; simpl; [done|].
  destruct (String.eqb (location op) "root").
  - destruct (PyObj.is_dict _); [apply IH | done].
  - destruct (_apply_operation _ _ _ _) as [c|e]; simpl; [apply IH | done].
Qed.

(** C7. An operation located at [root] needs a payload that, once
    normalized, is a mapping. When it is not, the apply raises
    [ValueError] at that operation and the whole batch fails. When it is,
    the document becomes that mapping whatever it was before, so of
    several root operations the last one wins. *)
Theorem root_operation_replaces_document
    (context : json) (before after : list Operation) (op : Operation) :
  location op = "root" ->
  (PyObj.is_dict (parse_block_value json_loads (block op)) = false ->
   apply_operations_from json_loads context (op :: after) = Raise ValueError
   /\ forall previous,
        is_ok (apply_operations json_loads previous (before ++ op :: after))
        = false)
  /\ (forall m,
        parse_block_value json_loads (block op) = JDict m ->
        apply_operations_from json_loads context [op] = Ok (JDict m)
        /\ (is_ok (apply_operations_from json_loads context before) = true ->
            apply_operations_from json_loads context (before ++ op :: after)
            = apply_operations_from json_loads (JDict m) after)).
Proof.
  intros Hroot.
  assert (forall c, PyObj.is_dict (parse_block_value json_loads (block op)) = false ->
                    apply_operations_from json_loads c (op :: after)
                    = Raise ValueError) as Hbad.
  { intros c Hnd. simpl. by rewrite Hroot, Hnd. }
  split.
  - intros Hnd. split; [by apply Hbad|].
    intros previous. unfold apply_operations.
    destruct (initial_context previous) as [c|e]; simpl; [|done].
    rewrite apply_operations_from_app.
    destruct (apply_operations_from json_loads c before) as [c'|e]; simpl;
      [|done].
    by rewrite Hroot, Hnd.
  - intros m Hm. split.
    + simpl. by rewrite Hroot, Hm.
    + intros Hok. rewrite apply_operations_from_app.
      destruct (apply_operations_from json_loads context before) as [c'|e];
        [|done].
      simpl. by rewrite Hroot, Hm.
Qed.

End Root.

Lemma root_operation_replaces_document_witness :
  apply_operations_from (fun _ => None) (JDict {["old" := JNull]})
    [Spec.root_op (JDict ∅); Spec.root_op Spec.scenario_a]
  = Ok Spec.scenario_a.
Proof.
  destruct (root_operation_replaces_document (fun _ => None)
              (JDict {["old" := JNull]}) [Spec.root_op (JDict ∅)] []
              (Spec.root_op Spec.scenario_a) eq_refl) as [_ H].
  destruct (H _ eq_refl) as [_ H']. apply H'. reflexivity.
Defined.

Example root_operation_needs_mapping :
  apply_operations (fun _ => None) None [Spec.root_op (JList [JNum 1])]
  = Raise ValueError.
Proof. reflexivity. Qed.

(** Scenario B of the specification. *)
Example append_at_end :
  _apply_operation (JDict {["a" := JList [JDict {["x" := JNum 1]}]]}) "add"
    "a[end]" (JDict {["x" := JNum 2]})
  = Ok (JDict {["a" := JList [JDict {["x" := JNum 1]}; JDict {["x" := JNum 2]}]]}).
Proof. vm_compute. reflexivity. Qed.

End StructuralPatcherFacts.

(** ** The retry decorator *)

Module RetryFacts.
Import Decorators.

Section Retry.
Context {W R E : Type}.
Variable exn_str : E -> string.
Variable name : string.
Variable max_retries : Z.
Variable validation_method : validation W R E.
Variable func : W -> W * (E + R).

Local Abbreviation try_body := (try_body validation_method func).
Local Abbreviation attempts :=
  (attempts exn_str name max_retries validation_method func).
Local Abbreviation run_failing := (run_failing validation_method func).
Local Abbreviation wrapper :=
  (wrapper exn_str name max_retries validation_method func).
Local Abbreviation exhausted_message :=
  (exhausted_message exn_str name max_retries).

(** The body of [try:] never prints the start of an attempt, and prints
    nothing when it raises. *)
Lemma try_body_printed (attempt : Z) (w w' : W) (printed : log E)
    (res : raised E + R) :
  try_body attempt w = (w', printed, res) ->
  attempts_started printed = 0%nat
  /\ (forall e, res = inl e -> printed = []).
Proof.
  unfold Decorators.try_body.
  destruct (func w) as [w1 [e|r]].
  - intros [= <- <- <-]. done.
  - destruct validation_method as [| |validator].
    + intros [= <- <- <-]. done.
    + intros [= <- <- <-]. done.
    + destruct (validator r w1) as [w2 [e|[[] msg]]];
        intros [= <- <- <-]; done.
Qed.

Lemma attempts_started_app {X : Type} (a b : list (event X)) :
  attempts_started (a ++ b) = (attempts_started a + attempts_started b)%nat.
Proof. unfold attempts_started. by rewrite List.filter_app, length_app. Qed.

Lemma last_or_cons {A : Type} (before : option A) (x : A) (l : list A) :
  last_or before (x :: l) = last_or (Some x) l.
Proof.
  unfold last_or. destruct l as [|y l]; [done|].
  rewrite last_cons. by destruct (last (y :: l)).
Qed.

Lemma last_or_validation (before : option string) (e : raised E) (errs : list (raised E)) :
  last_or before (validation_reasons (e :: errs))
  = last_or (record_validation e before) (validation_reasons errs).
Proof.
  destruct e as [e|msg]; simpl; [done|].
  apply last_or_cons.
Qed.

(** The loop under attempts that all fail. *)
Lemma attempts_all_fail (remaining : list Z) :
  forall (last_error : option (raised E)) (last_validation_error : option string)
         (w w' : W) (out : log E) (errs : list (raised E)),
    run_failing remaining w = Some (w', errs) ->
    exists out',
      attempts remaining last_error last_validation_error w out
      = (w', out',
         inl (exhausted_message (last_or last_error errs)
                (last_or last_validation_error (validation_reasons errs))))
      /\ attempts_started out' = (attempts_started out + length remaining)%nat
      /\ length errs = length remaining.
Proof.
  induction remaining as [|attempt rest IH];
    intros last_error lve w w' out errs Hrun.
  - simpl in Hrun. injection Hrun as <- <-.
    exists out. simpl. split_and!; [done | lia | done].
  - simpl in Hrun. simpl.
    destruct (try_body attempt w) as [[w1 printed] [e|r]] eqn:Hbody; [|done].
    destruct (run_failing rest w1) as [[w2 errs']|] eqn:Hrest; [|done].
    injection Hrun as <- <-.
    destruct (try_body_printed _ _ _ _ _ Hbody) as [_ Hnil].
    rewrite (Hnil e eq_refl).
    edestruct (IH (Some e) (record_validation e lve) w1 w2) as (out' & H1 & H2 & H3);
      [exact Hrest|].
    exists out'. rewrite H1, last_or_cons, last_or_validation.
    split_and!; [done | | simpl; lia].
    rewrite H2, attempts_started_app. simpl. unfold attempts_started. simpl.
    destruct (attempt <? max_retries)%Z; simpl; lia.
Qed.

(** The loop under attempts that fail until one returns. *)
Lemma attempts_until_success (pre : list Z) :
  forall (attempt : Z) (post : list Z) (last_error : option (raised E))
         (last_validation_error : option string) (w w1 w2 : W) (out : log E)
         (errs : list (raised E)) (printed : log E) (r : R),
    run_failing pre w = Some (w1, errs) ->
    try_body attempt w1 = (w2, printed, inr r) ->
    exists out',
      attempts (pre ++ attempt :: post) last_error last_validation_error w out
      = (w2, out', inr r)
      /\ attempts_started out' = (attempts_started out + S (length pre))%nat.
Proof.
  induction pre as [|a pre IH];
    intros attempt post last_error lve w w1 w2 out errs printed r Hrun Hbody.
  - simpl in Hrun. injection Hrun as <- <-. simpl. rewrite Hbody.
    eexists. split; [done|].
    destruct (try_body_printed _ _ _ _ _ Hbody) as [Hzero _].
    rewrite attempts_started_app.
    change (EvAttempt attempt max_retries :: printed)
      with ([EvAttempt attempt max_retries] ++ printed).
    rewrite attempts_started_app, Hzero. unfold attempts_started. simpl. lia.
  - simpl in Hrun. simpl.
    destruct (try_body a w) as [[w' printed'] [e|r']] eqn:Ha; [|done].
    destruct (run_failing pre w') as [[w'' errs']|] eqn:Hpre; [|done].
    injection Hrun as <- <-.
    destruct (try_body_printed _ _ _ _ _ Ha) as [_ Hnil].
    rewrite (Hnil e eq_refl).
    edestruct (IH attempt post (Some e) (record_validation e lve) w' w'' w2)
      as (out' & H1 & H2); [exact Hpre | exact Hbody |].
    exists out'. rewrite H1. split; [done|].
    rewrite H2, attempts_started_app. unfold attempts_started. simpl.
    destruct (a <? max_retries)%Z; simpl; lia.
Qed.


End Retry.


(** A validator that accepts the second result: the third attempt never
    runs, and the failed validation leaves no trace in the result. *)
Example second_attempt_passes :
  exists out,
    wrapper (fun e : string => e) "Node" 3
      (Validator (fun result calls => (calls, inr (Nat.eqb result 2, "not yet"))))
      (fun calls : nat => (S calls, inr (S calls))) 0%nat
    = (2%nat, out, inr 2%nat)
    /\ attempts_started out = 2%nat.
Proof. eexists. split; reflexivity. Qed.

(** Validation that never passes: the message carries the wrapper's own
    exception and the validation reason. *)
Example validation_never_passes :
  (wrapper (fun e : string => e) "Node" 2
     (Validator (fun (result : unit) (calls : nat) =>
                   (calls, inr (false, "empty"))))
     (fun calls : nat => (S calls, inr tt)) 0%nat).2
  = inl ("[Node] Failed after 2 attempts. "
         +:+ "Last error: Validation failed: empty | Validation error: empty").
Proof. reflexivity. Qed.

End RetryFacts.

(** ** The version ledger *)

Module LedgerFacts.
Import Ledger.

Lemma value_inj (a b : DiagramType) : value a = value b -> a = b.
Proof. by destruct a, b. Qed.

Lemma update_after_run_app (diagrams : db) (records : list diagram_record) :
  update_after_run diagrams records = diagrams ++ records.
Proof.
  unfold update_after_run. revert diagrams.
  induction records as [|r records IH]; intros diagrams; simpl.
  - by rewrite app_nil_r.
  - rewrite IH. unfold add_diagram. by rewrite <- app_assoc.
Qed.

Lemma prepare_record_key (diagrams : db) (user thread message : string)
    (dtype : DiagramType) (st : DiagramState) :
  let r := prepare_record diagrams user thread message dtype st in
  user_id r = user /\ thread_id r = thread /\ diagram_type r = value dtype
  /\ diagram_id r = _generate_diagram_id user thread message (value dtype).
Proof.
  unfold prepare_record.
  by destruct (get_latest_diagram diagrams user thread (value dtype)).
Qed.

Lemma prepare_record_version (diagrams : db) (user thread message : string)
    (dtype : DiagramType) (st : DiagramState) :
  let r := prepare_record diagrams user thread message dtype st in
  match get_latest_diagram diagrams user thread (value dtype) with
  | Some latest =>
      version r = S (version latest)
      /\ parent_diagram_id r = Some (diagram_id latest)
  | None => version r = 1%nat /\ parent_diagram_id r = None
  end.
Proof.
  unfold prepare_record.
  destruct (get_latest_diagram diagrams user thread (value dtype)); simpl;
    [split; [lia | done] | done].
Qed.

(** Sorted by decreasing version, a list whose last record has the highest
    version starts with that record. *)
Lemma latest_is_last (l : list diagram_record) (x : diagram_record) :
  (forall y, y ∈ l -> (version y < version x)%nat) ->
  head (sort_by_version_desc (l ++ [x])) = Some x.
Proof.
  induction l as [|y l IH]; intros Hlt; [done|].
  assert (head (sort_by_version_desc (l ++ [x])) = Some x) as H.
  { apply IH. intros y' Hy'. apply Hlt. by right. }
  unfold sort_by_version_desc in *.
  change (foldr insert_desc [] ((y :: l) ++ [x]))
    with (insert_desc y (foldr insert_desc [] (l ++ [x]))).
  destruct (foldr insert_desc [] (l ++ [x])) as [|z s]; [done|].
  simpl in H. injection H as ->. simpl.
  replace (version y <? version x)%nat with true; [done|].
  symmetry. apply Nat.ltb_lt. apply Hlt. by left.
Qed.

(** On a well-chained chain [get_latest_diagram] returns the last record. *)
Lemma get_latest_well_chained (diagrams : db) (user thread dtype : string) :
  well_chained (matching_diagrams diagrams user thread dtype) ->
  get_latest_diagram diagrams user thread dtype
  = last (matching_diagrams diagrams user thread dtype).
Proof.
  unfold get_latest_diagram.
  generalize (matching_diagrams diagrams user thread dtype). intros c Hwc.
  induction c as [|r0 l _] using rev_ind; [done|].
  rewrite last_snoc. apply latest_is_last.
  intros y [j Hj]%list_elem_of_lookup.
  pose proof (lookup_lt_Some _ _ _ Hj) as Hlen.
  destruct (Hwc j y) as [Hvy _]; [by rewrite lookup_app_l|].
  destruct (Hwc (length l) r0) as [Hvx _].
  { by rewrite lookup_app_r, Nat.sub_diag by lia. }
  lia.
Qed.

Lemma filter_map_swap {A B : Type} (f : B -> bool) (g : A -> B) (l : list A) :
  List.filter f (map g l) = map g (List.filter (fun a => f (g a)) l).
Proof.
  induction l as [|a l IH]; simpl; [done|].
  destruct (f (g a)); simpl; by rewrite IH.
Qed.

Lemma filter_none {A : Type} (f : A -> bool) (l : list A) :
  (forall a, a ∈ l -> f a = false) -> List.filter f l = [].
Proof.
  induction l as [|a l IH]; intros H; simpl; [done|].
  rewrite (H a) by (by left). apply IH. intros b Hb. apply H. by right.
Qed.

(** Among diagram types without repetition at most one has a given value. *)
Lemma filter_types_unique (dtype : string) (types : list DiagramType) :
  NoDup types ->
  existsb (fun t => String.eqb (value t) dtype) types = true ->
  exists t, value t = dtype
            /\ List.filter (fun t => String.eqb (value t) dtype) types = [t].
Proof.
  induction 1 as [|t ts Hnotin Hnd IH]; simpl; [done|].
  destruct (String.eqb_spec (value t) dtype) as [Heq|Hne].
  - intros _. exists t. split; [done|]. f_equal.
    apply filter_none. intros t' Ht'.
    destruct (String.eqb_spec (value t') dtype) as [Heq'|]; [|done].
    exfalso. apply Hnotin. rewrite <- Heq' in Heq.
    by rewrite (value_inj _ _ Heq).
  - simpl. intros Hex. destruct (IH Hex) as (t0 & Hv & Hf). by exists t0.
Qed.

Lemma NoDup_effective_types (r : run) :
  NoDup (run_diagram_types r) -> NoDup (effective_types r).
Proof.
  unfold effective_types. destruct (run_diagram_types r); [|done].
  intros _. apply NoDup_singleton.
Qed.

(** The diagram type a run commits under a key, when it names it once. *)
Lemma commits_once_type (user thread dtype : string) (r : run) :
  commits_once user thread dtype r ->
  commits_under user thread dtype r = true ->
  exists t, value t = dtype
            /\ List.filter (fun t => String.eqb (value t) dtype) (effective_types r)
               = [t].
Proof.
  intros Honce Hc. specialize (Honce Hc).
  destruct (List.filter _ (effective_types r)) as [|t [|t' l]] eqn:Hf; try done.
  exists t. split; [|done].
  assert (In t (List.filter (fun t => String.eqb (value t) dtype)
                  (effective_types r))) as Hin by (rewrite Hf; by left).
  apply filter_In in Hin as [_ Hin]. by apply String.eqb_eq.
Qed.

(** A run that names no diagram type twice commits once under every key it
    commits under. *)
Lemma NoDup_commits_once (user thread dtype : string) (r : run) :
  NoDup (run_diagram_types r) -> commits_once user thread dtype r.
Proof.
  intros Hnd%NoDup_effective_types Hc.
  unfold commits_under in Hc. apply andb_true_iff in Hc as [_ Hex].
  by destruct (filter_types_unique dtype _ Hnd Hex) as (t & _ & ->).
Qed.

(** The records a run writes under a key: none when the run is for another
    key, and one when it commits under the key. *)
Lemma run_driver_chain_once (diagrams : db) (r : run) (user thread dtype : string) :
  commits_once user thread dtype r ->
  matching_diagrams (run_driver diagrams r) user thread dtype
  = matching_diagrams diagrams user thread dtype
    ++ if commits_under user thread dtype r
       then [prepare_record diagrams user thread (run_message_id r)
               (default CLASS
                  (head (List.filter (fun t => String.eqb (value t) dtype)
                           (effective_types r))))
               (run_state r
                  (default CLASS
                     (head (List.filter (fun t => String.eqb (value t) dtype)
                              (effective_types r)))))]
       else [].
Proof.
  intros Honce.
  unfold run_driver, matching_diagrams.
  rewrite update_after_run_app, List.filter_app. f_equal.
  rewrite filter_map_swap.
  pose proof (commits_once_type user thread dtype r Honce) as Htype.
  unfold commits_under in *.
  set (f := fun a => matches user thread dtype _).
  destruct (String.eqb_spec (run_user_id r) user) as [Hu|Hu].
  2:{ simpl. rewrite filter_none; [done|]. intros a _. subst f. simpl.
      unfold matches.
      destruct (prepare_record_key diagrams (run_user_id r) (run_thread_id r)
                  (run_message_id r) a (run_state r a)) as (-> & _).
      by destruct (String.eqb_spec (run_user_id r) user). }
  destruct (String.eqb_spec (run_thread_id r) thread) as [Ht|Ht].
  2:{ simpl. rewrite filter_none; [done|]. intros a _. subst f. simpl.
      unfold matches.
      destruct (prepare_record_key diagrams (run_user_id r) (run_thread_id r)
                  (run_message_id r) a (run_state r a)) as (_ & -> & _).
      destruct (String.eqb_spec (run_thread_id r) thread); [done|].
      by rewrite andb_false_r. }
  simpl in *.
  assert (List.filter f (effective_types r)
          = List.filter (fun t => String.eqb (value t) dtype) (effective_types r))
    as ->.
  { apply List.filter_ext. intros a. subst f. simpl. unfold matches.
    destruct (prepare_record_key diagrams (run_user_id r) (run_thread_id r)
                (run_message_id r) a (run_state r a)) as (-> & -> & -> & _).
    rewrite Hu, Ht, !String.eqb_refl. done. }
  destruct (existsb _ (effective_types r)) eqn:Hex.
  - destruct (Htype eq_refl) as (t0 & Hv & ->).
    simpl. by rewrite Hu, Ht.
  - rewrite filter_none; [done|]. intros a Ha.
    destruct (String.eqb (value a) dtype) eqn:Hva; [|done].
    assert (existsb (fun t => String.eqb (value t) dtype) (effective_types r) = true)
      as Hex'; [|congruence].
    apply existsb_exists. exists a. split; [|done]. by apply list_elem_of_In.
Qed.

Lemma run_driver_chain (diagrams : db) (r : run) (user thread dtype : string) :
  NoDup (run_diagram_types r) ->
  matching_diagrams (run_driver diagrams r) user thread dtype
  = matching_diagrams diagrams user thread dtype
    ++ if commits_under user thread dtype r
       then [prepare_record diagrams user thread (run_message_id r)
               (default CLASS
                  (head (List.filter (fun t => String.eqb (value t) dtype)
                           (effective_types r))))
               (run_state r
                  (default CLASS
                     (head (List.filter (fun t => String.eqb (value t) dtype)
                              (effective_types r)))))]
       else [].
Proof.
  intros Hnd. apply run_driver_chain_once. by apply NoDup_commits_once.
Qed.

(** A run that commits once under the key keeps a well-chained chain well
    chained. *)
Lemma run_driver_well_chained_once (diagrams : db) (r : run)
    (user thread dtype : string) :
  commits_once user thread dtype r ->
  well_chained (matching_diagrams diagrams user thread dtype) ->
  well_chained (matching_diagrams (run_driver diagrams r) user thread dtype).
Proof.
  intros Honce Hwc. rewrite run_driver_chain_once by done.
  destruct (commits_under user thread dtype r) eqn:Hc; [|by rewrite app_nil_r].
  set (t0 := default CLASS _).
  assert (value t0 = dtype) as Hv.
  { destruct (commits_once_type user thread dtype r Honce Hc) as (t1 & Hv & Hf).
    subst t0. by rewrite Hf. }
  pose proof (prepare_record_version diagrams user thread (run_message_id r) t0
                (run_state r t0)) as Hver.
  simpl in Hver. rewrite Hv, (get_latest_well_chained _ _ _ _ Hwc) in Hver.
  set (chain := matching_diagrams diagrams user thread dtype) in *.
  intros i rec Hi.
  destruct (decide (i < length chain)%nat) as [Hlt|Hge].
  - rewrite lookup_app_l in Hi by done.
    destruct (Hwc i rec Hi) as [H1 H2]. split; [done|].
    destruct i as [|j]; [done|]. rewrite lookup_app_l by lia. done.
  - pose proof (lookup_lt_Some _ _ _ Hi) as Hlen.
    rewrite length_app in Hlen. simpl in Hlen.
    assert (i = length chain) as -> by lia.
    rewrite lookup_app_r, Nat.sub_diag in Hi by lia.
    injection Hi as <-.
    clearbody chain. induction chain as [|r0 c0 _] using rev_ind; simpl in *.
    + done.
    + rewrite last_snoc in Hver. destruct Hver as [Hv1 Hv2].
      destruct (Hwc (length c0) r0) as [Hr0 _].
      { by rewrite lookup_app_r, Nat.sub_diag by lia. }
      rewrite Hv1, Hv2, Hr0, length_app. simpl.
      split; [lia|].
      replace (length c0 + 1)%nat with (S (length c0)) by lia.
      rewrite lookup_app_l by (rewrite length_app; simpl; lia).
      by rewrite lookup_app_r, Nat.sub_diag by lia.
Qed.

(** A run keeps a well-chained chain well chained. *)
Lemma run_driver_well_chained (diagrams : db) (r : run)
    (user thread dtype : string) :
  NoDup (run_diagram_types r) ->
  well_chained (matching_diagrams diagrams user thread dtype) ->
  well_chained (matching_diagrams (run_driver diagrams r) user thread dtype).
Proof.
  intros Hnd. apply run_driver_well_chained_once. by apply NoDup_commits_once.
Qed.

Lemma run_all_snoc (diagrams : db) (runs : list run) (r : run) :
  run_all diagrams (runs ++ [r]) = run_driver (run_all diagrams runs) r.
Proof. unfold run_all. by rewrite foldl_app. Qed.

(** Splits the hypothesis on the runs [runs ++ [r]] into the one on [runs]
    and the one on [r]. *)
Ltac split_last_run Hnd Hr :=
  apply Forall_app in Hnd as [Hnd Hr]; rewrite Forall_singleton in Hr.

(** The key has as many diagrams as runs committed under it. *)
Lemma run_all_chain_length_once
    (diagrams : db) (runs : list run) (user thread dtype : string) :
  matching_diagrams diagrams user thread dtype = [] ->
  Forall (commits_once user thread dtype) runs ->
  length (matching_diagrams (run_all diagrams runs) user thread dtype)
  = length (List.filter (commits_under user thread dtype) runs).
Proof.
  intros Hempty Honce.
  induction runs as [|r runs IH] using rev_ind.
  - unfold run_all. simpl. by rewrite Hempty.
  - split_last_run Honce Hr.
    rewrite run_all_snoc, run_driver_chain_once, List.filter_app, !length_app
      by done.
    rewrite (IH Honce). simpl.
    by destruct (commits_under user thread dtype r).
Qed.

Lemma run_all_chain_length
    (diagrams : db) (runs : list run) (user thread dtype : string) :
  matching_diagrams diagrams user thread dtype = [] ->
  Forall (fun r => NoDup (run_diagram_types r)) runs ->
  length (matching_diagrams (run_all diagrams runs) user thread dtype)
  = length (List.filter (commits_under user thread dtype) runs).
Proof.
  intros Hempty Hnd. apply run_all_chain_length_once; [done|].
  eapply Forall_impl; [exact Hnd|]. intros r Hr. by apply NoDup_commits_once.
Qed.

(** C4, as the code has it. Runs of the driver each of which commits one
    artifact under the key (a run that commits under the key names the
    diagram type of the key once; runs for other keys are free) give the
    diagrams of the key the versions 1, 2, ..., N in the order of the
    commits, the first without parent and every other one with the diagram
    id of the previous commit as parent; and a run that does not commit
    under the key leaves the diagrams of the key as they were, whatever
    else it commits. *)
Theorem ledger_versions_are_chained
    (diagrams : db) (runs : list run) (user thread dtype : string) :
  matching_diagrams diagrams user thread dtype = [] ->
  Forall (commits_once user thread dtype) runs ->
  let chain := matching_diagrams (run_all diagrams runs) user thread dtype in
  let commits := List.filter (commits_under user thread dtype) runs in
  length chain = length commits
  /\ well_chained chain
  /\ (forall i rec,
        chain !! i = Some rec ->
        exists r, commits !! i = Some r
                  /\ diagram_id rec
                     = _generate_diagram_id user thread (run_message_id r) dtype)
  /\ (forall (other : db) (r : run),
        commits_under user thread dtype r = false ->
        matching_diagrams (run_driver other r) user thread dtype
        = matching_diagrams other user thread dtype).
Proof.
  intros Hempty Hnd. cbv zeta.
  assert (run_all diagrams [] = diagrams) as Hnil by done.
  split_and!.
  - by apply run_all_chain_length_once.
  - induction runs as [|r runs IH] using rev_ind.
    + rewrite Hnil, Hempty. by intros i rec.
    + split_last_run Hnd Hr.
      rewrite run_all_snoc. apply run_driver_well_chained_once; auto.
  - induction runs as [|r runs IH] using rev_ind.
    + rewrite Hnil, Hempty. by intros i rec.
    + split_last_run Hnd Hr.
      pose proof (run_all_chain_length_once diagrams runs user thread dtype
                    Hempty Hnd) as Hlen.
      rewrite run_all_snoc, run_driver_chain_once, List.filter_app by done.
      intros i rec Hi. simpl.
      destruct (decide (i < length (matching_diagrams (run_all diagrams runs)
                                      user thread dtype))%nat) as [Hlt|Hge].
      * rewrite lookup_app_l in Hi by done.
        destruct (IH Hnd i rec Hi) as (r' & Hr' & Hid).
        exists r'. split; [|done]. rewrite lookup_app_l; [done|]. lia.
      * destruct (commits_under user thread dtype r) eqn:Hc.
        2:{ rewrite app_nil_r in Hi. apply lookup_lt_Some in Hi. lia. }
        pose proof (lookup_lt_Some _ _ _ Hi) as Hi'.
        rewrite length_app in Hi'. simpl in Hi'.
        assert (i = length (matching_diagrams (run_all diagrams runs)
                              user thread dtype)) as -> by lia.
        rewrite lookup_app_r, Nat.sub_diag in Hi by lia.
        injection Hi as <-.
        exists r. rewrite Hlen, lookup_app_r, Nat.sub_diag by lia.
        split; [done|].
        set (t0 := default CLASS _).
        assert (value t0 = dtype) as Hv.
        { destruct (commits_once_type user thread dtype r Hr Hc)
            as (t1 & Hv & Hf).
          subst t0. by rewrite Hf. }
        destruct (prepare_record_key (run_all diagrams runs) user thread
                    (run_message_id r) t0 (run_state r t0)) as (_ & _ & _ & ->).
        by rewrite Hv.
  - intros other r Hc.
    rewrite run_driver_chain_once by (intros Hc'; congruence).
    by rewrite Hc, app_nil_r.
Qed.

Lemma ledger_versions_are_chained_witness :
  map (fun r => (diagram_id r, version r, parent_diagram_id r))
    (matching_diagrams (run_all [] Spec.sample_runs) "u" "t" "class")
  = [("u_t_m1_class", 1%nat, None);
     ("u_t_m3_class", 2%nat, Some "u_t_m1_class")]
  /\ well_chained (matching_diagrams (run_all [] Spec.sample_runs) "u" "t" "class").
Proof.
  split; [reflexivity|].
  apply (ledger_versions_are_chained [] Spec.sample_runs "u" "t" "class").
  - reflexivity.
  - repeat constructor; intros _; reflexivity.
Defined.

(** C4 as stated fails: a run that names the class diagram twice commits
    two artifacts under one key, and both get version 1, no parent and the
    same diagram id. *)
Lemma repeated_type_repeats_version :
  map (fun r => (diagram_id r, version r, parent_diagram_id r))
    (matching_diagrams
       (run_all []
          [ {| run_user_id := "u"; run_thread_id := "t";
               run_message_id := "m1";
               run_diagram_types := [CLASS; CLASS];
               run_state := Spec.no_paths |} ])
       "u" "t" "class")
  = [("u_t_m1_class", 1%nat, None); ("u_t_m1_class", 1%nat, None)]
  /\ ~ well_chained
         (matching_diagrams
            (run_all []
               [ {| run_user_id := "u"; run_thread_id := "t";
                    run_message_id := "m1";
                    run_diagram_types := [CLASS; CLASS];
                    run_state := Spec.no_paths |} ])
            "u" "t" "class").
Proof.
  split; [reflexivity|].
  intros Hwc.
  destruct (Hwc 1%nat
              {| diagram_id := "u_t_m1_class"; parent_diagram_id := None;
                 version := 1; user_id := "u"; thread_id := "t";
                 message_id := "m1"; diagram_type := "class";
                 context_file_path := None; plantuml_code_file_path := None;
                 diagram_png_file_path := None |} eq_refl) as [Hv _].
  discriminate Hv.
Qed.

End LedgerFacts.

(** * Further properties *)

(** ** Further properties of the structural patcher *)

Module StructuralPatcherMore.
Import ContextExtractor PyFacts.

Lemma ensure_key_dict (m : gmap string json) (key : string) (fresh : json) :
  ensure_key (JDict m) key fresh
  = Ok (JDict (match m !! key with
               | Some _ => m
               | None => <[key := fresh]> m
               end)).
Proof.
  unfold ensure_key. simpl.
  destruct (m !! key) as [v|] eqn:Hkey.
  - by rewrite bool_decide_eq_true_2 by eauto.
  - rewrite bool_decide_eq_false_2; [done|]. by intros [? ?].
Qed.

Lemma ensure_key_lookup (m : gmap string json) (key : string) (fresh : json) :
  exists m1,
    ensure_key (JDict m) key fresh = Ok (JDict m1)
    /\ is_Some (m1 !! key)
    /\ (forall k, k <> key -> m1 !! k = m !! k).
Proof.
  rewrite ensure_key_dict. destruct (m !! key) as [v|] eqn:Hkey.
  - exists m. by rewrite Hkey.
  - exists (<[key := fresh]> m). split; [done|]. split.
    + rewrite lookup_insert_eq. eauto.
    + intros k Hk. by rewrite lookup_insert_ne.
Qed.

(** The target operation keeps a mapping a mapping and touches one key. *)
Lemma apply_at_target_dict (operation key : string) (idx : option index)
    (value : json) (m : gmap string json) (r : json) :
  apply_at_target operation key idx value (JDict m) = Ok r ->
  exists m', r = JDict m' /\ (forall k, k <> key -> m' !! k = m !! k).
Proof.
  unfold apply_at_target.
  destruct (String.eqb operation "add").
  - destruct idx as [i|].
    + destruct (ensure_key_lookup m key (JList [])) as (m1 & -> & [tgt Htgt] & Hm1).
      simpl. rewrite Htgt. simpl.
      destruct i as [|n].
      * destruct tgt; try done. intros [= <-]. eexists. split; [done|].
        intros k Hk. rewrite lookup_insert_ne by done. by apply Hm1.
      * destruct (PyObj.len tgt) as [len|]; [|done]. simpl.
        destruct (n <=? len)%nat.
        -- destruct tgt; try done. intros [= <-]. eexists. split; [done|].
           intros k Hk. rewrite lookup_insert_ne by done. by apply Hm1.
        -- intros [= <-]. eauto.
    + simpl. intros [= <-]. eexists. split; [done|].
      intros k Hk. by rewrite lookup_insert_ne.
  - destruct (String.eqb operation "delete"); [|intros [= <-]; eauto].
    destruct idx as [i|]; simpl.
    + destruct (bool_decide (is_Some (m !! key))); [|intros [= <-]; eauto].
      destruct (m !! key) as [tgt|]; [|done]. simpl.
      destruct tgt; try (intros [= <-]; eauto).
      destruct i as [|n]; [intros [= <-]; eauto|].
      destruct (n <? length l)%nat; intros [= <-]; [|eauto].
      eexists. split; [done|]. intros k Hk. by rewrite lookup_insert_ne.
    + destruct (bool_decide (is_Some (m !! key))); [|intros [= <-]; eauto].
      simpl. destruct (m !! key); [|done]. intros [= <-].
      eexists. split; [done|]. intros k Hk. by rewrite lookup_delete_ne.
Qed.

(** Navigation from a mapping gives back a mapping. *)
Lemma navigate_dict (parts : list part) (target : json -> result json) :
  (forall m r, target (JDict m) = Ok r -> PyObj.is_dict r = true) ->
  forall m r, navigate parts target (JDict m) = Ok r -> PyObj.is_dict r = true.
Proof.
  intros Htarget. induction parts as [|[key idx] rest IH]; intros m r.
  - apply Htarget.
  - simpl. destruct (ensure_key_lookup m key (fresh_container idx))
      as (m1 & -> & [c Hc] & _).
    simpl. destruct idx as [[|n]|].
    + apply IH.
    + rewrite Hc. simpl. destruct (PyObj.len c) as [len|]; [|done]. simpl.
      destruct c; try (by destruct (n <? len)%nat).
      * destruct (n <? len)%nat; [|done].
        destruct (String.get n s); [|done].
        destruct (navigate rest target _); [|done]. by intros [= <-].
      * destruct (_ !! n); [|done].
        destruct (navigate rest target _); [|done]. by intros [= <-].
    + rewrite Hc. simpl. destruct (navigate rest target c); [|done].
      by intros [= <-].
Qed.

Lemma apply_operation_dict (m : gmap string json) (operation location : string)
    (value r : json) :
  _apply_operation (JDict m) operation location value = Ok r ->
  PyObj.is_dict r = true.
Proof.
  unfold _apply_operation.
  destruct (reverse (parse_location location)) as [|[last_key last_index] rev_init];
    [done|].
  apply navigate_dict. intros m0 r0 H.
  by destruct (apply_at_target_dict _ _ _ _ _ _ H) as (m' & -> & _).
Qed.

(** X1. Whatever the operations, a batch that starts from no previous
    context or from a mapping and does not raise ends in a mapping: what
    [save_context_file] requires of the context it is given. *)
Theorem apply_operations_gives_mapping
    (json_loads : string -> option json) (previous_context : option json)
    (operations : list Operation) (context : json) :
  match previous_context with
  | Some c => PyObj.is_dict c = true
  | None => True
  end ->
  apply_operations json_loads previous_context operations = Ok context ->
  PyObj.is_dict context = true.
Proof.
  intros Hprev. unfold apply_operations.
  assert (exists c0, initial_context previous_context = Ok c0
                     /\ PyObj.is_dict c0 = true) as (c0 & -> & Hc0).
  { destruct previous_context as [c|]; simpl; [|by eexists].
    destruct c; try done. destruct (PyObj.truthy (JDict m)); by eexists. }
  simpl. revert c0 Hc0.
  induction operations as [|op rest IH]; intros c0 Hc0; simpl.
  - by intros [= <-].
  - destruct (String.eqb (location op) "root").
    + destruct (PyObj.is_dict (parse_block_value json_loads (block op))) eqn:Hd;
        [|done].
      by apply IH.
    + destruct c0; try done.
      destruct (_apply_operation _ _ _ _) as [c1|] eqn:Hop; [|done]. simpl.
      apply IH. by apply apply_operation_dict in Hop.
Qed.

Lemma apply_operations_gives_mapping_witness :
  PyObj.is_dict
    (JDict {["a" := JList [JDict ∅; JDict {["b" := JStr "v"]}]]}) = true.
Proof.
  apply (apply_operations_gives_mapping (fun _ => None) None
           [ {| operation := "add"; location := "a[1].b"; block := JStr "v";
                reasoning := "" |} ]).
  - exact I.
  - vm_compute. reflexivity.
Defined.

End StructuralPatcherMore.

Module StructuralPatcherCompose.
Import ContextExtractor PyFacts StructuralPatcherFacts StructuralPatcherMore.

(** Navigation whose first step descends writes back under the key of that
    step only. *)
Lemma navigate_first_key (key : string) (idx : option index) (rest : list part)
    (target : json -> result json) (m : gmap string json) (r : json) :
  idx <> Some IdxEnd ->
  navigate ((key, idx) :: rest) target (JDict m) = Ok r ->
  exists m', r = JDict m' /\ (forall k, k <> key -> m' !! k = m !! k).
Proof.
  intros Hidx. simpl.
  destruct (ensure_key_lookup m key (fresh_container idx))
    as (m1 & -> & [c Hc] & Hm1).
  simpl. destruct idx as [[|n]|]; [done| |].
  - rewrite Hc. simpl. destruct (PyObj.len c) as [len|]; [|done]. simpl.
    destruct c; try (by destruct (n <? len)%nat).
    + destruct (n <? len)%nat; [|done].
      destruct (String.get n s); [|done].
      destruct (navigate rest target _); [|done]. intros [= <-]. eauto.
    + destruct (_ !! n); [|done].
      destruct (navigate rest target _); [|done]. intros [= <-].
      eexists. split; [done|]. intros k Hk. rewrite lookup_insert_ne by done.
      by apply Hm1.
  - rewrite Hc. simpl. destruct (navigate rest target c); [|done].
    intros [= <-]. eexists. split; [done|].
    intros k Hk. rewrite lookup_insert_ne by done. by apply Hm1.
Qed.

(** X2. An operation on a mapping whose location starts with the key [key]
    (not a [key[end]] step unless it is the only step) leaves the values of
    all other keys of the mapping as they were. *)
Theorem operation_touches_one_top_level_key
    (m : gmap string json) (operation location : string) (value r : json)
    (key : string) (idx : option index) (rest : list part) :
  parse_location location = (key, idx) :: rest ->
  rest = [] \/ idx <> Some IdxEnd ->
  _apply_operation (JDict m) operation location value = Ok r ->
  exists m', r = JDict m' /\ (forall k, k <> key -> m' !! k = m !! k).
Proof.
  intros Hloc Hidx. unfold _apply_operation. rewrite Hloc.
  destruct rest as [|last rest' _] using rev_ind.
  - simpl. apply apply_at_target_dict.
  - destruct Hidx as [Hnil|Hidx]; [by destruct rest'|].
    rewrite app_comm_cons, reverse_snoc. destruct last as [last_key last_index].
    rewrite reverse_involutive. by apply navigate_first_key.
Qed.

Lemma operation_touches_one_top_level_key_witness :
  exists m',
    JDict {["a" := JDict {["b" := JStr "v"]}; "z" := JNum 7]} = JDict m'
    /\ (forall k, k <> "a" ->
                  m' !! k = ({["z" := JNum 7]} : gmap string json) !! k).
Proof.
  apply (operation_touches_one_top_level_key {["z" := JNum 7]} "add" "a.b"
           (JStr "v") _ "a" None [("b", None)]).
  - reflexivity.
  - by right.
  - vm_compute. reflexivity.
Defined.

(** *** Two operations along the same path *)

Lemma navigate_ext (parts : list part) (f g : json -> result json) :
  (forall t, f t = g t) -> forall d, navigate parts f d = navigate parts g d.
Proof.
  intros Hfg. induction parts as [|[key idx] rest IH]; intros d; simpl; [done|].
  destruct (ensure_key d key (fresh_container idx)) as [cur1|]; [|done]. simpl.
  destruct idx as [[|n]|]; [done| |].
  - destruct (PyObj.getitem cur1 key) as [c|]; [|done]. simpl.
    destruct (PyObj.len c) as [len|]; [|done]. simpl.
    destruct c; try done.
    + destruct (n <? len)%nat; [|done]. destruct (String.get n s); [|done].
      by rewrite IH.
    + destruct (_ !! n); [|done]. by rewrite IH.
  - destruct (PyObj.getitem cur1 key) as [c|]; [|done]. simpl. by rewrite IH.
Qed.

(** A target operation that cannot change a string leaves a string as it is
    along any path. *)
Lemma navigate_string_fixed (parts : list part) (f : json -> result json) :
  (forall s r, f (JStr s) = Ok r -> r = JStr s) ->
  forall s r, navigate parts f (JStr s) = Ok r -> r = JStr s.
Proof.
  intros Hf. induction parts as [|[key idx] rest IH]; intros s r; simpl.
  - apply Hf.
  - unfold ensure_key. simpl. destruct (Py.contains key s); simpl; [|done].
    destruct idx as [[|n]|]; [apply IH|done|done].
Qed.

(** Running [g] along a path after [f] ran along it is running [f] and then
    [g] at the place the path leads to: the second navigation finds what the
    first one created. *)
Lemma navigate_compose (parts : list part) (f g : json -> result json) :
  PathSpec.no_end_steps parts = true ->
  (forall s r, f (JStr s) = Ok r -> r = JStr s) ->
  forall d d1,
    navigate parts f d = Ok d1 ->
    navigate parts g d1 = navigate parts (fun t => t1 <-- f t ;; g t1) d.
Proof.
  intros Hend Hf. induction parts as [|[key idx] rest IH]; intros d d1.
  - simpl. by intros ->.
  - simpl in Hend. apply andb_true_iff in Hend as [Hidx Hend].
    specialize (IH Hend). simpl.
    destruct (ensure_key d key (fresh_container idx)) as [cur1|] eqn:Hens;
      [|done].
    simpl. destruct idx as [[|n]|]; [done| |].
    + destruct (PyObj.getitem cur1 key) as [c|] eqn:Hget; [|done]. simpl.
      destruct cur1 as [| | | | |mc]; try done. simpl in Hget.
      destruct (mc !! key) as [c'|] eqn:Hkey; [|done]. injection Hget as ->.
      destruct (PyObj.len c) as [len|] eqn:Hlen; [|done]. simpl.
      destruct c as [| | |s|l|]; try done; try (by destruct (n <? len)%nat).
      * simpl in Hlen. injection Hlen as <-.
        destruct (n <? String.length s)%nat eqn:Hn; [|done].
        destruct (String.get n s) as [ch|] eqn:Hch; [|done].
        destruct (navigate rest f (JStr (String ch ""))) as [x|] eqn:Hnav; [|done].
        simpl. intros [= <-].
        rewrite (ensure_key_present _ _ _ _ Hkey). simpl. rewrite Hkey. simpl.
        rewrite Hn, Hch.
        pose proof (navigate_string_fixed rest f Hf _ _ Hnav) as ->.
        by rewrite (IH _ _ Hnav).
      * simpl in Hlen. injection Hlen as <-.
        set (l' := if (n <? length l)%nat then l
                   else l ++ replicate (S n - length l) (JDict ∅)).
        assert (n < length l')%nat as Hn'.
        { subst l'. destruct (n <? length l)%nat eqn:Hn.
          - by apply Nat.ltb_lt.
          - apply Nat.ltb_ge in Hn. rewrite length_app, length_replicate. lia. }
        destruct (l' !! n) as [child|] eqn:Hchild; [|done].
        destruct (navigate rest f child) as [child'|] eqn:Hnav; [|done].
        simpl. intros [= <-].
        erewrite ensure_key_present by apply lookup_insert_eq.
        simpl. rewrite lookup_insert_eq. simpl. rewrite length_insert.
        replace (n <? length l')%nat with true by (symmetry; by apply Nat.ltb_lt).
        rewrite list_lookup_insert_eq by done.
        rewrite (IH _ _ Hnav).
        match goal with
        | |- context [navigate rest ?h child] =>
            destruct (navigate rest h child) as [x|]; [|done]
        end.
        simpl. by rewrite list_insert_insert_eq, insert_insert_eq.
    + destruct (PyObj.getitem cur1 key) as [c|] eqn:Hget; [|done]. simpl.
      destruct cur1 as [| | | | |mc]; try done. simpl in Hget.
      destruct (mc !! key) as [c'|] eqn:Hkey; [|done]. injection Hget as ->.
      destruct (navigate rest f c) as [child'|] eqn:Hnav; [|done].
      simpl. intros [= <-].
      erewrite ensure_key_present by apply lookup_insert_eq.
      simpl. rewrite lookup_insert_eq. simpl.
      rewrite (IH _ _ Hnav).
      match goal with
      | |- context [navigate rest ?h c] =>
          destruct (navigate rest h c) as [x|]; [|done]
      end.
      simpl. by rewrite insert_insert_eq.
Qed.

Lemma apply_operation_parts (context : json) (operation location : string)
    (value : json) (init : list part) (key : string) (idx : option index) :
  parse_location location = init ++ [(key, idx)] ->
  _apply_operation context operation location value
  = navigate init (apply_at_target operation key idx value) context.
Proof.
  intros Hloc. unfold _apply_operation.
  by rewrite Hloc, reverse_snoc, reverse_involutive.
Qed.

(** X3. Adding at a plain key twice is adding the second value: along a path
    without [key[end]] navigation steps, whatever the first add created on
    its way, the second add overwrites what the first one set. *)
Theorem add_at_key_overwrites
    (d d1 : json) (location : string) (init : list part) (key : string)
    (v1 v2 : json) :
  parse_location location = init ++ [(key, None)] ->
  PathSpec.no_end_steps init = true ->
  _apply_operation d "add" location v1 = Ok d1 ->
  _apply_operation d1 "add" location v2 = _apply_operation d "add" location v2.
Proof.
  intros Hloc Hend. rewrite !(apply_operation_parts _ _ _ _ _ _ _ Hloc).
  intros H1.
  rewrite (navigate_compose init (apply_at_target "add" key None v1)
             (apply_at_target "add" key None v2) Hend) with (d := d); [| |done].
  - apply navigate_ext. intros t. destruct t; try done.
    unfold apply_at_target. simpl. by rewrite insert_insert_eq.
  - intros s r. unfold apply_at_target. by simpl.
Qed.

Lemma add_at_key_overwrites_witness :
  _apply_operation (JDict {["a" := JDict {["b" := JStr "x"]}]}) "add" "a.b"
    (JStr "y")
  = _apply_operation (JDict ∅) "add" "a.b" (JStr "y").
Proof.
  apply (add_at_key_overwrites (JDict ∅) _ "a.b" [("a", None)] "b" (JStr "x")).
  - reflexivity.
  - reflexivity.
  - vm_compute. reflexivity.
Defined.

(** X4. Deleting a key twice is deleting it once: after a delete at a plain
    key that did not raise, the same delete changes nothing. *)
Theorem delete_key_twice
    (d d1 : json) (location : string) (init : list part) (key : string)
    (v1 v2 : json) :
  parse_location location = init ++ [(key, None)] ->
  PathSpec.no_end_steps init = true ->
  _apply_operation d "delete" location v1 = Ok d1 ->
  _apply_operation d1 "delete" location v2 = Ok d1.
Proof.
  intros Hloc Hend. rewrite !(apply_operation_parts _ _ _ _ _ _ _ Hloc).
  intros H1.
  rewrite (navigate_compose init (apply_at_target "delete" key None v1)
             (apply_at_target "delete" key None v2) Hend) with (d := d);
    [| |done].
  - rewrite <- H1. apply navigate_ext. intros t.
    unfold apply_at_target. simpl.
    destruct t as [| | |s|l|m]; simpl; try done.
    + by destruct (Py.contains key s) eqn:Hc; simpl; [|rewrite Hc].
    + by destruct (existsb (PyObj.eq_str key) l) eqn:Hc; simpl; [|rewrite Hc].
    + destruct (m !! key) as [c|] eqn:Hkey.
      * rewrite bool_decide_eq_true_2 by eauto. simpl.
        rewrite bool_decide_eq_false_2; [done|].
        rewrite lookup_delete_eq. by intros [? ?].
      * rewrite bool_decide_eq_false_2 by (by intros [? ?]). simpl.
        rewrite Hkey, bool_decide_eq_false_2; [done|]. by intros [? ?].
  - intros s r. unfold apply_at_target. simpl.
    destruct (Py.contains key s); simpl; [done|]. by intros [= <-].
Qed.

Lemma delete_key_twice_witness :
  _apply_operation (JDict {["a" := JList [JDict ∅]]}) "delete" "a[0].b" JNull
  = Ok (JDict {["a" := JList [JDict ∅]]}).
Proof.
  apply (delete_key_twice (JDict {["a" := JList [JDict {["b" := JStr "x"]}]]}) _
           "a[0].b" [("a", Some (IdxNum 0))] "b" JNull).
  - reflexivity.
  - reflexivity.
  - vm_compute. reflexivity.
Defined.

End StructuralPatcherCompose.

(** ** Strings: splitting, joining and decimal numbers *)

Module PyMore.
Import PyFacts.

Lemma split_nonempty (sep : ascii) (s : string) : Py.split sep s <> [].
Proof.
  destruct s as [|c s]; simpl; [done|].
  destruct (Ascii.eqb c sep); [done|]. by destruct (Py.split sep s).
Qed.

(** The pieces of [a], the separator and [b] are the pieces of [a] and then
    the pieces of [b]. *)
Lemma split_app_sep (sep : ascii) (a b : string) :
  Py.split sep (a +:+ String sep "" +:+ b) = Py.split sep a ++ Py.split sep b.
Proof.
  induction a as [|c a IH].
  - autorewrite with pystr. simpl. by rewrite Ascii.eqb_refl.
  - rewrite app_String. simpl. rewrite IH.
    destruct (Ascii.eqb c sep); [done|].
    pose proof (split_nonempty sep a).
    by destruct (Py.split sep a).
Qed.

Lemma split_sep_free (sep : ascii) (s : string) :
  Py.all_chars (fun c => negb (Ascii.eqb c sep)) s = true ->
  Py.split sep s = [s].
Proof.
  induction s as [|c s IH]; simpl; [done|].
  intros [Hc Hs]%andb_true_iff. apply negb_true_iff in Hc.
  by rewrite Hc, IH.
Qed.

(** Every piece of a split is free of the separator. *)
Lemma split_pieces_sep_free (sep : ascii) (s : string) :
  Forall (fun piece => Py.all_chars (fun c => negb (Ascii.eqb c sep)) piece = true)
    (Py.split sep s).
Proof.
  induction s as [|c s IH]; simpl; [by repeat constructor|].
  destruct (Ascii.eqb c sep) eqn:Hc; [by constructor|].
  destruct (Py.split sep s) as [|h t]; [by repeat constructor; simpl; rewrite Hc|].
  inversion IH as [|? ? Hh Ht]; subst. constructor; [|done].
  simpl. by rewrite Hc, Hh.
Qed.

Lemma concat_cons2 (sep x y : string) (l : list string) :
  String.concat sep (x :: y :: l) = x +:+ sep +:+ String.concat sep (y :: l).
Proof. reflexivity. Qed.

(** Joining the pieces of a split gives the string back. *)
Lemma join_split (sep : ascii) (s : string) :
  Py.join (String sep "") (Py.split sep s) = s.
Proof.
  unfold Py.join. induction s as [|c s IH]; [done|].
  pose proof (split_nonempty sep s) as Hne.
  change (Py.split sep (String c s))
    with (if Ascii.eqb c sep then "" :: Py.split sep s
          else match Py.split sep s with
               | h :: t => String c h :: t
               | [] => [String c ""]
               end).
  destruct (Py.split sep s) as [|h t]; [done|].
  destruct (Ascii.eqb_spec c sep) as [->|Hc].
  - rewrite concat_cons2, IH. by autorewrite with pystr.
  - destruct t as [|y t].
    + simpl in *. by rewrite IH.
    + rewrite concat_cons2, app_String, <- concat_cons2. by rewrite IH.
Qed.

(** Splitting a join of strings gives the pieces of the strings, in order. *)
Lemma split_join (sep : ascii) (ls : list string) :
  ls <> [] ->
  Py.split sep (Py.join (String sep "") ls) = concat (map (Py.split sep) ls).
Proof.
  unfold Py.join. induction ls as [|x ls IH]; [done|]. intros _.
  destruct ls as [|y ls].
  - simpl. by rewrite app_nil_r.
  - rewrite concat_cons2, split_app_sep, IH by done. done.
Qed.

Lemma concat_map_singleton {A B : Type} (f : A -> list B) (g : A -> B)
    (l : list A) :
  Forall (fun x => f x = [g x]) l -> concat (map f l) = map g l.
Proof.
  induction 1 as [|x l Hx _ IH]; simpl; [done|]. by rewrite Hx, IH.
Qed.

(** Splitting a join of separator-free strings gives the strings back. *)
Lemma split_join_sep_free (sep : ascii) (ls : list string) :
  ls <> [] ->
  Forall (fun l => Py.all_chars (fun c => negb (Ascii.eqb c sep)) l = true) ls ->
  Py.split sep (Py.join (String sep "") ls) = ls.
Proof.
  intros Hne Hfree. rewrite split_join by done.
  rewrite (concat_map_singleton _ id); [by rewrite map_id|].
  eapply Forall_impl; [exact Hfree|]. intros l Hl. by apply split_sep_free.
Qed.

(** *** Decimal numbers *)

Lemma digit_value_pretty (x : N) :
  (x < 10)%N -> Py.digit_value (pretty_N_char x) = N.to_nat x.
Proof.
  intros Hx.
  destruct x as [|[[[[|[]|]|[|[]|]|]|[[|[]|]|[|[]|]|]|]|[[[|[]|]|[|[]|]|]|[[|[]|]|[|[]|]|]|]|]];
    try done; lia.
Qed.

Lemma is_digit_pretty (x : N) :
  (x < 10)%N -> Py.is_digit (pretty_N_char x) = true.
Proof.
  intros Hx.
  destruct x as [|[[[[|[]|]|[|[]|]|]|[[|[]|]|[|[]|]|]|]|[[[|[]|]|[|[]|]|]|[[|[]|]|[|[]|]|]|]|]];
    try done; lia.
Qed.

(** Reading back the digits that [pretty] writes in front of [s]. *)
Lemma int_of_digits_pretty_go (x : N) :
  forall s,
    Py.int_of_digits_from 0 (pretty_N_go x s)
    = Py.int_of_digits_from (N.to_nat x) s.
Proof.
  induction (N.lt_wf_0 x) as [x _ IH]. intros s.
  destruct (decide (x = 0)%N) as [->|Hx].
  - by rewrite pretty_N_go_0.
  - rewrite pretty_N_go_step by lia.
    rewrite IH by (apply N.div_lt; lia).
    simpl. f_equal. rewrite digit_value_pretty by (apply N.mod_lt; lia).
    pose proof (N.div_mod x 10). lia.
Qed.

Lemma all_digits_pretty_go (x : N) :
  forall s,
    Py.all_chars Py.is_digit s = true ->
    Py.all_chars Py.is_digit (pretty_N_go x s) = true.
Proof.
  induction (N.lt_wf_0 x) as [x _ IH]. intros s Hs.
  destruct (decide (x = 0)%N) as [->|Hx].
  - by rewrite pretty_N_go_0.
  - rewrite pretty_N_go_step by lia. apply IH; [apply N.div_lt; lia|].
    simpl. by rewrite is_digit_pretty, Hs by (apply N.mod_lt; lia).
Qed.

Lemma pretty_go_nonempty (x : N) :
  forall s, s <> "" -> pretty_N_go x s <> "".
Proof.
  induction (N.lt_wf_0 x) as [x _ IH]. intros s Hs.
  destruct (decide (x = 0)%N) as [->|Hx].
  - by rewrite pretty_N_go_0.
  - rewrite pretty_N_go_step by lia. apply IH; [apply N.div_lt; lia|done].
Qed.

(** [int(str(n)) == n], and [str(n)] is a non-empty run of digits. *)
Lemma int_of_digits_pretty (n : nat) :
  Py.int_of_digits (pretty n) = n
  /\ pretty n <> ""
  /\ Py.all_chars Py.is_digit (pretty n) = true.
Proof.
  unfold pretty, pretty_nat, pretty, pretty_N.
  destruct (decide (N.of_nat n = 0)%N) as [H0|Hn].
  - split; [|done]. change (Py.int_of_digits "0") with 0%nat. lia.
  - split; [|split].
    + unfold Py.int_of_digits. rewrite int_of_digits_pretty_go.
      simpl. lia.
    + rewrite pretty_N_go_step by lia. by apply pretty_go_nonempty.
    + by apply all_digits_pretty_go.
Qed.

End PyMore.

(** ** Locations *)

Module LocationFacts.
Import ContextExtractor PyFacts PyMore ContextExtractorFacts.

Lemma parse_token_keyless (token : string) :
  PathSpec.keyless token -> parse_token token = None.
Proof.
  intros [->|H]; [done|].
  apply prefix_true in H as [post ->]. by autorewrite with pystr.
Qed.

(** X5. A location none of whose tokens has a key (every token is empty or
    starts with a bracket, as in the empty location or [[0]]) gives no step
    at all, and the operation raises [IndexError] whatever the document and
    the operation are. *)
Theorem keyless_location_raises
    (context : json) (operation location : string) (value : json) :
  Forall PathSpec.keyless (Py.split "." location) ->
  parse_location location = []
  /\ _apply_operation context operation location value = Raise IndexError.
Proof.
  intros Hall.
  assert (parse_location location = []) as Hnil.
  { unfold parse_location. induction Hall as [|t ts Ht _ IH]; simpl; [done|].
    by rewrite (parse_token_keyless _ Ht). }
  split; [done|]. unfold _apply_operation. by rewrite Hnil.
Qed.

Lemma keyless_location_raises_witness :
  parse_location "[0]..[end]" = []
  /\ _apply_operation (JDict ∅) "add" "[0]..[end]" JNull = Raise IndexError.
Proof.
  apply (keyless_location_raises (JDict ∅) "add" "[0]..[end]" JNull).
  repeat constructor; by (left + right).
Defined.

(** *** Written paths *)

Lemma plain_key_spec (key : string) :
  PathSyntax.plain_key key = true ->
  key <> ""
  /\ Py.all_chars not_open_bracket key = true
  /\ Py.all_chars Spec.not_dot key = true.
Proof.
  unfold PathSyntax.plain_key. intros [Hne Hall]%andb_true_iff.
  split; [by destruct key|].
  induction key as [|c key IH]; [done|]. simpl in *.
  apply andb_true_iff in Hall as [[H1 H2]%andb_true_iff Hall].
  destruct key as [|c' key'].
  - by rewrite H1, H2.
  - destruct IH as [IH1 IH2]; [done..|]. by rewrite H1, H2, IH1, IH2.
Qed.

Lemma all_chars_app (p : ascii -> bool) (a b : string) :
  Py.all_chars p (a +:+ b) = Py.all_chars p a && Py.all_chars p b.
Proof.
  induction a as [|c a IH]; [done|].
  rewrite app_String. simpl. by rewrite IH, andb_assoc.
Qed.

Lemma digits_not_dot (ds : string) :
  Py.all_chars Py.is_digit ds = true -> Py.all_chars Spec.not_dot ds = true.
Proof.
  induction ds as [|c ds IH]; simpl; [done|].
  intros [Hc Hds]%andb_true_iff. rewrite IH by done.
  destruct c as [[] [] [] [] [] [] [] []]; done.
Qed.

(** A written step parses to the step, and has no dot. *)
Lemma parse_token_show_part (p : part) :
  PathSyntax.plain_key p.1 = true ->
  parse_token (PathSyntax.show_part p) = Some p
  /\ Py.all_chars Spec.not_dot (PathSyntax.show_part p) = true.
Proof.
  destruct p as [key idx]. simpl.
  intros (Hne & Hbr & Hdot)%plain_key_spec.
  destruct idx as [[|n]|]; simpl.
  - split.
    + rewrite parse_token_key_then; [reflexivity|done..|by left].
    + by rewrite all_chars_app, Hdot.
  - destruct (int_of_digits_pretty n) as (Hint & Hds & Hall).
    split.
    + rewrite parse_token_key_then;
        [|done..|left; apply prefix_true; by eexists].
      unfold match_index. autorewrite with pystr.
      rewrite (span_unique Py.is_digit (pretty n) "]" Hall eq_refl).
      destruct (String.eqb_spec (pretty n) ""); [done|]. simpl.
      by rewrite Hint.
    + rewrite !all_chars_app, Hdot, (digits_not_dot _ Hall). reflexivity.
  - split; [|done].
    rewrite <- (app_empty_r key) at 1.
    rewrite parse_token_key_then; [reflexivity|done..|by right].
Qed.

(** X6. Writing a path in the location format and parsing it gives the path
    back: every non-empty sequence of steps whose keys are not empty and
    hold neither bracket nor dot is the path of its written form, with
    [key[N]] read as index [N] and [key[end]] as the end marker. *)
Theorem parse_location_show_path (parts : list part) :
  parts <> [] ->
  Forall (fun p : part => PathSyntax.plain_key p.1 = true) parts ->
  parse_location (PathSyntax.show_path parts) = parts.
Proof.
  intros Hne Hkeys. unfold parse_location, PathSyntax.show_path.
  rewrite split_join_sep_free.
  - clear Hne. induction Hkeys as [|p ps Hp _ IH]; [done|].
    change (omap parse_token (map PathSyntax.show_part (p :: ps)))
      with (match parse_token (PathSyntax.show_part p) with
            | Some y => y :: omap parse_token (map PathSyntax.show_part ps)
            | None => omap parse_token (map PathSyntax.show_part ps)
            end).
    destruct (parse_token_show_part p Hp) as [-> _]. by rewrite IH.
  - by destruct parts.
  - apply Forall_fmap. eapply Forall_impl; [exact Hkeys|].
    intros p Hp. by destruct (parse_token_show_part p Hp) as [_ H].
Qed.

Lemma parse_location_show_path_witness :
  parse_location "entities[12].attributes[end].name"
  = [("entities", Some (IdxNum 12)); ("attributes", Some IdxEnd); ("name", None)].
Proof.
  apply (parse_location_show_path
           [("entities", Some (IdxNum 12)); ("attributes", Some IdxEnd);
            ("name", None)]).
  - done.
  - repeat constructor.
Defined.

(** X7. Dots only separate: the path of two locations joined by a dot is
    the path of the first followed by the path of the second, so that empty
    tokens (a doubled, leading or trailing dot) change nothing. *)
Theorem parse_location_dot (a b : string) :
  parse_location (a +:+ "." +:+ b) = parse_location a ++ parse_location b.
Proof.
  unfold parse_location. by rewrite split_app_sep, omap_app.
Qed.

End LocationFacts.

(** ** Reading back what an add wrote *)

Module StructuralPatcherReads.
Import ContextExtractor PyFacts StructuralPatcherFacts StructuralPatcherMore
  StructuralPatcherCompose.

Lemma resolve_app (a b : list part) (d : json) :
  Spec.resolve (a ++ b) d = (t ← Spec.resolve a d; Spec.resolve b t).
Proof.
  revert d. induction a as [|[key [[|n]|]] a IH]; intros d; simpl; [done..| |].
  - destruct d; try done. destruct (m !! key) as [[]|]; try done.
    destruct (l !! n); [|done]. simpl. apply IH.
  - destruct d; try done. destruct (m !! key); [|done]. simpl. apply IH.
Qed.

(** Along steps that find what they name, navigation changes the container
    they lead to, and nothing else on the way: the same steps lead to the
    changed container afterwards. *)
Lemma navigate_resolved (parts : list part) (f : json -> result json) :
  forall d t t1 : json,
    Spec.resolve parts d = Some t -> f t = Ok t1 ->
    exists d1, navigate parts f d = Ok d1 /\ Spec.resolve parts d1 = Some t1.
Proof.
  induction parts as [|[key [[|n]|]] rest IH]; intros d t t1 Hres Hf.
  - simpl in Hres. injection Hres as ->. by exists t1.
  - done.
  - simpl in Hres. destruct d as [| | | | |m]; try done.
    destruct (m !! key) as [[| | | |l|]|] eqn:Hkey; try done.
    destruct (l !! n) as [c|] eqn:Hn; [|done]. simpl in Hres.
    destruct (IH c t t1 Hres Hf) as (c1 & Hnav & Hres1).
    pose proof (lookup_lt_Some _ _ _ Hn) as Hlt.
    exists (JDict (<[key := JList (<[n := c1]> l)]> m)). split.
    + simpl. rewrite (ensure_key_present _ _ _ _ Hkey). simpl.
      rewrite Hkey. simpl.
      replace (n <? length l)%nat with true by (symmetry; apply Nat.ltb_lt; lia).
      simpl. by rewrite Hn, Hnav.
    + simpl. rewrite lookup_insert_eq, list_lookup_insert_eq by done. done.
  - simpl in Hres. destruct d as [| | | | |m]; try done.
    destruct (m !! key) as [c|] eqn:Hkey; [|done]. simpl in Hres.
    destruct (IH c t t1 Hres Hf) as (c1 & Hnav & Hres1).
    exists (JDict (<[key := c1]> m)). split.
    + simpl. rewrite (ensure_key_present _ _ _ _ Hkey). simpl.
      rewrite Hkey. simpl. by rewrite Hnav.
    + simpl. by rewrite lookup_insert_eq.
Qed.

Lemma add_indexed_target (tm : gmap string json) (key : string) (idx : index)
    (l : list json) (value : json) (n : nat) :
  PathSpec.list_at tm key l ->
  n = match idx with IdxEnd => length l | IdxNum n => n end ->
  (n <= length l)%nat ->
  apply_at_target "add" key (Some idx) value (JDict tm)
  = Ok (JDict (<[key := JList (Py.list_insert n value l)]> tm)).
Proof.
  unfold PathSpec.list_at. intros Hl -> Hn. unfold apply_at_target. simpl.
  rewrite ensure_key_dict.
  destruct (tm !! key) as [c|] eqn:Hkey.
  - subst c. simpl. rewrite Hkey. simpl. destruct idx as [|n0]; simpl.
    + unfold Py.list_insert. by rewrite take_ge, drop_ge by lia.
    + by replace (n0 <=? length l)%nat with true by (symmetry; by apply Nat.leb_le).
  - subst l. simpl. rewrite lookup_insert_eq. simpl.
    destruct idx as [|n0]; simpl.
    + by rewrite insert_insert_eq.
    + simpl in Hn. replace (n0 <=? 0)%nat with true by (symmetry; by apply Nat.leb_le).
      by rewrite insert_insert_eq.
Qed.

(** Along steps that find what they name, only what the target operation
    does at the container they lead to matters. *)
Lemma navigate_resolved_eq (parts : list part) (f g : json -> result json) :
  forall d t : json,
    Spec.resolve parts d = Some t -> f t = g t ->
    navigate parts f d = navigate parts g d.
Proof.
  induction parts as [|[key [[|n]|]] rest IH]; intros d t Hres Hfg.
  - simpl in Hres. by injection Hres as ->.
  - done.
  - simpl in Hres. destruct d as [| | | | |m]; try done.
    destruct (m !! key) as [[| | | |l|]|] eqn:Hkey; try done.
    destruct (l !! n) as [c|] eqn:Hn; [|done]. simpl in Hres.
    pose proof (lookup_lt_Some _ _ _ Hn) as Hlt.
    simpl. rewrite (ensure_key_present _ _ _ _ Hkey). simpl.
    rewrite Hkey. simpl.
    replace (n <? length l)%nat with true by (symmetry; apply Nat.ltb_lt; lia).
    rewrite Hn. by rewrite (IH c t Hres Hfg).
  - simpl in Hres. destruct d as [| | | | |m]; try done.
    destruct (m !! key) as [c|] eqn:Hkey; [|done]. simpl in Hres.
    simpl. rewrite (ensure_key_present _ _ _ _ Hkey). simpl.
    rewrite Hkey. simpl. by rewrite (IH c t Hres Hfg).
Qed.

(** X8. What an add writes is found where it was written. When the
    navigation steps find existing containers and end at a mapping: after an
    add at a plain key the key holds the value; after an add at [key[N]],
    with [N] within the list, element [N] of the list is the value; after an
    add at [key[end]] the value is the element at the former length of the
    list. *)
Theorem add_then_resolve
    (d : json) (location : string) (init : list part) (key : string)
    (idx : option index) (tm : gmap string json) (l : list json) (value : json) :
  parse_location location = init ++ [(key, idx)] ->
  Spec.resolve init d = Some (JDict tm) ->
  match idx with
  | None => True
  | Some IdxEnd => PathSpec.list_at tm key l
  | Some (IdxNum n) => PathSpec.list_at tm key l /\ (n <= length l)%nat
  end ->
  exists d1,
    _apply_operation d "add" location value = Ok d1
    /\ Spec.resolve
         (init ++ [(key, match idx with
                         | Some IdxEnd => Some (IdxNum (length l))
                         | _ => idx
                         end)]) d1
       = Some value.
Proof.
  intros Hloc Hres Hidx. rewrite (apply_operation_parts _ _ _ _ _ _ _ Hloc).
  destruct idx as [[|n]|].
  - pose proof (add_indexed_target tm key IdxEnd l value _ Hidx eq_refl (le_n _))
      as Hadd.
    destruct (navigate_resolved init _ d _ _ Hres Hadd) as (d1 & Hnav & Hres1).
    exists d1. split; [done|]. rewrite resolve_app, Hres1. simpl.
    rewrite lookup_insert_eq. unfold Py.list_insert.
    rewrite take_ge, drop_ge by lia.
    by rewrite lookup_app_r, Nat.sub_diag by lia.
  - destruct Hidx as [Hl Hn].
    pose proof (add_indexed_target tm key (IdxNum n) l value _ Hl eq_refl Hn)
      as Hadd.
    destruct (navigate_resolved init _ d _ _ Hres Hadd) as (d1 & Hnav & Hres1).
    exists d1. split; [done|]. rewrite resolve_app, Hres1. simpl.
    rewrite lookup_insert_eq. unfold Py.list_insert.
    rewrite lookup_app_r by (rewrite length_take; lia).
    by replace (n - length (take n l))%nat with 0%nat
      by (rewrite length_take; lia).
  - assert (apply_at_target "add" key None value (JDict tm)
            = Ok (JDict (<[key := value]> tm))) as Hadd by done.
    destruct (navigate_resolved init _ d _ _ Hres Hadd) as (d1 & Hnav & Hres1).
    exists d1. split; [done|]. rewrite resolve_app, Hres1. simpl.
    by rewrite lookup_insert_eq.
Qed.

Lemma add_then_resolve_witness :
  exists d1,
    _apply_operation Spec.nested_doc "add" "a[0].b[end]" (JStr "v") = Ok d1
    /\ Spec.resolve ([("a", Some (IdxNum 0))] ++ [("b", Some (IdxNum 1))]) d1
       = Some (JStr "v").
Proof.
  apply (add_then_resolve Spec.nested_doc "a[0].b[end]" [("a", Some (IdxNum 0))]
           "b" (Some IdxEnd) {["b" := JList [JNum 1]]} [JNum 1] (JStr "v")).
  - reflexivity.
  - vm_compute. reflexivity.
  - vm_compute. reflexivity.
Defined.

(** X9. An add at [key[end]] is an add at [key[N]] for [N] the length of the
    list the key holds, and a delete at [key[N]] undoes it. *)
Theorem add_at_end_is_insert_at_length
    (d : json) (loc_end loc_n : string) (init : list part) (key : string)
    (tm : gmap string json) (l : list json) (value value' : json) :
  parse_location loc_end = init ++ [(key, Some IdxEnd)] ->
  parse_location loc_n = init ++ [(key, Some (IdxNum (length l)))] ->
  Spec.resolve init d = Some (JDict tm) ->
  tm !! key = Some (JList l) ->
  exists d1,
    _apply_operation d "add" loc_end value = Ok d1
    /\ _apply_operation d "add" loc_n value = Ok d1
    /\ _apply_operation d1 "delete" loc_n value' = Ok d.
Proof.
  intros Hend Hn Hres Hkey.
  rewrite (apply_operation_parts _ _ _ _ _ _ _ Hend).
  rewrite (apply_operation_parts _ _ _ _ _ _ _ Hn).
  assert (PathSpec.list_at tm key l) as Hl
    by (unfold PathSpec.list_at; by rewrite Hkey).
  pose proof (add_indexed_target tm key IdxEnd l value _ Hl eq_refl (le_n _))
    as Hadd_end.
  pose proof (add_indexed_target tm key (IdxNum (length l)) l value _ Hl eq_refl
                (le_n _)) as Hadd_n.
  destruct (target_insert_delete key (length l) l tm value value' Hkey (le_n _))
    as (t1 & Hadd & Hdel).
  rewrite Hadd_n in Hadd. injection Hadd as <-.
  destruct (navigate_round_trip init _ _ d _ _ Hres Hadd_n Hdel)
    as (d1 & H1 & H2 & _).
  exists d1. split; [|split].
  - rewrite <- H1. apply (navigate_resolved_eq init _ _ d _ Hres).
    by rewrite Hadd_end, Hadd_n.
  - done.
  - by rewrite (apply_operation_parts _ _ _ _ _ _ _ Hn).
Qed.

Lemma add_at_end_is_insert_at_length_witness :
  exists d1,
    _apply_operation Spec.nested_doc "add" "a[0].b[end]" (JStr "v") = Ok d1
    /\ _apply_operation Spec.nested_doc "add" "a[0].b[1]" (JStr "v") = Ok d1
    /\ _apply_operation d1 "delete" "a[0].b[1]" JNull = Ok Spec.nested_doc.
Proof.
  apply (add_at_end_is_insert_at_length Spec.nested_doc "a[0].b[end]" "a[0].b[1]"
           [("a", Some (IdxNum 0))] "b" {["b" := JList [JNum 1]]} [JNum 1]
           (JStr "v") JNull).
  - reflexivity.
  - reflexivity.
  - vm_compute. reflexivity.
  - vm_compute. reflexivity.
Defined.

End StructuralPatcherReads.

(** ** The structural patcher off the beaten path *)

Module StructuralPatcherEdges.
Import ContextExtractor PyFacts StructuralPatcherFacts StructuralPatcherMore
  StructuralPatcherCompose.

(** Along steps that find what they name, an exception of the target
    operation is the exception of the whole operation. *)
Lemma navigate_resolved_raise (parts : list part) (f : json -> result json)
    (e : exn_kind) :
  forall d t : json,
    Spec.resolve parts d = Some t -> f t = Raise e ->
    navigate parts f d = Raise e.
Proof.
  induction parts as [|[key [[|n]|]] rest IH]; intros d t Hres Hf.
  - simpl in Hres. by injection Hres as ->.
  - done.
  - simpl in Hres. destruct d as [| | | | |m]; try done.
    destruct (m !! key) as [[| | | |l|]|] eqn:Hkey; try done.
    destruct (l !! n) as [c|] eqn:Hn; [|done]. simpl in Hres.
    pose proof (lookup_lt_Some _ _ _ Hn) as Hlt.
    simpl. rewrite (ensure_key_present _ _ _ _ Hkey). simpl.
    rewrite Hkey. simpl.
    replace (n <? length l)%nat with true by (symmetry; apply Nat.ltb_lt; lia).
    rewrite Hn. by rewrite (IH c t Hres Hf).
  - simpl in Hres. destruct d as [| | | | |m]; try done.
    destruct (m !! key) as [c|] eqn:Hkey; [|done]. simpl in Hres.
    simpl. rewrite (ensure_key_present _ _ _ _ Hkey). simpl.
    rewrite Hkey. simpl. by rewrite (IH c t Hres Hf).
Qed.

Lemma add_at_non_mapping (key : string) (idx : option index) (value t : json) :
  PyObj.is_dict t = false ->
  apply_at_target "add" key idx value t = Raise TypeError.
Proof.
  intros Ht. unfold apply_at_target. simpl.
  destruct t as [| | |s|l|m]; try done; destruct idx as [[|n]|]; try done;
    unfold ensure_key; simpl;
    try (by destruct (Py.contains key s));
    try (by destruct (existsb (PyObj.eq_str key) l)).
Qed.

Lemma delete_at_non_mapping (key : string) (idx : option index) (value t : json) :
  PyObj.is_dict t = false ->
  apply_at_target "delete" key idx value t
  = match PyObj.contains key t with
    | Ok false => Ok t
    | _ => Raise TypeError
    end.
Proof.
  intros Ht. unfold apply_at_target. simpl.
  destruct t as [| | |s|l|m]; try done; destruct idx as [[|n]|]; try done; simpl;
    try (by destruct (Py.contains key s));
    try (by destruct (existsb (PyObj.eq_str key) l)).
Qed.

(** X10. An operation whose path leads to a value that is not a mapping (a
    number, a boolean, [null], a string or a list) does not patch it. An add
    raises [TypeError]. A delete raises [TypeError] as well, unless the
    value is a string that does not contain the last key, or a list that
    does not have the last key among its elements: then it changes
    nothing. *)
Theorem operation_at_non_mapping
    (d : json) (location : string) (init : list part) (key : string)
    (idx : option index) (t value : json) :
  parse_location location = init ++ [(key, idx)] ->
  Spec.resolve init d = Some t ->
  PyObj.is_dict t = false ->
  _apply_operation d "add" location value = Raise TypeError
  /\ _apply_operation d "delete" location value
     = match PyObj.contains key t with
       | Ok false => Ok d
       | _ => Raise TypeError
       end.
Proof.
  intros Hloc Hres Ht.
  rewrite !(apply_operation_parts _ _ _ _ _ _ _ Hloc). split.
  - apply (navigate_resolved_raise _ _ _ _ t Hres).
    by apply add_at_non_mapping.
  - pose proof (delete_at_non_mapping key idx value t Ht) as Hdel.
    destruct (PyObj.contains key t) as [[]|e] eqn:Hc.
    + by apply (navigate_resolved_raise _ _ _ _ t Hres).
    + destruct (navigate_round_trip init _ _ d t t Hres Hdel Hdel)
        as (d1 & H1 & _ & Hsame).
      by rewrite H1, Hsame.
    + by apply (navigate_resolved_raise _ _ _ _ t Hres).
Qed.

Lemma operation_at_non_mapping_witness :
  _apply_operation (JDict {["a" := JStr "hello"]}) "add" "a.b" (JNum 1)
  = Raise TypeError
  /\ _apply_operation (JDict {["a" := JStr "hello"]}) "delete" "a.b" (JNum 1)
     = match PyObj.contains "b" (JStr "hello") with
       | Ok false => Ok (JDict {["a" := JStr "hello"]})
       | _ => Raise TypeError
       end.
Proof.
  apply (operation_at_non_mapping (JDict {["a" := JStr "hello"]}) "a.b"
           [("a", None)] "b" None (JStr "hello") (JNum 1)).
  - reflexivity.
  - vm_compute. reflexivity.
  - reflexivity.
Defined.

Lemma insert_padded (l : list json) (n : nat) (child : json) :
  (length l <= n)%nat ->
  <[n := child]> (l ++ replicate (S n - length l) (JDict ∅))
  = l ++ replicate (n - length l) (JDict ∅) ++ [child].
Proof.
  intros Hn. rewrite insert_app_r_alt by lia.
  replace (S n - length l)%nat with ((n - length l) + 1)%nat by lia.
  rewrite replicate_add. simpl. f_equal.
  rewrite insert_app_r_alt by (rewrite length_replicate; lia).
  rewrite length_replicate, Nat.sub_diag. done.
Qed.

(** A navigation step [key[N]] with [N] at or past the end of the list. *)
Lemma navigate_padding (tm : gmap string json) (key : string) (l : list json)
    (n : nat) (rest : list part) (f : json -> result json) :
  PathSpec.list_at tm key l ->
  (length l <= n)%nat ->
  navigate ((key, Some (IdxNum n)) :: rest) f (JDict tm)
  = (child <-- navigate rest f (JDict ∅) ;;
     Ok (JDict (<[key := JList (l ++ replicate (n - length l) (JDict ∅)
                                  ++ [child])]> tm))).
Proof.
  unfold PathSpec.list_at. intros Hl Hn. simpl. rewrite ensure_key_dict.
  destruct (tm !! key) as [c|] eqn:Hkey.
  - subst c. simpl. rewrite Hkey. simpl.
    replace (n <? length l)%nat with false by (symmetry; apply Nat.ltb_ge; lia).
    rewrite lookup_app_r by lia.
    match goal with
    | |- context [match ?x with Some _ => _ | None => _ end] =>
        assert (x = Some (JDict ∅)) as -> by (apply lookup_replicate_2; lia)
    end.
    destruct (navigate rest f (JDict ∅)) as [child|]; [|done]. simpl.
    by rewrite insert_padded.
  - subst l. simpl. rewrite lookup_insert_eq. simpl.
    match goal with
    | |- context [match ?x with Some _ => _ | None => _ end] =>
        assert (x = Some (JDict ∅)) as ->
          by exact (lookup_replicate_2 (S n) (JDict ∅) n (le_n _))
    end.
    destruct (navigate rest f (JDict ∅)) as [child|]; [|done]. simpl.
    rewrite insert_insert_eq. 
    pose proof (insert_padded [] n child) as Hpad. simpl in Hpad.
    rewrite Nat.sub_0_r in *. by rewrite Hpad by lia.
Qed.

(** X11. A navigation step [key[N]] with [N] at or past the end of the list
    pads the list with empty mappings up to index [N], and the rest of the
    operation is applied to the empty mapping at index [N]. This holds for
    a delete as for an add: a delete below such a step makes the document
    grow. *)
Theorem navigation_pads_with_empty_mappings
    (tm : gmap string json) (operation location location' key : string)
    (l : list json) (n : nat) (value : json) :
  parse_location location
  = (key, Some (IdxNum n)) :: parse_location location' ->
  parse_location location' <> [] ->
  PathSpec.list_at tm key l ->
  (length l <= n)%nat ->
  _apply_operation (JDict tm) operation location value
  = (child <-- _apply_operation (JDict ∅) operation location' value ;;
     Ok (JDict (<[key := JList (l ++ replicate (n - length l) (JDict ∅)
                                  ++ [child])]> tm))).
Proof.
  intros Hloc Hne Hl Hn.
  destruct (parse_location location') as [|p ps] eqn:Hparts
    using rev_ind; [done|]. clear IHps.
  destruct p as [k idx].
  rewrite (apply_operation_parts _ _ _ _ ((key, Some (IdxNum n)) :: ps) k idx)
    by (by rewrite Hloc).
  rewrite (apply_operation_parts _ _ location' _ ps k idx) by done.
  by apply navigate_padding.
Qed.

Lemma navigation_pads_with_empty_mappings_witness :
  _apply_operation (JDict ∅) "delete" "a[2].b" JNull
  = (child <-- _apply_operation (JDict ∅) "delete" "b" JNull ;;
     Ok (JDict (<["a" := JList ([] ++ replicate (2 - length ([] : list json))
                                          (JDict ∅) ++ [child])]> ∅))).
Proof.
  apply (navigation_pads_with_empty_mappings ∅ "delete" "a[2].b" "b" "a" [] 2 JNull).
  - reflexivity.
  - discriminate.
  - reflexivity.
  - simpl. lia.
Defined.

End StructuralPatcherEdges.

(** ** The text patcher: deletions, round trips and batches *)

Module TextPatcherMore.
Import CodeGenerator PyFacts TextPatcherFacts PyMore.

(** [List.find] over a range of numbers returns the least one that passes. *)
Lemma find_seq_first (f : nat -> bool) (n : nat) :
  forall start i : nat,
    List.find f (seq start n) = Some i
    <-> (start <= i < start + n)%nat /\ f i = true
        /\ forall j, (start <= j < i)%nat -> f j = false.
Proof.
  induction n as [|n IH]; intros start i.
  - simpl. split; [done|]. lia.
  - simpl. destruct (f start) eqn:Hs.
    + split.
      * intros [= <-]. split; [lia|]. split; [done|]. lia.
      * intros (Hr & Hi & Hj). destruct (decide (i = start)) as [->|Hne]; [done|].
        rewrite Hj in Hs by lia. done.
    + rewrite IH. split.
      * intros (Hr & Hi & Hj). split; [lia|]. split; [done|].
        intros j Hjr. destruct (decide (j = start)) as [->|Hne]; [done|].
        apply Hj. lia.
      * intros (Hr & Hi & Hj).
        assert (i <> start) by (intros ->; by rewrite Hi in Hs).
        split; [lia|]. split; [done|]. intros j Hjr. apply Hj. lia.
Qed.

(** The search loop of the delete branch finds the first line at which the
    block starts. *)
Lemma find_block_first (code_lines block_lines : list string) (i : nat) :
  (i + length block_lines <= length code_lines)%nat ->
  TextSpec.block_at block_lines code_lines i ->
  (forall j, (j < i)%nat -> ~ TextSpec.block_at block_lines code_lines j) ->
  find_block code_lines block_lines = Some i.
Proof.
  intros Hlen Hat Hfirst. unfold find_block. apply find_seq_first.
  split; [lia|]. split.
  - by apply bool_decide_eq_true.
  - intros j Hj. apply bool_decide_eq_false. apply Hfirst. lia.
Qed.

Lemma block_at_app (pre block_lines post : list string) :
  TextSpec.block_at block_lines (pre ++ block_lines ++ post) (length pre).
Proof.
  unfold TextSpec.block_at. rewrite drop_app_length.
  by rewrite take_app_length.
Qed.

Lemma delete_at_first (code block : string) (location : PlantUMLLocation)
    (pre post : list string) :
  Py.split newline code = pre ++ Py.split newline block ++ post ->
  (forall j, (j < length pre)%nat ->
             ~ TextSpec.block_at (Py.split newline block) (Py.split newline code) j) ->
  _apply_operation code "delete" location block = Py.join nl (pre ++ post).
Proof.
  intros Hcode Hfirst. unfold _apply_operation. simpl.
  rewrite (find_block_first _ _ (length pre)).
  - rewrite Hcode. rewrite take_app_length.
    rewrite drop_app_ge by lia.
    replace (length pre + length (Py.split newline block) - length pre)%nat
      with (length (Py.split newline block)) by lia.
    by rewrite drop_app_length.
  - rewrite Hcode. rewrite !length_app. lia.
  - rewrite Hcode. apply block_at_app.
  - done.
Qed.

(** X12. A text delete removes the first run of lines equal to the lines of
    the block, and nothing else: when the lines of the code are [pre], the
    lines of the block and [post], and the block starts at no line before
    the end of [pre], the result is the join of [pre] and [post]. *)
Theorem delete_removes_first_occurrence
    (code block : string) (location : PlantUMLLocation) (pre post : list string) :
  Py.split newline code = pre ++ Py.split newline block ++ post ->
  (forall j, (j < length pre)%nat ->
             ~ TextSpec.block_at (Py.split newline block) (Py.split newline code) j) ->
  _apply_operation code "delete" location block = Py.join nl (pre ++ post).
Proof. apply delete_at_first. Qed.

Lemma delete_removes_first_occurrence_witness :
  _apply_operation Spec.scenario_c "delete"
    {| after_line := ""; before_line := "" |} ("class A {" +:+ nl +:+ "}")
  = Py.join nl (["@startuml"] ++ ["@enduml"]).
Proof.
  apply (delete_removes_first_occurrence Spec.scenario_c ("class A {" +:+ nl +:+ "}")
           {| after_line := ""; before_line := "" |} ["@startuml"] ["@enduml"]).
  - reflexivity.
  - intros j Hj. simpl in Hj. assert (j = 0)%nat as -> by lia.
    vm_compute. discriminate.
Defined.

Lemma sep_free_sublist (ls ks : list string) :
  ks ⊆ ls ->
  Forall (fun l => Py.all_chars (fun c => negb (Ascii.eqb c newline)) l = true) ls ->
  Forall (fun l => Py.split newline l = [l]) ks.
Proof.
  intros Hsub Hfree. apply Forall_forall. intros l Hl.
  apply split_sep_free. rewrite Forall_forall in Hfree. apply Hfree.
  by apply Hsub.
Qed.

(** The lines of a code into which a block was inserted as one element. *)
Lemma split_join_insert (code block : string) (n : nat) :
  let lines := Py.split newline code in
  Py.split newline (Py.join nl (take n lines ++ block :: drop n lines))
  = take n lines ++ Py.split newline block ++ drop n lines.
Proof.
  intros lines. unfold nl. rewrite split_join by by destruct (take n lines).
  rewrite map_app, concat_app. simpl.
  pose proof (split_pieces_sep_free newline code) as Hfree. fold lines in Hfree.
  rewrite (concat_map_singleton _ id (take n lines)).
  - rewrite (concat_map_singleton _ id (drop n lines)).
    + by rewrite !map_id.
    + apply (sep_free_sublist lines); [apply subseteq_drop|done].
  - apply (sep_free_sublist lines); [apply subseteq_take|done].
Qed.

Lemma add_at_found (code after before block : string) (i : nat) :
  let lines := Py.split newline code in
  let parsed := _parse_location_pattern after in
  _find_line_index lines parsed.1 parsed.2 = Z.of_nat i ->
  _apply_operation code "add" {| after_line := after; before_line := before |} block
  = Py.join nl (take (S i) lines ++ block :: drop (S i) lines).
Proof.
  intros lines parsed Hf. unfold _apply_operation. simpl.
  subst parsed lines.
  destruct (_parse_location_pattern after) as [ap ao].
  destruct (_parse_location_pattern before) as [bp bo].
  simpl in Hf. rewrite Hf.
  replace (Z.of_nat i =? -1)%Z with false by (symmetry; apply Z.eqb_neq; lia).
  replace (Z.to_nat (Z.of_nat i + 1)) with (S i) by lia.
  reflexivity.
Qed.

(** X13. A text add followed by a delete of the same block gives the code
    back: when the after anchor is found at line [i], and the lines of the
    block start at no line up to [i] of the code with the block inserted. *)
Theorem text_add_then_delete
    (code after before block : string) (i : nat) (location' : PlantUMLLocation) :
  let lines := Py.split newline code in
  let parsed := _parse_location_pattern after in
  _find_line_index lines parsed.1 parsed.2 = Z.of_nat i ->
  (forall j, (j <= i)%nat ->
     ~ TextSpec.block_at (Py.split newline block)
         (take (S i) lines ++ Py.split newline block ++ drop (S i) lines) j) ->
  _apply_operation
    (_apply_operation code "add"
       {| after_line := after; before_line := before |} block)
    "delete" location' block
  = code.
Proof.
  intros lines parsed Hf Hfirst.
  rewrite (add_at_found code after before block i Hf). fold lines.
  apply find_from_range in Hf. simpl in Hf. fold lines in Hf.
  rewrite (delete_at_first _ block location' (take (S i) lines) (drop (S i) lines)).
  - rewrite take_drop. apply join_split.
  - apply split_join_insert.
  - intros j Hj. rewrite length_take in Hj.
    unfold lines. rewrite split_join_insert. apply Hfirst. lia.
Qed.

Lemma text_add_then_delete_witness :
  _apply_operation
    (_apply_operation Spec.scenario_c "add"
       {| after_line := "(class A {)[1]"; before_line := "(@enduml)[1]" |}
       "  +field")
    "delete" {| after_line := ""; before_line := "" |} "  +field"
  = Spec.scenario_c.
Proof.
  apply (text_add_then_delete Spec.scenario_c "(class A {)[1]" "(@enduml)[1]"
           "  +field" 1 {| after_line := ""; before_line := "" |}).
  - reflexivity.
  - intros j Hj. assert (j = 0 \/ j = 1)%nat as [-> | ->] by lia;
      vm_compute; discriminate.
Defined.

Lemma find_from_passed (pattern : string) (occurrence : nat) (lines : list string) :
  forall i count : nat,
    (occurrence <= count)%nat ->
    find_from pattern occurrence lines i count = (-1)%Z.
Proof.
  induction lines as [|line rest IH]; intros i count Hc; [done|].
  rewrite find_from_cons.
  destruct (line_matches pattern line).
  - replace (S count =? occurrence)%nat with false
      by (symmetry; apply Nat.eqb_neq; lia).
    apply IH. lia.
  - by apply IH.
Qed.

(** X14. Occurrence [0] is never found: the count of matches is compared
    with the occurrence after it was incremented. An add whose after anchor
    parses to occurrence [0] therefore appends the block to the code,
    whatever the code contains. *)
Theorem zero_occurrence_appends
    (code block pattern : string) (location : PlantUMLLocation) :
  _parse_location_pattern (after_line location) = (pattern, 0%nat) ->
  (forall lines, _find_line_index lines pattern 0 = (-1)%Z)
  /\ _apply_operation code "add" location block = code +:+ nl +:+ block.
Proof.
  intros Hparse.
  assert (forall lines, _find_line_index lines pattern 0 = (-1)%Z) as Hnever.
  { intros lines. unfold _find_line_index. apply find_from_passed. lia. }
  split; [done|].
  unfold _apply_operation. simpl. rewrite Hparse.
  destruct (_parse_location_pattern (before_line location)) as [bp bo].
  by rewrite Hnever.
Qed.

Lemma zero_occurrence_appends_witness :
  (forall lines, _find_line_index lines "class A {" 0 = (-1)%Z)
  /\ _apply_operation Spec.scenario_c "add"
       {| after_line := "(class A {)[0]"; before_line := "" |} "note"
     = Spec.scenario_c +:+ nl +:+ "note".
Proof.
  apply (zero_occurrence_appends Spec.scenario_c "note" "class A {"
           {| after_line := "(class A {)[0]"; before_line := "" |}).
  reflexivity.
Defined.

Lemma text_operations_from_app (a b : list PlantUMLOperation) :
  forall code,
    apply_operations_from code (a ++ b)
    = (code1 <-- apply_operations_from code a ;; apply_operations_from code1 b).
Proof.
  induction a as [|op a IH]; intros code; simpl; [done|].
  destruct (location op) as [s|l].
  - destruct (String.eqb s "root"); [apply IH|done].
  - apply IH.
Qed.

Lemma text_batch_located (operations : list PlantUMLOperation) :
  forall code,
    (existsb TextSpec.ill_located operations = true
     -> apply_operations_from code operations = Raise ValueError)
    /\ (existsb TextSpec.ill_located operations = false
        -> exists code1, apply_operations_from code operations = Ok code1).
Proof.
  induction operations as [|op rest IH]; intros code.
  - split; [done|]. by exists code.
  - simpl. unfold TextSpec.ill_located at 1 3.
    destruct (location op) as [s|l]; simpl.
    + destruct (String.eqb s "root"); simpl; [apply IH|]. split; [done|done].
    + apply IH.
Qed.

(** X15. The locations decide how a batch of text operations ends. It
    raises, and then a [ValueError], exactly when one of its operations is
    located at a string other than ["root"]: neither the code nor the other
    operations have a say in that. An operation located at ["root"] sets the
    code to its block, whether it is an add or a delete: the batch continues
    from the block, and the code and the operations before it are
    forgotten. *)
Theorem text_batch_locations (previous_code : option string)
    (operations : list PlantUMLOperation) :
  (existsb TextSpec.ill_located operations = true
   -> apply_operations previous_code operations = Raise ValueError)
  /\ (existsb TextSpec.ill_located operations = false
      -> exists code, apply_operations previous_code operations = Ok code)
  /\ (forall before op after,
        operations = before ++ op :: after ->
        existsb TextSpec.ill_located before = false ->
        location op = LocStr "root" ->
        apply_operations previous_code operations
        = apply_operations_from (block op) after).
Proof.
  split_and!; [apply text_batch_located..|].
  intros before op after -> Hbefore Hroot. unfold apply_operations.
  rewrite text_operations_from_app.
  destruct (text_batch_located before (default "" previous_code)) as [_ Hok].
  destruct (Hok Hbefore) as (code1 & Hcode1).
  rewrite Hcode1. simpl. by rewrite Hroot.
Qed.

(** A delete located at ["root"] replaces the code by its block. *)
Example root_delete_replaces_code :
  apply_operations (Some Spec.scenario_c)
    [{| operation := "add";
        location := LocObj {| after_line := "x"; before_line := "" |};
        block := "note"; reasoning := "" |};
     {| operation := "delete"; location := LocStr "root";
        block := "@startuml"; reasoning := "" |}]
  = Ok "@startuml".
Proof. reflexivity. Qed.

End TextPatcherMore.

(** ** Validation of the generated code *)

Module CodeValidationFacts.
Import CodeValidation PyFacts.

Lemma find_eq (p s : string) :
  find p s
  = if String.prefix p s then 0%Z
    else match s with
         | "" => (-1)%Z
         | String _ s' =>
             if (find p s' =? -1)%Z then (-1)%Z else (find p s' + 1)%Z
         end.
Proof. by destruct s. Qed.

Lemma find_range (p s : string) : find p s = (-1)%Z \/ (0 <= find p s)%Z.
Proof.
  induction s as [|c s IH]; rewrite find_eq.
  - destruct (String.prefix p ""); lia.
  - destruct (String.prefix p (String c s)); [lia|].
    destruct (Z.eqb_spec (find p s) (-1)); lia.
Qed.

Lemma contains_find (p s : string) :
  Py.contains p s = true <-> find p s <> (-1)%Z.
Proof.
  induction s as [|c s IH]; rewrite find_eq.
  - change (Py.contains p "") with (String.prefix p "" || false).
    destruct (String.prefix p ""); simpl; split; done.
  - change (Py.contains p (String c s))
      with (String.prefix p (String c s) || Py.contains p s).
    destruct (String.prefix p (String c s)); simpl; [split; done|].
    rewrite IH. destruct (Z.eqb_spec (find p s) (-1)); [done|].
    pose proof (find_range p s). split; [lia|done].
Qed.

Lemma str_length_app (a b : string) :
  String.length (a +:+ b) = (String.length a + String.length b)%nat.
Proof.
  induction a as [|c a IH]; [done|]. rewrite app_String. simpl. by rewrite IH.
Qed.

(** [find] returns the length of what comes before the first occurrence. *)
Lemma find_first_at (p s : string) :
  forall n : nat,
    find p s = Z.of_nat n
    <-> exists pre, first_at p s pre /\ String.length pre = n.
Proof.
  induction s as [|c s IH]; intros n; rewrite find_eq.
  - destruct (String.prefix p "") eqn:Hp.
    + apply prefix_true in Hp as [post Hp]. split.
      * intros H. exists "". split; [|simpl; lia].
        split; [by exists post|]. intros pre' post' _. simpl. lia.
      * intros (pre & [[post' H] _] & <-). by destruct pre.
    + split; [lia|]. intros (pre & [[post H] _] & _).
      destruct pre; [|done]. rewrite app_empty in H.
      assert (String.prefix p "" = true) by (apply prefix_true; by exists post).
      congruence.
  - destruct (String.prefix p (String c s)) eqn:Hp.
    + pose proof Hp as Hp'. apply prefix_true in Hp' as [post Hpost]. split.
      * intros H. exists "". split; [|simpl; lia].
        split; [by exists post|]. intros pre' post' _. simpl. lia.
      * intros (pre & [_ Hmin] & <-).
        specialize (Hmin "" post Hpost). simpl in Hmin.
        destruct pre; [done|simpl in Hmin; lia].
    + assert (forall post, String c s <> p +:+ post) as Hnot.
      { intros post H.
        assert (String.prefix p (String c s) = true)
          by (apply prefix_true; by exists post).
        congruence. }
      pose proof (find_range p s) as Hr.
      destruct (Z.eqb_spec (find p s) (-1)) as [Hm|Hm].
      * split; [lia|]. intros (pre & [[post H] _] & _).
        destruct pre as [|x pre]; [by apply Hnot in H|].
        rewrite app_String in H. injection H as _ H.
        assert (Py.contains p s = true) as Hc
          by (apply contains_true; by exists pre, post).
        by apply contains_find in Hc.
      * split.
        -- intros H. destruct n as [|n]; [lia|].
           destruct (proj1 (IH n)) as (pre & [[post Hs] Hmin] & Hlen); [lia|].
           exists (String c pre). split; [|simpl; by rewrite Hlen].
           split; [exists post; by rewrite app_String, <- Hs|].
           intros pre' post' H'. destruct pre' as [|x pre']; [by apply Hnot in H'|].
           rewrite app_String in H'. injection H' as _ H'.
           specialize (Hmin pre' post' H'). simpl. lia.
        -- intros (pre & [[post H] Hmin] & Hlen).
           destruct pre as [|x pre]; [by apply Hnot in H|].
           rewrite app_String in H. injection H as _ H.
           simpl in Hlen. destruct n as [|n]; [lia|].
           assert (find p s = Z.of_nat n) as Hn; [|lia].
           apply IH. exists pre. split; [|lia].
           split; [by exists post|]. intros pre' post' H'.
           specialize (Hmin (String c pre') post').
           rewrite app_String in Hmin. simpl in Hmin.
           assert (String c s = String c (pre' +:+ p +:+ post')) as Heq
             by (by rewrite H').
           specialize (Hmin Heq). lia.
Qed.

Lemma app_inv_prefix (pre1 : string) :
  forall pre2 a b : string,
    pre1 +:+ a = pre2 +:+ b ->
    (String.length pre1 <= String.length pre2)%nat ->
    exists m, pre2 = pre1 +:+ m /\ a = m +:+ b.
Proof.
  induction pre1 as [|c pre1 IH]; intros pre2 a b H Hlen.
  - by exists pre2.
  - destruct pre2 as [|d pre2]; [simpl in Hlen; lia|].
    rewrite !app_String in H. injection H as -> H.
    simpl in Hlen. destruct (IH pre2 a b H) as (m & -> & ->); [lia|].
    by exists m.
Qed.

(** The end tag cannot start inside the start tag. *)
Lemma tags_do_not_overlap (m rest post : string) :
  "@startuml" +:+ rest = m +:+ "@enduml" +:+ post ->
  m <> "" ->
  exists mid, m = "@startuml" +:+ mid.
Proof.
  intros H Hm. destruct m as [|c m]; [done|]. clear Hm.
  rewrite !app_String in H. injection H as <- H.
  do 8 (destruct m as [|? m];
        [rewrite ?app_String, ?app_empty in H; discriminate H
        |rewrite ?app_String in H; injection H as <- H]).
  by exists m.
Qed.

Lemma substring_skip (pre s : string) (m : nat) :
  String.substring (String.length pre) m (pre +:+ s) = String.substring 0 m s.
Proof. induction pre as [|c pre IH]; [done|]. rewrite app_String. simpl. apply IH. Qed.

Lemma substring_first (mid post : string) :
  String.substring 0 (String.length mid) (mid +:+ post) = mid.
Proof.
  induction mid as [|c mid IH]; [by destruct post|].
  rewrite app_String. simpl. by rewrite IH.
Qed.

Lemma slice_mid (pre mid post : string) :
  slice (pre +:+ mid +:+ post) (Z.of_nat (String.length pre))
    (Z.of_nat (String.length pre + String.length mid))
  = mid.
Proof.
  unfold slice. rewrite Nat2Z.id.
  replace (Z.to_nat (Z.of_nat (String.length pre + String.length mid)
                     - Z.of_nat (String.length pre)))
    with (String.length mid) by lia.
  by rewrite substring_skip, substring_first.
Qed.

Lemma validate_code_spec (code : string) :
  validate_code code = (true, "")
  <-> exists pre mid,
        first_at "@startuml" (Py.strip code) pre
        /\ first_at "@enduml" (Py.strip code) (pre +:+ "@startuml" +:+ mid)
        /\ Py.strip mid <> "".
Proof.
  unfold validate_code. set (c := Py.strip code). split.
  - destruct (String.eqb code ""); [done|].
    destruct (Py.contains "@startuml" c) eqn:Hs; [|done].
    destruct (Py.contains "@enduml" c) eqn:He; [|done]. simpl.
    apply contains_find in Hs, He.
    destruct (find_range "@startuml" c) as [|Hs0]; [done|].
    destruct (find_range "@enduml" c) as [|He0]; [done|].
    destruct (Z.geb_spec (find "@startuml" c) (find "@enduml" c)) as [|Hlt];
      [done|].
    destruct (proj1 (find_first_at "@startuml" c
                       (Z.to_nat (find "@startuml" c)))) as (pre1 & Hf1 & Hl1);
      [lia|].
    destruct (proj1 (find_first_at "@enduml" c
                       (Z.to_nat (find "@enduml" c)))) as (pre2 & Hf2 & Hl2);
      [lia|].
    destruct Hf1 as [[post1 Hc1] Hmin1]. destruct Hf2 as [[post2 Hc2] Hmin2].
    destruct (app_inv_prefix pre1 pre2 ("@startuml" +:+ post1)
                ("@enduml" +:+ post2)) as (m & -> & Hm);
      [by rewrite <- Hc1, <- Hc2 | lia |].
    destruct (tags_do_not_overlap m post1 post2 Hm) as (mid & ->).
    { intros ->. rewrite app_empty_r in Hl2. lia. }
    assert (slice c (find "@startuml" c + 9) (find "@enduml" c) = mid) as ->.
    { assert (c = (pre1 +:+ "@startuml") +:+ mid +:+ ("@enduml" +:+ post2))
        as Hc3 by (rewrite Hc2 at 1; by rewrite !app_assoc).
      rewrite Hc3 at 1.
      replace (find "@startuml" c + 9)%Z
        with (Z.of_nat (String.length (pre1 +:+ "@startuml")))
        by (rewrite str_length_app; simpl; lia).
      replace (find "@enduml" c)
        with (Z.of_nat (String.length (pre1 +:+ "@startuml")
                        + String.length mid)).
      - apply slice_mid.
      - rewrite !str_length_app in Hl2. rewrite str_length_app. simpl in *. lia. }
    destruct (String.eqb_spec (Py.strip mid) "") as [|Hne]; [done|].
    intros _. exists pre1, mid. split_and!; [| |done].
    + split; [by exists post1|done].
    + split; [by exists post2|done].
  - intros (pre & mid & Hf1 & Hf2 & Hmid).
    pose proof Hf1 as [[post1 Hc1] _]. pose proof Hf2 as [[post2 Hc2] _].
    destruct (String.eqb_spec code "") as [->|_].
    { by destruct pre. }
    assert (Py.contains "@startuml" c = true) as ->
      by (apply contains_true; by exists pre, post1).
    assert (Py.contains "@enduml" c = true) as ->
      by (apply contains_true; by eexists _, post2).
    simpl.
    assert (find "@startuml" c = Z.of_nat (String.length pre)) as Hs
      by (apply find_first_at; by exists pre).
    assert (find "@enduml" c
            = Z.of_nat (String.length (pre +:+ "@startuml" +:+ mid))) as He
      by (apply find_first_at; by eexists).
    rewrite !str_length_app in He.
    change (String.length "@startuml") with 9%nat in He.
    destruct (Z.geb_spec (find "@startuml" c) (find "@enduml" c)) as [|_]; [lia|].
    assert (slice c (find "@startuml" c + 9) (find "@enduml" c) = mid) as ->.
    { assert (c = (pre +:+ "@startuml") +:+ mid +:+ ("@enduml" +:+ post2))
        as Hc3 by (rewrite Hc2 at 1; by rewrite !app_assoc).
      rewrite Hc3 at 1.
      replace (find "@startuml" c + 9)%Z
        with (Z.of_nat (String.length (pre +:+ "@startuml")))
        by (rewrite str_length_app; simpl; lia).
      replace (find "@enduml" c)
        with (Z.of_nat (String.length (pre +:+ "@startuml")
                        + String.length mid))
        by (rewrite str_length_app; simpl; lia).
      apply slice_mid. }
    by destruct (String.eqb_spec (Py.strip mid) "").
Qed.

(** X16. The validation of the generated code passes exactly when the
    diagram state names a file that exists and whose content, stripped,
    has its first [@startuml] before its first [@enduml], with something
    other than white space between the two tags. *)
Theorem validate_output_passes_iff
    (files : gmap string string) (diagram_state : option Ledger.DiagramState) :
  validate_output files diagram_state = (true, "")
  <-> exists ds code_file_path code pre mid,
        diagram_state = Some ds
        /\ Ledger.st_plantuml_code_file_path ds = Some code_file_path
        /\ code_file_path <> ""
        /\ files !! code_file_path = Some code
        /\ first_at "@startuml" (Py.strip code) pre
        /\ first_at "@enduml" (Py.strip code) (pre +:+ "@startuml" +:+ mid)
        /\ Py.strip mid <> "".
Proof.
  unfold validate_output. split.
  - destruct diagram_state as [ds|]; [|done].
    destruct (Ledger.st_plantuml_code_file_path ds) as [path|] eqn:Hpath; [|done].
    destruct (String.eqb_spec path "") as [|Hne]; [done|].
    destruct (files !! path) as [code|] eqn:Hfile; [|done].
    intros (pre & mid & H1 & H2 & H3)%validate_code_spec.
    by exists ds, path, code, pre, mid.
  - intros (ds & path & code & pre & mid & -> & -> & Hne & -> & H1 & H2 & H3).
    destruct (String.eqb_spec path "") as [|_]; [done|].
    apply validate_code_spec. by exists pre, mid.
Qed.

End CodeValidationFacts.

(** ** The retry decorator: bounds and what reaches the caller *)

Module RetryMore.
Import Decorators RetryFacts.

Section Retry.
Context {W R E : Type}.
Variable exn_str : E -> string.
Variable name : string.
Variable max_retries : Z.
Variable validation_method : validation W R E.
Variable func : W -> W * (E + R).

Local Abbreviation try_body := (try_body validation_method func).
Local Abbreviation attempts :=
  (attempts exn_str name max_retries validation_method func).
Local Abbreviation wrapper :=
  (wrapper exn_str name max_retries validation_method func).
Local Abbreviation exhausted_message :=
  (exhausted_message exn_str name max_retries).

Lemma attempts_started_attempt (out : log E) (attempt : Z) (printed rest : log E) :
  attempts_started printed = 0%nat ->
  attempts_started rest = 0%nat ->
  attempts_started (out ++ EvAttempt attempt max_retries :: printed ++ rest)
  = S (attempts_started out).
Proof.
  intros Hp Hr.
  change (EvAttempt attempt max_retries :: printed ++ rest)
    with ([EvAttempt attempt max_retries] ++ printed ++ rest).
  rewrite !attempts_started_app, Hp, Hr. unfold attempts_started. simpl. lia.
Qed.

(** The loop starts one attempt for each number that remains, until an
    attempt returns. *)
Lemma attempts_count (remaining : list Z) :
  forall (last_error : option (raised E)) (last_validation_error : option string)
         (w w' : W) (out out' : log E) (res : string + R),
    attempts remaining last_error last_validation_error w out = (w', out', res) ->
    match res with
    | inl _ => attempts_started out' = (attempts_started out + length remaining)%nat
    | inr _ => (attempts_started out < attempts_started out'
                <= attempts_started out + length remaining)%nat
    end.
Proof.
  induction remaining as [|attempt rest IH];
    intros last_error lve w w' out out' res Hloop.
  - simpl in Hloop. injection Hloop as <- <- <-. simpl. lia.
  - simpl in Hloop.
    destruct (try_body attempt w) as [[w1 printed] [e|r]] eqn:Hbody.
    + destruct (try_body_printed _ _ _ _ _ _ _ Hbody) as [Hzero _].
      apply IH in Hloop.
      rewrite attempts_started_attempt in Hloop;
        [|done|by destruct (attempt <? max_retries)%Z].
      destruct res; simpl; lia.
    + injection Hloop as <- <- <-.
      destruct (try_body_printed _ _ _ _ _ _ _ Hbody) as [Hzero _].
      pose proof (attempts_started_attempt out attempt printed [] Hzero eq_refl)
        as Hone.
      rewrite app_nil_r in Hone. rewrite Hone. simpl. lia.
Qed.

(** X17. The wrapper never starts more than [max_retries] attempts. When it
    raises its [RuntimeError] it has started exactly that many, and when it
    returns a value it has started at least one. *)
Theorem wrapper_attempts_bounded (w w' : W) (out : log E) (res : string + R) :
  wrapper w = (w', out, res) ->
  (attempts_started out <= Z.to_nat max_retries)%nat
  /\ match res with
     | inl _ => attempts_started out = Z.to_nat max_retries
     | inr _ => (1 <= attempts_started out)%nat
     end.
Proof.
  intros Hw. unfold Decorators.wrapper in Hw.
  apply attempts_count in Hw. rewrite length_seqZ in Hw.
  change (attempts_started []) with 0%nat in Hw.
  destruct res; lia.
Qed.

(** X18. With [max_retries] zero or negative the range of attempts is
    empty: the method is never called, nothing is printed and the world is
    left as it was, and the [RuntimeError] reports [None] as last error. *)
Theorem no_attempt_without_retries (w : W) :
  (max_retries <= 0)%Z ->
  wrapper w
  = (w, [], inl ("[" +:+ name +:+ "] Failed after " +:+ pretty max_retries
                 +:+ " attempts. Last error: None")).
Proof.
  intros Hmax. unfold Decorators.wrapper.
  assert (seqZ 1 max_retries = []) as ->.
  { apply length_zero_iff_nil. rewrite length_seqZ. lia. }
  reflexivity.
Qed.

(** What the loop returns was returned by the method, and accepted by the
    validator when there is one. *)
Lemma attempts_returned (remaining : list Z) :
  forall (last_error : option (raised E)) (last_validation_error : option string)
         (w w' : W) (out out' : log E) (r : R),
    attempts remaining last_error last_validation_error w out = (w', out', inr r) ->
    exists w0 w1,
      func w0 = (w1, inr r)
      /\ match validation_method with
         | Validator validator =>
             exists error_msg, validator r w1 = (w', inr (true, error_msg))
         | _ => w' = w1
         end.
Proof.
  induction remaining as [|attempt rest IH];
    intros last_error lve w w' out out' r Hloop.
  - done.
  - simpl in Hloop.
    destruct (try_body attempt w) as [[w1 printed] [e|r1]] eqn:Hbody.
    + by apply IH in Hloop.
    + injection Hloop as <- _ <-.
      unfold Decorators.try_body in Hbody.
      destruct (func w) as [w0 [e|r0]] eqn:Hf; [done|].
      exists w, w0.
      destruct validation_method as [| |validator].
      * injection Hbody as <- _ <-. done.
      * injection Hbody as <- _ <-. done.
      * destruct (validator r0 w0) as [w2 [e|[[] msg]]] eqn:Hv; try done.
        injection Hbody as <- _ <-. split; [done|]. by exists msg.
Qed.

(** X19. The wrapper returns nothing of its own: a value it returns was
    returned by the method in some world, and when a validator is there, the
    validator accepted that value and left the world the wrapper ends in. A
    value the validator refused never reaches the caller. *)
Theorem returned_value_was_accepted (w w' : W) (out : log E) (r : R) :
  wrapper w = (w', out, inr r) ->
  exists w0 w1,
    func w0 = (w1, inr r)
    /\ match validation_method with
       | Validator validator =>
           exists error_msg, validator r w1 = (w', inr (true, error_msg))
       | _ => w' = w1
       end.
Proof. apply attempts_returned. Qed.

End Retry.

Lemma wrapper_attempts_bounded_witness :
  (attempts_started
     ([EvAttempt 1 3; EvAttemptFailed 1 (ValidationFailed "not yet"); EvRetrying;
       EvAttempt 2 3; EvValidationPassed 2] : log string) <= Z.to_nat 3)%nat
  /\ (1 <= attempts_started
             ([EvAttempt 1 3; EvAttemptFailed 1 (ValidationFailed "not yet");
               EvRetrying; EvAttempt 2 3; EvValidationPassed 2] : log string))%nat.
Proof.
  apply (wrapper_attempts_bounded (fun e : string => e) "Node" 3
           (Validator (fun result calls => (calls, inr (Nat.eqb result 2, "not yet"))))
           (fun calls : nat => (S calls, inr (S calls))) 0%nat 2%nat _ (inr 2%nat)).
  reflexivity.
Defined.

Lemma no_attempt_without_retries_witness :
  wrapper (fun e : string => e) "Node" 0 NoValidation
    (fun calls : nat => (S calls, inr tt : string + unit)) 0%nat
  = (0%nat, [], inl "[Node] Failed after 0 attempts. Last error: None").
Proof.
  apply (no_attempt_without_retries (fun e : string => e) "Node" 0 NoValidation
           (fun calls : nat => (S calls, inr tt : string + unit)) 0%nat).
  lia.
Defined.

Lemma returned_value_was_accepted_witness :
  exists w0 w1 : nat,
    (S w0, inr (S w0) : string + nat) = (w1, inr 2%nat)
    /\ exists error_msg,
         (w1, inr (Nat.eqb 2 2, "not yet") : string + bool * string)
         = (2%nat, inr (true, error_msg)).
Proof.
  apply (returned_value_was_accepted (fun e : string => e) "Node" 3
           (Validator (fun result calls => (calls, inr (Nat.eqb result 2, "not yet"))))
           (fun calls : nat => (S calls, inr (S calls))) 0%nat 2%nat
           [EvAttempt 1 3; EvAttemptFailed 1 (ValidationFailed "not yet"); EvRetrying;
            EvAttempt 2 3; EvValidationPassed 2] 2%nat).
  reflexivity.
Defined.

End RetryMore.

(** ** Stable sorting *)

Module PySortFacts.
Import PySort.

Section Sort.
Context {A K : Type}.
Variable ltb : K -> K -> bool.
Variable key : A -> K.

Hypothesis ltb_asym : forall a b, ltb a b = true -> ltb b a = false.
Hypothesis leb_trans :
  forall a b c, ltb b a = false -> ltb c b = false -> ltb c a = false.

Local Abbreviation insert := (insert ltb key).
Local Abbreviation sort := (sort ltb key).

Local Abbreviation sorted := (sorted ltb key).

Lemma insert_perm (x : A) (s : list A) : insert x s ≡ₚ x :: s.
Proof.
  induction s as [|y s IH]; simpl; [done|].
  destruct (ltb (key y) (key x)); [|done].
  rewrite IH. apply Permutation_swap.
Qed.

Lemma sort_perm (l : list A) : sort l ≡ₚ l.
Proof.
  induction l as [|x l IH]; [done|].
  unfold PySort.sort in *. simpl. by rewrite insert_perm, IH.
Qed.

Lemma insert_sorted (x : A) (s : list A) : sorted s -> sorted (insert x s).
Proof.
  induction s as [|y s IH]; simpl; [done|]. intros [Hy Hs].
  destruct (ltb (key y) (key x)) eqn:Hyx; simpl.
  - split; [|by apply IH].
    rewrite insert_perm. constructor; [by apply ltb_asym|done].
  - split; [|done]. constructor; [done|].
    eapply Forall_impl; [exact Hy|]. intros z Hz. simpl in Hz.
    by apply (leb_trans (key x) (key y) (key z)).
Qed.

Lemma sort_sorted (l : list A) : sorted (sort l).
Proof.
  induction l as [|x l IH]; [done|]. by apply insert_sorted.
Qed.

Lemma sorted_ascending (l : list A) : sorted l -> ascending ltb key l.
Proof.
  induction l as [|x l IH]; intros Hs i j a b Hij Hi Hj; [done|].
  destruct Hs as [Hx Hs].
  destruct j as [|j]; [lia|]. simpl in Hj.
  destruct i as [|i]; simpl in Hi.
  - injection Hi as <-. rewrite Forall_forall in Hx. apply Hx.
    by eapply list_elem_of_lookup_2.
  - apply (IH Hs i j); [lia|done..].
Qed.

(** Inserting does not change the order of the elements that pass a test
    on the key which elements of different keys cannot both pass. *)
Lemma filter_insert (p : A -> bool) (x : A) (s : list A) :
  (forall a b, p a = true -> p b = true -> ltb (key a) (key b) = false) ->
  List.filter p (insert x s) = List.filter p (x :: s).
Proof.
  intros Hp. induction s as [|y s IH]; [done|].
  simpl. destruct (ltb (key y) (key x)) eqn:Hyx; [|done].
  simpl. simpl in IH. rewrite IH.
  destruct (p y) eqn:Hy, (p x) eqn:Hx; try done.
  by rewrite (Hp y x) in Hyx.
Qed.

Lemma filter_sort (p : A -> bool) (l : list A) :
  (forall a b, p a = true -> p b = true -> ltb (key a) (key b) = false) ->
  List.filter p (sort l) = List.filter p l.
Proof.
  intros Hp. induction l as [|x l IH]; [done|].
  unfold PySort.sort in *. simpl foldr. rewrite filter_insert by done.
  simpl. by rewrite IH.
Qed.

(** A list that is already in order is left as it is. *)
Lemma sort_sorted_id (l : list A) : sorted l -> sort l = l.
Proof.
  induction l as [|x l IH]; [done|]. intros [Hx Hs].
  unfold PySort.sort in *. simpl. rewrite (IH Hs).
  destruct l as [|y l]; [done|]. simpl.
  apply Forall_cons in Hx as [Hy _]. by rewrite Hy.
Qed.

End Sort.

End PySortFacts.

(** ** Reading the version ledger *)

Module LedgerQueriesFacts.
Import Ledger LedgerQueries LedgerFacts.

Lemma head_insert_desc (x : diagram_record) (s : list diagram_record) :
  head (insert_desc x s)
  = Some (match head s with
          | Some y => if (version x <? version y)%nat then y else x
          | None => x
          end).
Proof.
  destruct s as [|y s]; [done|]. simpl.
  by destruct (version x <? version y)%nat.
Qed.

(** The head of the list sorted by decreasing version: the first record
    among those of highest version. *)
Lemma head_sort_desc (l : list diagram_record) :
  match head (sort_by_version_desc l) with
  | None => l = []
  | Some r =>
      exists pre post,
        l = pre ++ r :: post
        /\ Forall (fun r' => (version r' < version r)%nat) pre
        /\ Forall (fun r' => (version r' <= version r)%nat) post
  end.
Proof.
  induction l as [|x l IH]; [done|].
  unfold sort_by_version_desc in *. simpl. rewrite head_insert_desc. 
  destruct (head (foldr insert_desc [] l)) as [y|].
  - destruct IH as (pre & post & -> & Hpre & Hpost).
    destruct (version x <? version y)%nat eqn:Hxy.
    + apply Nat.ltb_lt in Hxy. exists (x :: pre), post.
      split; [done|]. split; [by constructor|done].
    + apply Nat.ltb_ge in Hxy. exists [], (pre ++ y :: post).
      split; [done|]. split; [done|].
      apply Forall_app. split.
      * eapply Forall_impl; [exact Hpre|]. simpl. lia.
      * constructor; [done|]. eapply Forall_impl; [exact Hpost|]. simpl. lia.
  - subst l. exists [], []. done.
Qed.

(** X20. [get_latest_diagram] returns [None] exactly when the file has no
    diagram of the key. Otherwise it returns a diagram of the key of the
    highest version, and among several of that version the one that comes
    first in the file. *)
Theorem get_latest_diagram_is_first_maximal
    (diagrams : db) (user thread dtype : string) :
  match get_latest_diagram diagrams user thread dtype with
  | None => matching_diagrams diagrams user thread dtype = []
  | Some r =>
      exists pre post,
        matching_diagrams diagrams user thread dtype = pre ++ r :: post
        /\ Forall (fun r' => (version r' < version r)%nat) pre
        /\ Forall (fun r' => (version r' <= version r)%nat) post
  end.
Proof. apply head_sort_desc. Qed.

Lemma nat_leb_trans (a b c : nat) :
  (b <? a)%nat = false -> (c <? b)%nat = false -> (c <? a)%nat = false.
Proof. rewrite !Nat.ltb_ge. lia. Qed.

Lemma nat_ltb_asym (a b : nat) : (a <? b)%nat = true -> (b <? a)%nat = false.
Proof. rewrite Nat.ltb_lt, Nat.ltb_ge. lia. Qed.

(** X21. [get_diagram_versions] returns the diagrams of the key, each as
    often as the file has it, by increasing version, and those of one
    version in the order of the file. *)
Theorem get_diagram_versions_sorted
    (diagrams : db) (user thread dtype : string) :
  let versions := get_diagram_versions diagrams user thread dtype in
  versions ≡ₚ matching_diagrams diagrams user thread dtype
  /\ (forall i j x y,
        (i < j)%nat -> versions !! i = Some x -> versions !! j = Some y ->
        (version x <= version y)%nat)
  /\ (forall v,
        of_version v versions
        = of_version v (matching_diagrams diagrams user thread dtype)).
Proof.
  intros versions. subst versions. unfold get_diagram_versions. split_and!.
  - apply PySortFacts.sort_perm.
  - intros i j x y Hij Hi Hj.
    pose proof (PySortFacts.sorted_ascending Nat.ltb version _
                  (PySortFacts.sort_sorted Nat.ltb version nat_ltb_asym
                     nat_leb_trans _) i j x y Hij Hi Hj) as H.
    apply Nat.ltb_ge in H. done.
  - intros v. apply PySortFacts.filter_sort.
    intros a b Ha%Nat.eqb_eq Hb%Nat.eqb_eq. apply Nat.ltb_ge. lia.
Qed.

Lemma last_of_ascending (l : list diagram_record) (z x : diagram_record) :
  PySort.ascending Nat.ltb version l ->
  last l = Some z -> x ∈ l -> (version x <= version z)%nat.
Proof.
  intros Hasc Hlast [i Hi]%list_elem_of_lookup.
  rewrite last_lookup in Hlast.
  pose proof (lookup_lt_Some _ _ _ Hi) as Hlen.
  destruct (decide (i = pred (length l))) as [->|Hne].
  - rewrite Hi in Hlast. by injection Hlast as ->.
  - pose proof (Hasc i (pred (length l)) x z) as H.
    rewrite Nat.ltb_ge in H. apply H; [lia|done..].
Qed.

Lemma version_inj (l : list diagram_record) (x y : diagram_record) :
  NoDup (map version l) -> x ∈ l -> y ∈ l -> version x = version y -> x = y.
Proof.
  induction l as [|a l IH]; simpl; intros Hnd Hx Hy Hv.
  - by apply elem_of_nil in Hx.
  - apply NoDup_cons in Hnd as [Ha Hnd].
    apply elem_of_cons in Hx as [->|Hx]; apply elem_of_cons in Hy as [->|Hy].
    + done.
    + exfalso. apply Ha. rewrite Hv. by apply list_elem_of_fmap_2.
    + exfalso. apply Ha. rewrite <- Hv. by apply list_elem_of_fmap_2.
    + by apply IH.
Qed.

(** X22. When no two diagrams of the key have the same version, the
    diagram [get_latest_diagram] returns is the last one of the list
    [get_diagram_versions] returns. *)
Theorem latest_is_last_of_versions
    (diagrams : db) (user thread dtype : string) :
  NoDup (map version (matching_diagrams diagrams user thread dtype)) ->
  get_latest_diagram diagrams user thread dtype
  = last (get_diagram_versions diagrams user thread dtype).
Proof.
  intros Hnd.
  pose proof (head_sort_desc (matching_diagrams diagrams user thread dtype)) as Hl.
  unfold get_latest_diagram, get_diagram_versions.
  set (chain := matching_diagrams diagrams user thread dtype) in *.
  pose proof (PySortFacts.sort_perm Nat.ltb version chain) as Hperm.
  pose proof (PySortFacts.sorted_ascending Nat.ltb version _
                (PySortFacts.sort_sorted Nat.ltb version nat_ltb_asym
                   nat_leb_trans chain)) as Hasc.
  destruct (head (sort_by_version_desc chain)) as [r|].
  - destruct Hl as (pre & post & Hchain & Hpre & Hpost).
    destruct (last (PySort.sort Nat.ltb version chain)) as [z|] eqn:Hlast.
    + f_equal. apply (version_inj chain); [done| | |].
      * rewrite Hchain. apply elem_of_app. right. by left.
      * rewrite <- Hperm. by apply last_Some_elem_of.
      * assert (r ∈ PySort.sort Nat.ltb version chain) as Hr.
        { rewrite Hperm, Hchain. apply elem_of_app. right. by left. }
        pose proof (last_of_ascending _ z r Hasc Hlast Hr) as H1.
        assert (z ∈ chain) as Hz.
        { rewrite <- Hperm. by apply last_Some_elem_of. }
        rewrite Hchain in Hz. rewrite Forall_forall in Hpre, Hpost.
        apply elem_of_app in Hz as [Hz|Hz].
        -- apply Hpre in Hz. lia.
        -- apply elem_of_cons in Hz as [->|Hz]; [done|].
           apply Hpost in Hz. lia.
    + apply last_None in Hlast. rewrite Hlast in Hperm.
      apply Permutation_nil_l in Hperm. rewrite Hchain in Hperm.
      by destruct pre.
  - rewrite Hl. done.
Qed.

Lemma latest_is_last_of_versions_witness :
  get_latest_diagram (run_all [] Spec.sample_runs) "u" "t" "class"
  = last (get_diagram_versions (run_all [] Spec.sample_runs) "u" "t" "class").
Proof.
  apply (latest_is_last_of_versions (run_all [] Spec.sample_runs) "u" "t" "class").
  apply (bool_decide_unpack _). vm_compute. exact I.
Defined.

Lemma filter_all_eq (t : DiagramType) (types : list DiagramType) :
  List.filter (fun t' => String.eqb (value t') (value t)) types
  = replicate
      (length (List.filter (fun t' => bool_decide (t' = t)) types)) t.
Proof.
  induction types as [|a types IH]; [done|]. simpl.
  destruct (String.eqb_spec (value a) (value t)) as [Heq|Hne].
  - apply value_inj in Heq as ->. rewrite bool_decide_eq_true_2 by done.
    simpl. by rewrite IH.
  - rewrite bool_decide_eq_false_2 by (by intros ->). done.
Qed.

(** X23. A run that names a diagram type twice writes the same record
    twice: both are versioned against the file as it was when the run
    began, so they have the same version, the same parent and the same
    diagram id, and the diagrams of the key are no longer well chained. *)
Theorem run_naming_a_type_twice (diagrams : db) (r : run) (t : DiagramType) :
  names_twice r t ->
  let chain :=
    matching_diagrams (run_driver diagrams r) (run_user_id r) (run_thread_id r)
      (value t) in
  (exists (rec : diagram_record) (i : nat),
      chain !! i = Some rec /\ chain !! S i = Some rec)
  /\ ~ well_chained chain.
Proof.
  intros Htwice chain.
  assert (exists (rec : diagram_record) (i : nat),
             chain !! i = Some rec /\ chain !! S i = Some rec) as Hsame.
  { subst chain. unfold run_driver, matching_diagrams.
    rewrite update_after_run_app, List.filter_app, filter_map_swap.
    set (prep := fun dtype => prepare_record _ _ _ _ dtype _).
    rewrite (List.filter_ext _ (fun t' => String.eqb (value t') (value t))).
    2:{ intros a. unfold matches.
      destruct (prepare_record_key diagrams (run_user_id r) (run_thread_id r)
                  (run_message_id r) a (run_state r a)) as (-> & -> & -> & _).
      by rewrite !String.eqb_refl. }
    rewrite filter_all_eq. unfold names_twice in Htwice.
    destruct (length (List.filter (fun t' => bool_decide (t' = t))
                        (effective_types r))) as [|[|n]]; [lia..|].
    simpl. set (old := List.filter _ diagrams).
    exists (prep t), (length old). split.
    - by rewrite lookup_app_r, Nat.sub_diag by lia.
    - rewrite lookup_app_r by lia.
      by replace (S (length old) - length old)%nat with 1%nat by lia. }
  split; [done|].
  intros Hwc. destruct Hsame as (rec & i & Hi & Hj).
  destruct (Hwc i rec Hi) as [H1 _]. destruct (Hwc (S i) rec Hj) as [H2 _]. lia.
Qed.

Lemma run_naming_a_type_twice_witness :
  (exists (rec : diagram_record) (i : nat),
      matching_diagrams (run_driver [] twice_run) "u" "t" "class" !! i = Some rec
      /\ matching_diagrams (run_driver [] twice_run) "u" "t" "class" !! S i
         = Some rec)
  /\ ~ well_chained (matching_diagrams (run_driver [] twice_run) "u" "t" "class").
Proof.
  apply (run_naming_a_type_twice [] twice_run CLASS).
  unfold names_twice. simpl. lia.
Defined.

Lemma run_all_well_chained
    (diagrams : db) (runs : list run) (user thread dtype : string) :
  matching_diagrams diagrams user thread dtype = [] ->
  Forall (fun r => NoDup (run_diagram_types r)) runs ->
  well_chained (matching_diagrams (run_all diagrams runs) user thread dtype).
Proof.
  intros Hempty Hnd.
  induction runs as [|r runs IH] using rev_ind.
  - unfold run_all. simpl. rewrite Hempty. by intros i rec.
  - split_last_run Hnd Hr.
    rewrite run_all_snoc. apply run_driver_well_chained; auto.
Qed.

Lemma well_chained_sorted (chain : list diagram_record) :
  well_chained chain -> PySort.sorted Nat.ltb version chain.
Proof.
  induction chain as [|x chain IH] using rev_ind; [done|].
  intros Hwc.
  assert (forall l (y : diagram_record),
             PySort.sorted Nat.ltb version l ->
             Forall (fun z => (version y <? version z)%nat = false) l ->
             PySort.sorted Nat.ltb version (l ++ [y])) as Hsnoc.
  { induction l as [|a l IHl]; intros y Hs Hall; simpl; [done|].
    destruct Hs as [Ha Hs]. apply Forall_cons in Hall as [Hay Hall].
    split; [|by apply IHl].
    apply Forall_app. split; [done|]. by constructor. }
  apply Hsnoc.
  - apply IH. intros i rec Hi.
    pose proof (lookup_lt_Some _ _ _ Hi) as Hlen.
    destruct (Hwc i rec) as [H1 H2]; [by rewrite lookup_app_l|].
    split; [done|]. destruct i as [|j]; [done|].
    rewrite lookup_app_l in H2 by lia. done.
  - apply Forall_forall. intros z [i Hi]%list_elem_of_lookup.
    pose proof (lookup_lt_Some _ _ _ Hi) as Hlen.
    destruct (Hwc i z) as [H1 _]; [by rewrite lookup_app_l|].
    destruct (Hwc (length chain) x) as [H2 _].
    { by rewrite lookup_app_r, Nat.sub_diag by lia. }
    apply Nat.ltb_ge. lia.
Qed.

(** X24. On a ledger written by runs of the driver, none of which names a
    diagram type twice, starting from a file without diagrams of the key:
    [get_diagram_versions] lists the diagrams of the key in the order in
    which they were written, [get_latest_diagram] returns the one written
    last, and the version [_infer_version] announces is one more than the
    number of runs that committed under the key, which is the version the
    driver gives the record it prepares. *)
Theorem versions_of_runs_in_commit_order
    (diagrams : db) (runs : list run) (user thread : string) (t : DiagramType) :
  matching_diagrams diagrams user thread (value t) = [] ->
  Forall (fun r => NoDup (run_diagram_types r)) runs ->
  let ledger := run_all diagrams runs in
  get_diagram_versions ledger user thread (value t)
  = matching_diagrams ledger user thread (value t)
  /\ get_latest_diagram ledger user thread (value t)
     = last (matching_diagrams ledger user thread (value t))
  /\ _infer_version ledger user thread t
     = S (length (List.filter (commits_under user thread (value t)) runs))
  /\ (forall message st,
        version (prepare_record ledger user thread message t st)
        = _infer_version ledger user thread t).
Proof.
  intros Hempty Hnd ledger. subst ledger.
  pose proof (run_all_well_chained diagrams runs user thread (value t) Hempty Hnd)
    as Hwc.
  pose proof (get_latest_well_chained _ _ _ _ Hwc) as Hlatest.
  split_and!.
  - unfold get_diagram_versions. apply PySortFacts.sort_sorted_id.
    by apply well_chained_sorted.
  - done.
  - unfold _infer_version. rewrite Hlatest.
    rewrite <- (run_all_chain_length diagrams runs user thread (value t))
      by done.
    set (chain := matching_diagrams (run_all diagrams runs) user thread (value t))
      in *.
    clearbody chain.
    induction chain as [|r0 c0 _] using rev_ind; [done|].
    rewrite last_snoc, length_app. simpl.
    destruct (Hwc (length c0) r0) as [Hv _].
    { by rewrite lookup_app_r, Nat.sub_diag by lia. }
    lia.
  - intros message st. unfold _infer_version.
    pose proof (prepare_record_version (run_all diagrams runs) user thread
                  message t st) as Hver.
    simpl in Hver.
    destruct (get_latest_diagram (run_all diagrams runs) user thread (value t));
      destruct Hver as [Hv _]; lia.
Qed.

Lemma versions_of_runs_in_commit_order_witness :
  get_diagram_versions (run_all [] Spec.sample_runs) "u" "t" (value CLASS)
  = matching_diagrams (run_all [] Spec.sample_runs) "u" "t" (value CLASS)
  /\ get_latest_diagram (run_all [] Spec.sample_runs) "u" "t" (value CLASS)
     = last (matching_diagrams (run_all [] Spec.sample_runs) "u" "t" (value CLASS))
  /\ _infer_version (run_all [] Spec.sample_runs) "u" "t" CLASS
     = S (length (List.filter (commits_under "u" "t" (value CLASS))
                    Spec.sample_runs))
  /\ (forall message st,
        version (prepare_record (run_all [] Spec.sample_runs) "u" "t" message
                   CLASS st)
        = _infer_version (run_all [] Spec.sample_runs) "u" "t" CLASS).
Proof.
  apply (versions_of_runs_in_commit_order [] Spec.sample_runs "u" "t" CLASS).
  - reflexivity.
  - apply (bool_decide_unpack _). vm_compute. exact I.
Defined.

End LedgerQueriesFacts.

(** ** The message store *)

Module MessagesFacts.
Import Messages.

(** *** The order of strings *)

Lemma ascii_compare_Lt (a b : ascii) :
  Ascii.compare a b = Lt <-> (N_of_ascii a < N_of_ascii b)%N.
Proof. unfold Ascii.compare. by rewrite N.compare_lt_iff. Qed.

Lemma ascii_compare_Gt (a b : ascii) :
  Ascii.compare a b = Gt <-> (N_of_ascii b < N_of_ascii a)%N.
Proof. unfold Ascii.compare. by rewrite N.compare_gt_iff. Qed.

Lemma ascii_compare_Eq (a b : ascii) :
  Ascii.compare a b = Eq <-> N_of_ascii a = N_of_ascii b.
Proof. unfold Ascii.compare. by rewrite N.compare_eq_iff. Qed.

Lemma compare_le_trans (a : string) :
  forall b c : string,
    String.compare a b <> Gt -> String.compare b c <> Gt ->
    String.compare a c <> Gt.
Proof.
  induction a as [|x a IH]; intros [|y b] [|z c]; simpl; try done.
  destruct (Ascii.compare x y) eqn:Hxy; [| |done];
    destruct (Ascii.compare y z) eqn:Hyz; try done;
    destruct (Ascii.compare x z) eqn:Hxz; try done;
    rewrite ?ascii_compare_Lt, ?ascii_compare_Gt, ?ascii_compare_Eq in *;
    try lia.
  apply IH.
Qed.

Lemma ltb_false (a b : string) :
  String.ltb a b = false <-> String.compare b a <> Gt.
Proof.
  unfold String.ltb. rewrite (String.compare_antisym a b).
  destruct (String.compare b a); simpl; split; done.
Qed.

Lemma string_leb_trans (a b c : string) :
  String.ltb b a = false -> String.ltb c b = false -> String.ltb c a = false.
Proof. rewrite !ltb_false. apply compare_le_trans. Qed.

Lemma string_ltb_asym (a b : string) :
  String.ltb a b = true -> String.ltb b a = false.
Proof.
  unfold String.ltb. rewrite (String.compare_antisym a b).
  by destruct (String.compare b a).
Qed.

Lemma string_ltb_irrefl (a : string) : String.ltb a a = false.
Proof.
  destruct (String.ltb a a) eqn:H; [|done].
  pose proof (string_ltb_asym a a H). congruence.
Qed.

(** *** Reading and writing messages *)

Lemma get_message_app (a b : db) (id : string) :
  get_message (a ++ b) id
  = match get_message a id with
    | Some m => Some m
    | None => get_message b id
    end.
Proof.
  unfold get_message. induction a as [|m a IH]; [done|]. simpl.
  by destruct (String.eqb (message_id m) id).
Qed.

(** X25. [get_message] returns the first message of the file with the id.
    After [add_message] it returns the message added when the file had no
    message of that id, and otherwise the older message: the new one cannot
    be read by its id. Messages of other ids are read as before. *)
Theorem get_message_after_add
    (messages : db) (user thread message prompt_ : string)
    (parent files : option string) (ids : option (list string)) (now : string)
    (id : string) :
  let added := add_message messages user thread message prompt_ parent files ids now in
  get_message added.1 id
  = match get_message messages id with
    | Some older => Some older
    | None => if String.eqb message id then Some added.2 else None
    end.
Proof.
  simpl. rewrite get_message_app. destruct (get_message messages id); [done|].
  unfold get_message. simpl. by destruct (String.eqb message id).
Qed.

Lemma update_message_spec (messages : db) (id : string)
    (ids : option (list string)) (completed : option string) :
  match get_message messages id with
  | None => update_message messages id ids completed = (messages, false)
  | Some m =>
      exists pre post,
        messages = pre ++ m :: post
        /\ get_message pre id = None
        /\ message_id m = id
        /\ update_message messages id ids completed
           = (pre ++ updated ids completed m :: post, true)
  end.
Proof.
  induction messages as [|m0 messages IH]; [done|].
  unfold get_message in *. simpl.
  destruct (String.eqb_spec (message_id m0) id) as [Heq|Hne].
  - exists [], messages. done.
  - destruct (List.find _ messages) as [m|].
    + destruct IH as (pre & post & -> & Hpre & Hid & ->).
      exists (m0 :: pre), post. split; [done|]. split; [|done].
      simpl. by destruct (String.eqb_spec (message_id m0) id).
    + by rewrite IH.
Qed.

(** X26. [update_message] changes the first message of the file with the
    id, and no other: it returns [True] exactly when [get_message] finds the
    id, the file keeps its length, the message read under the id afterwards
    is the old one with the new diagram ids and completion time, and every
    other id reads as before. When it returns [False] the file is as it
    was. *)
Theorem update_message_changes_first_match
    (messages : db) (id : string) (ids : option (list string))
    (completed : option string) :
  let result := update_message messages id ids completed in
  result.2 = bool_decide (is_Some (get_message messages id))
  /\ length result.1 = length messages
  /\ get_message result.1 id = updated ids completed <$> get_message messages id
  /\ (forall id', id' <> id -> get_message result.1 id' = get_message messages id')
  /\ (result.2 = false -> result.1 = messages).
Proof.
  simpl. pose proof (update_message_spec messages id ids completed) as Hspec.
  destruct (get_message messages id) as [m|] eqn:Hget.
  - destruct Hspec as (pre & post & -> & Hpre & Hid & ->). simpl.
    split_and!.
    + done.
    + by rewrite !length_app.
    + rewrite get_message_app, Hpre. unfold get_message. simpl.
      by rewrite Hid, String.eqb_refl.
    + intros id' Hne. rewrite !get_message_app.
      destruct (get_message pre id'); [done|].
      unfold get_message. simpl. rewrite Hid.
      by destruct (String.eqb_spec id id').
    + done.
  - rewrite Hspec. done.
Qed.

(** X27. The id of a message is generated from the number of messages of
    its thread alone, and [update_message] looks for the id in the whole
    file. When an older message has the id generated for a request, the
    driver completes the older message: it gets the diagram ids and the
    completion time of the request, and the message of the request itself,
    the last of the file, stays without diagram ids and without completion
    time. *)
Theorem completion_goes_to_older_message
    (messages : db) (thread prompt_ : string) (files : option string)
    (diagram_records : list Ledger.diagram_record) (started completed : string)
    (older : message_record) :
  get_message messages (_generate_message_id messages thread) = Some older ->
  let messages' :=
    run_pipeline_stream messages thread prompt_ files diagram_records
      started completed in
  get_message messages' (_generate_message_id messages thread)
  = Some (updated (Some (map Ledger.diagram_id diagram_records))
            (Some completed) older)
  /\ exists request,
       last messages' = Some request
       /\ thread_id request = thread
       /\ message_id request = _generate_message_id messages thread
       /\ diagram_ids request = []
       /\ completed_timestamp request = None.
Proof.
  intros Holder. simpl. unfold run_pipeline_stream, update_after_run, driver_begin.
  set (id := _generate_message_id messages thread) in *.
  set (ids := Some (map Ledger.diagram_id diagram_records)).
  set (parent := message_id <$> last (get_thread_messages messages thread)).
  simpl.
  set (request := {| user_id := USER_ID; thread_id := thread; message_id := id;
                     parent_message_id := parent; prompt := prompt_;
                     user_files_directory_path := files; diagram_ids := [];
                     created_timestamp := started;
                     completed_timestamp := None |}).
  pose proof (update_message_spec messages id ids (Some completed)) as Hspec.
  rewrite Holder in Hspec.
  destruct Hspec as (pre & post & Hmsgs & Hpre & Hid & _).
  pose proof (update_message_spec (messages ++ [request]) id ids (Some completed))
    as Hspec'.
  rewrite get_message_app, Holder in Hspec'.
  destruct Hspec' as (pre' & post' & Hmsgs' & Hpre' & _ & Hupd).
  rewrite Hupd. simpl.
  assert (pre' = pre /\ post' = post ++ [request]) as [-> ->].
  { rewrite Hmsgs, <- app_assoc in Hmsgs'. simpl in Hmsgs'.
    clear -Hmsgs' Hpre Hpre' Hid. revert pre' Hmsgs' Hpre'.
    induction pre as [|p pre IH]; intros pre' Hmsgs' Hpre'.
    - destruct pre' as [|p' pre']; simpl in Hmsgs'.
      + by injection Hmsgs' as <-.
      + injection Hmsgs' as <- _. unfold get_message in Hpre'. simpl in Hpre'.
        by rewrite Hid, String.eqb_refl in Hpre'.
    - unfold get_message in Hpre. simpl in Hpre.
      destruct (String.eqb (message_id p) id) eqn:Hp; [done|].
      destruct pre' as [|p' pre']; simpl in Hmsgs'.
      + injection Hmsgs' as -> _. by rewrite Hid, String.eqb_refl in Hp.
      + injection Hmsgs' as <- Hrest. unfold get_message in Hpre'.
        simpl in Hpre'. rewrite Hp in Hpre'.
        destruct (IH Hpre pre' Hrest Hpre') as [-> ->]. done. }
  split.
  - rewrite get_message_app, Hpre. unfold get_message. simpl.
    by rewrite Hid, String.eqb_refl.
  - exists request. split; [|done].
    rewrite app_comm_cons, app_assoc. apply last_snoc.
Qed.

Lemma completion_goes_to_older_message_witness :
  get_message
    (run_pipeline_stream [first_message] "thread_002" "draw" None [] "t1" "t2")
    (_generate_message_id [first_message] "thread_002")
  = Some (updated (Some (map Ledger.diagram_id [])) (Some "t2") first_message)
  /\ exists request,
       last (run_pipeline_stream [first_message] "thread_002" "draw" None []
               "t1" "t2") = Some request
       /\ thread_id request = "thread_002"
       /\ message_id request = _generate_message_id [first_message] "thread_002"
       /\ diagram_ids request = []
       /\ completed_timestamp request = None.
Proof.
  apply (completion_goes_to_older_message [first_message] "thread_002" "draw"
           None [] "t1" "t2" first_message).
  reflexivity.
Defined.

(** *** Threads *)

Lemma existsb_filter {A : Type} (p : A -> bool) (l : list A) :
  existsb p l = true <-> List.filter p l <> [].
Proof.
  induction l as [|a l IH]; simpl; [done|].
  destruct (p a); simpl; [done|]. apply IH.
Qed.

(** X28. [get_thread_messages] returns the messages of the thread, each as
    often as the file has it, by increasing creation time, and those of one
    creation time in the order of the file; and [thread_exists] holds
    exactly when that list is not empty. *)
Theorem get_thread_messages_sorted (messages : db) (thread : string) :
  let msgs := get_thread_messages messages thread in
  msgs ≡ₚ of_thread thread messages
  /\ (forall i j x y,
        (i < j)%nat -> msgs !! i = Some x -> msgs !! j = Some y ->
        String.ltb (created_timestamp y) (created_timestamp x) = false)
  /\ (forall ts,
        List.filter (fun m => String.eqb (created_timestamp m) ts) msgs
        = List.filter (fun m => String.eqb (created_timestamp m) ts)
            (of_thread thread messages))
  /\ (thread_exists messages thread = true <-> msgs <> []).
Proof.
  intros msgs. subst msgs. unfold get_thread_messages. fold (of_thread thread messages).
  pose proof (PySortFacts.sort_perm String.ltb created_timestamp
                (of_thread thread messages)) as Hperm.
  split_and!.
  - done.
  - apply PySortFacts.sorted_ascending.
    apply PySortFacts.sort_sorted; [apply string_ltb_asym|apply string_leb_trans].
  - intros ts. apply PySortFacts.filter_sort.
    intros a b Ha%String.eqb_eq Hb%String.eqb_eq. rewrite Ha, Hb.
    apply string_ltb_irrefl.
  - unfold thread_exists. rewrite existsb_filter. fold (of_thread thread messages).
    split; intros Hne Hnil; apply Hne.
    + rewrite Hnil in Hperm. symmetry. apply Permutation_nil_l. exact Hperm.
    + by rewrite Hnil.
Qed.

(** X29. The driver links a message to the last message of its thread.
    When the creation times of the messages of the thread do not decrease
    along the file, the message the driver adds has as parent the message
    of the thread that the file has last, and no parent when the thread has
    no message; it is added at the end of the file, without diagram ids and
    not completed. *)
Theorem driver_links_to_last_message
    (messages : db) (user thread message prompt_ : string)
    (files : option string) (now : string) :
  PySort.sorted String.ltb created_timestamp (of_thread thread messages) ->
  exists request,
    driver_begin messages user thread message prompt_ files now
    = messages ++ [request]
    /\ parent_message_id request
       = message_id <$> last (of_thread thread messages)
    /\ message_id request = message
    /\ thread_id request = thread
    /\ diagram_ids request = []
    /\ completed_timestamp request = None.
Proof.
  intros Hsorted. unfold driver_begin, get_thread_messages.
  fold (of_thread thread messages).
  rewrite PySortFacts.sort_sorted_id by done.
  eexists. split; [reflexivity|]. done.
Qed.

Lemma driver_links_to_last_message_witness :
  exists request,
    driver_begin [first_message; other_message; second_message] USER_ID
      "thread_001" "msg_003" "rename it" None "2024-01-01T10:09:00"
    = [first_message; other_message; second_message] ++ [request]
    /\ parent_message_id request
       = message_id <$> last (of_thread "thread_001"
                                [first_message; other_message; second_message])
    /\ message_id request = "msg_003"
    /\ thread_id request = "thread_001"
    /\ diagram_ids request = []
    /\ completed_timestamp request = None.
Proof.
  apply (driver_links_to_last_message
           [first_message; other_message; second_message] USER_ID
           "thread_001" "msg_003" "rename it" None "2024-01-01T10:09:00").
  vm_compute. repeat constructor.
Defined.

(** X30. [get_user_threads] returns the thread ids of the messages of the
    user, each once, in strictly increasing order. *)
Theorem get_user_threads_sorted_unique (messages : db) (user : string) :
  let threads := get_user_threads messages user in
  (forall t, t ∈ threads
             <-> exists m, m ∈ messages /\ user_id m = user /\ thread_id m = t)
  /\ NoDup threads
  /\ (forall i j x y,
        (i < j)%nat -> threads !! i = Some x -> threads !! j = Some y ->
        String.ltb x y = true).
Proof.
  intros threads. subst threads. unfold get_user_threads.
  set (ids := remove_dups _).
  pose proof (PySortFacts.sort_perm String.ltb (fun t => t) ids) as Hperm.
  assert (NoDup (PySort.sort String.ltb (fun t => t) ids)) as Hnd.
  { rewrite Hperm. apply NoDup_remove_dups. }
  split_and!.
  - intros t. rewrite Hperm. subst ids. rewrite elem_of_remove_dups.
    rewrite list_elem_of_fmap. split.
    + intros (m & -> & Hm). apply list_elem_of_In, filter_In in Hm as [Hm Hu].
      exists m. split; [by apply list_elem_of_In|].
      by apply String.eqb_eq in Hu.
    + intros (m & Hm & Hu & <-). exists m. split; [done|].
      apply list_elem_of_In, filter_In. split; [by apply list_elem_of_In|].
      by apply String.eqb_eq.
  - done.
  - intros i j x y Hij Hi Hj.
    pose proof (PySortFacts.sorted_ascending String.ltb (fun t => t) _
                  (PySortFacts.sort_sorted String.ltb (fun t => t)
                     string_ltb_asym string_leb_trans ids) i j x y Hij Hi Hj)
      as Hle.
    simpl in Hle. apply ltb_false in Hle.
    assert (x <> y) as Hne.
    { intros ->. rewrite NoDup_alt in Hnd. specialize (Hnd i j y Hi Hj). lia. }
    unfold String.ltb. destruct (String.compare x y) eqn:Hc; [|done|done].
    by apply String.compare_eq_iff in Hc.
Qed.

End MessagesFacts.
